(** * shwisk scraper: boundary discovery, termination detection, batching
    and the worker pool of [packages/scraper/src/scripts/scrape.ts].

    The development is a shallow embedding of the TypeScript source.
    - IDs are JavaScript numbers that only ever hold integers: [Z].
    - Array lengths and counters that start at 0 and are only incremented:
      [nat].
    - The 404 rate is a quotient of two array lengths compared with a
      decimal literal.  It is kept exact in [Q]; for the array lengths that
      occur (far below 2^26) the correctly rounded double quotient compares
      with the literal exactly as the rational does.
    - [async] code is cut at its [await]s: every synchronous stretch is a
      function on the shared state, and the scheduler's freedom is the
      order in which these functions are applied. *)

From Stdlib Require Import String ZArith List Lia Bool QArith Permutation Sorted.
Import ListNotations.
Close Scope Q_scope.
Open Scope Z_scope.

(* ===================================================================== *)
(** * Part I: the embedding                                               *)
(* ===================================================================== *)

(** ** JavaScript array helpers *)

Module Js.

(** [count / length] on non-negative integers.  [0 / 0] is [NaN],
    [k / 0] with [k > 0] is [Infinity]. *)
Inductive Ratio : Type :=
| RNaN
| RInf
| RNum (q : Q).

Definition div (n d : nat) : Ratio :=
  match d, n with
  | O, O => RNaN
  | O, S _ => RInf
  | S _, _ => RNum (Z.of_nat n # Pos.of_nat d)
  end.

(** [r >= q]; every comparison with [NaN] is false. *)
Definition ge (r : Ratio) (q : Q) : bool :=
  match r with
  | RNaN => false
  | RInf => true
  | RNum v => Qle_bool q v
  end.

(** [arr.slice(-n)]: the last [n] elements; [-0] is [0], so
    [slice(-0)] is the whole array. *)
Definition slice_last {A : Type} (n : nat) (arr : list A) : list A :=
  match n with
  | O => arr
  | S _ => skipn (length arr - n) arr
  end.

(** [arr.slice(i, j)] for [0 <= i <= j]. *)
Definition slice {A : Type} (i j : nat) (arr : list A) : list A :=
  firstn (j - i) (skipn i arr).

(** [arr.push(x); if (arr.length > cap) arr.shift()] *)
Definition push_shift {A : Type} (cap : nat) (arr : list A) (x : A) : list A :=
  let arr' := arr ++ [x] in
  if (cap <? length arr')%nat then tl arr' else arr'.

End Js.

(** ** Termination criteria

    [minConsecutive404s], [windowSize] and [min404Rate] are local constants
    of [findMaxWhiskyId] and of [scrape]. *)

Record Criteria : Type := {
  minConsecutive404s : nat;
  windowSize : nat;
  min404Rate : Q
}.

Definition scrape_criteria : Criteria :=
  {| minConsecutive404s := 3000; windowSize := 4500; min404Rate := 95 # 100 |}.

(** The parameters of the worked example: three consecutive 404s, a window
    of five outcomes, a rate of 0.6. *)
Definition example_criteria : Criteria :=
  {| minConsecutive404s := 3; windowSize := 5; min404Rate := 6 # 10 |}.

(** ** The live scan's stopping condition (worker, lines 786-813) *)

Module Detector.

(** An entry of the shared [results] log. *)
Record Result : Type := { id : Z; is404 : bool }.

(** [[...results].sort((a, b) => a.id - b.id)].  [Array.prototype.sort] is
    stable; a stable sort on a total preorder has exactly one result, which
    is computed here by insertion. *)
Fixpoint insert (r : Result) (l : list Result) : list Result :=
  match l with
  | [] => [r]
  | x :: t => if id r <=? id x then r :: x :: t else x :: insert r t
  end.

Fixpoint sort (l : list Result) : list Result :=
  match l with
  | [] => []
  | r :: t => insert r (sort t)
  end.

(** The backwards loop of lines 794-801 walks the window from its last
    element while [is404] holds. *)
Fixpoint leading404s (l : list Result) : nat :=
  match l with
  | r :: t => if is404 r then S (leading404s t) else O
  | [] => O
  end.

Definition consecutive404s (recentResults : list Result) : nat :=
  leading404s (rev recentResults).

(** [sortedResults.slice(-windowSize)] *)
Definition recentResults (c : Criteria) (results : list Result) : list Result :=
  Js.slice_last (windowSize c) (sort results).

Definition recent404Rate (window : list Result) : Js.Ratio :=
  Js.div (length (filter is404 window)) (length window).

(** The two conjuncts of the [if] at lines 803-806. *)
Definition criteria_met (c : Criteria) (window : list Result) : bool :=
  (minConsecutive404s c <=? consecutive404s window)%nat
  && Js.ge (recent404Rate window) (min404Rate c).

(** The whole check: guarded by [results.length >= windowSize]. *)
Definition should_stop (c : Criteria) (results : list Result) : bool :=
  if (windowSize c <=? length results)%nat
  then criteria_met c (recentResults c results)
  else false.

(** The order [sort] sorts by. *)
Definition le_id (a b : Result) : Prop := id a <= id b.

End Detector.

(** ** findMaxWhiskyId (lines 503-660) *)

Module Finder.

(** What [await scraper.fetchWhiskyPage(id)] does: returns, throws
    [NOT_FOUND], or throws anything else. *)
Inductive Probe : Type := Found | NotFound | OtherError.

Definition SAFETY_LIMIT : Z := 10000000.

(** The bookkeeping both phases repeat inline: the consecutive-404 counter
    and the boolean window ([true] = 404), pushed in probe order. *)
Record Track : Type := {
  consecutive : nat;
  window : list bool
}.

Definition track0 : Track := {| consecutive := 0; window := [] |}.

Definition record (c : Criteria) (t : Track) (p : Probe) : Track :=
  match p with
  | NotFound =>
      {| consecutive := S (consecutive t);
         window := Js.push_shift (windowSize c) (window t) true |}
  | Found | OtherError =>
      {| consecutive := 0;
         window := Js.push_shift (windowSize c) (window t) false |}
  end.

(** [window.length >= windowSize ? window.filter(r => r).length / window.length : 0] *)
Definition recent404Rate (c : Criteria) (w : list bool) : Js.Ratio :=
  if (windowSize c <=? length w)%nat
  then Js.div (length (filter (fun r => r) w)) (length w)
  else Js.RNum 0.

Definition criteria_met (c : Criteria) (t : Track) : bool :=
  (minConsecutive404s c <=? consecutive t)%nat
  && Js.ge (recent404Rate c (window t)) (min404Rate c).

(** *** Phase 1: exponential search *)

Record Phase1 : Type := {
  upperBound : Z;
  lastValidId : Z;
  track1 : Track
}.

(** One iteration of the [while (true)] loop; [inr ub] is a [break] with
    [upperBound = ub]. *)
Definition phase1_step (c : Criteria) (fetch : Z -> Probe) (s : Phase1)
  : Phase1 + Z :=
  match fetch (upperBound s) with
  | Found =>
      let t := record c (track1 s) Found in
      let nextBound := upperBound s * 2 in
      if SAFETY_LIMIT <? nextBound then inr (upperBound s)
      else inl {| upperBound := nextBound;
                  lastValidId := upperBound s;
                  track1 := t |}
  | NotFound =>
      let t := record c (track1 s) NotFound in
      if criteria_met c t then inr (lastValidId s)
      else
        (* both arms of the [consecutive404s >= minConsecutive404s / 2]
           test carry the same statements *)
        let ub := (upperBound s + lastValidId s) / 2 in
        let ub := if ub <=? lastValidId s then lastValidId s + 1 else ub in
        inl {| upperBound := ub;
               lastValidId := lastValidId s;
               track1 := t |}
  | OtherError =>
      inl {| upperBound := upperBound s + 1;
             lastValidId := lastValidId s;
             track1 := record c (track1 s) OtherError |}
  end.

Fixpoint phase1 (c : Criteria) (fetch : Z -> Probe) (fuel : nat) (s : Phase1)
  : option Z :=
  match fuel with
  | O => None
  | S fuel' =>
      match phase1_step c fetch s with
      | inr ub => Some ub
      | inl s' => phase1 c fetch fuel' s'
      end
  end.

(** *** Phase 2: binary search *)

Record Phase2 : Type := {
  left : Z;
  right : Z;
  maxValidId : Z;
  track2 : Track
}.

(** One iteration of [while (left <= right)], entered with [left <= right];
    [inr m] is the [break] on the criteria with [maxValidId = m]. *)
Definition phase2_step (c : Criteria) (fetch : Z -> Probe) (s : Phase2)
  : Phase2 + Z :=
  let mid := (left s + right s) / 2 in
  match fetch mid with
  | Found =>
      inl {| left := mid + 1; right := right s; maxValidId := mid;
             track2 := record c (track2 s) Found |}
  | NotFound =>
      let t := record c (track2 s) NotFound in
      if criteria_met c t then inr (maxValidId s)
      else inl {| left := left s; right := mid - 1;
                  maxValidId := maxValidId s; track2 := t |}
  | OtherError =>
      inl {| left := mid + 1; right := right s; maxValidId := maxValidId s;
             track2 := record c (track2 s) OtherError |}
  end.

Fixpoint phase2 (c : Criteria) (fetch : Z -> Probe) (fuel : nat) (s : Phase2)
  : option Z :=
  if right s <? left s then Some (maxValidId s)
  else
    match fuel with
    | O => None
    | S fuel' =>
        match phase2_step c fetch s with
        | inr m => Some m
        | inl s' => phase2 c fetch fuel' s'
        end
    end.

Definition phase1_init (startId : Z) : Phase1 :=
  {| upperBound := startId; lastValidId := startId; track1 := track0 |}.

Definition phase2_init (startId upperBound : Z) : Phase2 :=
  {| left := startId; right := upperBound; maxValidId := startId;
     track2 := track0 |}.

(** [fuel] bounds the iterations of each loop; [None] means the bound was
    reached before the function returned. *)
Definition findMaxWhiskyId (c : Criteria) (fetch : Z -> Probe) (fuel : nat)
    (startId : Z) : option Z :=
  match phase1 c fetch fuel (phase1_init startId) with
  | None => None
  | Some ub => phase2 c fetch fuel (phase2_init startId ub)
  end.


(** The synthetic source in which exactly the IDs [1..M] exist. *)
Definition threshold (M : Z) (i : Z) : Probe :=
  if (1 <=? i) && (i <=? M) then Found else NotFound.

(** *** Invariants of the loops *)

(** The window holds at most [windowSize] flags, at least as many as
    there were consecutive 404s (up to [windowSize]), and its last
    [consecutive] flags are 404s. *)
Definition track_ok (c : Criteria) (t : Track) : Prop :=
  (length (window t) <= windowSize c)%nat
  /\ (Nat.min (consecutive t) (windowSize c) <= length (window t))%nat
  /\ Forall (fun r => r = true)
       (skipn (length (window t) - consecutive t) (window t)).

(** The state phase 1 continues with after a probe that succeeded below
    the safety limit, and after a 404 that did not meet the criteria. *)
Definition after_found (c : Criteria) (s : Phase1) : Phase1 :=
  {| upperBound := upperBound s * 2;
     lastValidId := upperBound s;
     track1 := record c (track1 s) Found |}.

Definition after_notfound (c : Criteria) (s : Phase1) : Phase1 :=
  {| upperBound :=
       if (upperBound s + lastValidId s) / 2 <=? lastValidId s
       then lastValidId s + 1
       else (upperBound s + lastValidId s) / 2;
     lastValidId := lastValidId s;
     track1 := record c (track1 s) NotFound |}.

(** Phase 1 on the threshold source, after its first probe: the last
    valid ID exists, the candidate is above it, and below [M] the distance
    between the two has been halved once per consecutive 404. *)
Definition climbing (c : Criteria) (M : Z) (s : Phase1) : Prop :=
  1 <= lastValidId s <= M
  /\ lastValidId s < upperBound s
  /\ track_ok c (track1 s)
  /\ (lastValidId s < M ->
      (upperBound s - lastValidId s) * 2 ^ Z.of_nat (consecutive (track1 s))
      <= lastValidId s).

End Finder.

(** ** BatchBuffer and saveWhiskyDataBatch (lines 88-222) *)

Module Buffer.
Section WithRecord.

(** [WhiskyData]; the buffer never looks inside a record. *)
Context {R : Type}.

Definition CHUNK_SIZE : nat := 25.

(** [for (let i = 0; i < batch.length; i += CHUNK_SIZE)] with
    [batch.slice(i, i + CHUNK_SIZE)]; the loop runs at most
    [batch.length] times. *)
Fixpoint chunk_loop (fuel i : nat) (batch : list R) : list (list R) :=
  match fuel with
  | O => []
  | S fuel' =>
      if (i <? length batch)%nat
      then Js.slice i (i + CHUNK_SIZE) batch
           :: chunk_loop fuel' (i + CHUNK_SIZE) batch
      else []
  end.

(** The lists on which [saveWhiskyDataBatch batch] runs its database
    statements, in order: nothing for an empty batch, the batch itself up
    to [CHUNK_SIZE], its slices above (each slice re-enters the function
    and is short enough to be written directly). *)
Definition db_chunks (batch : list R) : list (list R) :=
  match batch with
  | [] => []
  | _ :: _ =>
      if (CHUNK_SIZE <? length batch)%nat
      then chunk_loop (length batch) 0 batch
      else [batch]
  end.

(** How one call of [saveWhiskyDataBatch] ends: [None] when every database
    statement succeeds, [Some k] when the statements of chunk number [k]
    (from 0) throw; a chunk is written whole or not at all.  A [k] past the
    last chunk is never reached. *)
Definition Fault : Type := option nat.

Definition saveWhiskyDataBatch (batch : list R) (f : Fault) : list (list R) * bool :=
  let cs := db_chunks batch in
  match f with
  | None => (cs, true)
  | Some k => if (k <? length cs)%nat then (firstn k cs, false) else (cs, true)
  end.

(** Who called [flush()], which decides the [console.error] line written
    when the call rejects. *)
Inductive Origin : Type := ByAdd | ByTimer | ByDrain.

Definition catch_line (o : Origin) : string :=
  match o with
  | ByAdd => "Error during batch flush:"
  | ByTimer => "Error during auto-flush:"
  | ByDrain => "Error flushing remaining items:"
  end%string.

(** The flush in flight: the snapshot handed to [saveWhiskyDataBatch] and
    the caller suspended at line 178. *)
Record InFlight : Type := { batch : list R; starter : Origin }.

Record State : Type := {
  buffer : list R;
  flushing : bool;
  batchSize : nat;
  flushInterval : bool;               (* the timer handle is not null *)
  flushPromise : option InFlight;
  totalBatchesSaved : nat;
  totalWhiskiesSaved : nat;
  (* callers of [flush()] suspended at line 142, oldest first *)
  waiters : list Origin;
  (* the world around the object *)
  saveCalls : list (list R);          (* arguments of saveWhiskyDataBatch, oldest first *)
  stored : list (list R);             (* chunks written to the database *)
  console : list string               (* console.error lines *)
}.

Definition new (batchSize : nat) : State :=
  {| buffer := []; flushing := false; batchSize := batchSize;
     flushInterval := false; flushPromise := None;
     totalBatchesSaved := 0; totalWhiskiesSaved := 0;
     waiters := []; saveCalls := []; stored := []; console := [] |}.

(** [flush()] from its first line to its first [await]. *)
Definition flush (o : Origin) (s : State) : State :=
  match flushPromise s with
  | Some _ =>
      (* line 142: wait for the flush in flight *)
      {| buffer := buffer s; flushing := flushing s; batchSize := batchSize s;
         flushInterval := flushInterval s; flushPromise := flushPromise s;
         totalBatchesSaved := totalBatchesSaved s;
         totalWhiskiesSaved := totalWhiskiesSaved s;
         waiters := waiters s ++ [o];
         saveCalls := saveCalls s; stored := stored s; console := console s |}
  | None =>
      match buffer s with
      | [] => s
      | _ :: _ =>
          {| buffer := []; flushing := true; batchSize := batchSize s;
             flushInterval := flushInterval s;
             flushPromise := Some {| batch := buffer s; starter := o |};
             totalBatchesSaved := totalBatchesSaved s;
             totalWhiskiesSaved := totalWhiskiesSaved s;
             waiters := waiters s;
             saveCalls := saveCalls s ++ [buffer s];
             stored := stored s; console := console s |}
      end
  end.

Definition add (data : R) (s : State) : State :=
  let s' :=
    {| buffer := buffer s ++ [data]; flushing := flushing s;
       batchSize := batchSize s; flushInterval := flushInterval s;
       flushPromise := flushPromise s;
       totalBatchesSaved := totalBatchesSaved s;
       totalWhiskiesSaved := totalWhiskiesSaved s;
       waiters := waiters s;
       saveCalls := saveCalls s; stored := stored s; console := console s |} in
  if (batchSize s' <=? length (buffer s'))%nat && negb (flushing s')
  then flush ByAdd s' else s'.

Definition set_flushInterval (b : bool) (s : State) : State :=
  {| buffer := buffer s; flushing := flushing s; batchSize := batchSize s;
     flushInterval := b; flushPromise := flushPromise s;
     totalBatchesSaved := totalBatchesSaved s;
     totalWhiskiesSaved := totalWhiskiesSaved s;
     waiters := waiters s;
     saveCalls := saveCalls s; stored := stored s; console := console s |}.

Definition startAutoFlush (s : State) : State := set_flushInterval true s.
Definition stopAutoFlush (s : State) : State := set_flushInterval false s.

(** The [setInterval] callback; it only runs while the timer is set. *)
Definition tick (s : State) : State :=
  if flushInterval s
  then if (0 <? length (buffer s))%nat && negb (flushing s)
       then flush ByTimer s else s
  else s.

Definition log (lines : list string) (s : State) : State :=
  {| buffer := buffer s; flushing := flushing s; batchSize := batchSize s;
     flushInterval := flushInterval s; flushPromise := flushPromise s;
     totalBatchesSaved := totalBatchesSaved s;
     totalWhiskiesSaved := totalWhiskiesSaved s;
     waiters := waiters s;
     saveCalls := saveCalls s; stored := stored s;
     console := console s ++ lines |}.

Definition set_buffer (b : list R) (s : State) : State :=
  {| buffer := b; flushing := flushing s; batchSize := batchSize s;
     flushInterval := flushInterval s; flushPromise := flushPromise s;
     totalBatchesSaved := totalBatchesSaved s;
     totalWhiskiesSaved := totalWhiskiesSaved s;
     waiters := waiters s;
     saveCalls := saveCalls s; stored := stored s; console := console s |}.

(** Lines 143-147 for each caller suspended at line 142, after the awaited
    flush has succeeded: flush again if the buffer is full, else return. *)
Fixpoint resume_waiters (ws : list Origin) (s : State) : State :=
  match ws with
  | [] => s
  | o :: ws' =>
      resume_waiters ws'
        (if (batchSize s <=? length (buffer s))%nat then flush o s else s)
  end.

(** [add] and the timer attach a [.catch] to the call and move on; the
    drain awaits the call inside its own [try]. *)
Definition fire_and_forget (o : Origin) : bool :=
  match o with
  | ByDrain => false
  | ByAdd | ByTimer => true
  end.

(** The flush in flight settles: the body of the promise of lines 162-176
    after its [await], then everything that was waiting for it.  [watch]
    are the lines of [catch] blocks around a direct [await] of the promise
    (line 186), which run before the callers' [.catch] handlers.  Returns
    whether the promise was fulfilled. *)
Definition settle (watch : list string) (f : Fault) (s : State) : State * bool :=
  match flushPromise s with
  | None => (s, true)
  | Some p =>
      let '(written, ok) := saveWhiskyDataBatch (batch p) f in
      let s1 :=
        {| buffer := buffer s; flushing := false; batchSize := batchSize s;
           flushInterval := flushInterval s; flushPromise := None;
           totalBatchesSaved :=
             if ok then S (totalBatchesSaved s) else totalBatchesSaved s;
           totalWhiskiesSaved :=
             if ok then (totalWhiskiesSaved s + length (batch p))%nat
             else totalWhiskiesSaved s;
           waiters := [];
           saveCalls := saveCalls s;
           stored := stored s ++ written;
           console := console s |} in
      if ok then (resume_waiters (waiters s) s1, true)
      else
        (log (watch ++ map catch_line
                          (filter fire_and_forget (starter p :: waiters s)))
             s1, false)
  end.

(** What can happen to the buffer while the workers run. *)
Inductive Event : Type :=
| Add (data : R)
| Tick
| Settle (f : Fault)
| StartAutoFlush.

Definition step (s : State) (e : Event) : State :=
  match e with
  | Add data => add data s
  | Tick => tick s
  | Settle f => fst (settle [] f s)
  | StartAutoFlush => startAutoFlush s
  end.

Definition run (es : list Event) (s : State) : State := fold_left step es s.

(** [await this.flush()] with nothing else scheduled in between: the call,
    then the settlements it waits for, taken from [fs].  The Boolean tells
    whether the call was fulfilled. *)
Fixpoint flush_await (fuel : nat) (fs : list Fault) (s : State)
  : option (State * list Fault * bool) :=
  match fuel with
  | O => None
  | S fuel' =>
      match flushPromise s with
      | Some _ =>
          let '(s1, ok) := settle [] (hd None fs) s in
          if ok
          then if (batchSize s1 <=? length (buffer s1))%nat
               then flush_await fuel' (tl fs) s1
               else Some (s1, tl fs, true)
          else Some (s1, tl fs, false)
      | None =>
          match buffer s with
          | [] => Some (s, fs, true)
          | _ :: _ =>
              let '(s1, ok) := settle [] (hd None fs) (flush ByDrain s) in
              Some (s1, tl fs, ok)
          end
      end
  end.

(** The [while (this.buffer.length > 0)] loop of [flushAll]. *)
Fixpoint drain (fuel : nat) (fs : list Fault) (s : State) : option State :=
  match buffer s with
  | [] => Some s
  | _ :: _ =>
      match fuel with
      | O => None
      | S fuel' =>
          match flush_await (S fuel') fs s with
          | None => None
          | Some (s1, fs1, true) => drain fuel' fs1 s1
          | Some (s1, _, false) =>
              Some (set_buffer [] (log [catch_line ByDrain] s1))
          end
      end
  end.

(** [flushAll()], run with no producer and no timer interleaved; [fs] are
    the outcomes of the persistence calls it waits for. *)
Definition flushAll (fuel : nat) (fs : list Fault) (s : State) : option State :=
  let s0 := stopAutoFlush s in
  match flushPromise s0 with
  | Some _ =>
      let '(s1, _) := settle ["Error during final flush:"%string] (hd None fs) s0 in
      drain fuel (tl fs) s1
  | None => drain fuel fs s0
  end.

(** The records handed to [add] by a run of events, in order. *)
Definition added (es : list Event) : list R :=
  flat_map (fun e => match e with Add data => [data] | _ => [] end) es.

Definition fault_free (es : list Event) : Prop :=
  forall f, In (Settle f) es -> f = None.

Definition no_fault (fs : list Fault) : Prop := forall f, In f fs -> f = None.

(** Every flush completes, successfully, before the next record arrives. *)
Definition settled_feed (rs : list R) : list Event :=
  flat_map (fun r => [Add r; Settle None]) rs.

(** *** Invariants *)

Definition in_flight (s : State) : list R :=
  match flushPromise s with
  | Some p => batch p
  | None => []
  end.

(** [flushing] mirrors [flushPromise], nobody waits at line 142, and the
    records handed over so far are, in order, those passed to
    [saveWhiskyDataBatch] followed by the buffer. *)
Definition consistent (h : list R) (s : State) : Prop :=
  flushing s = match flushPromise s with Some _ => true | None => false end
  /\ waiters s = []
  /\ concat (saveCalls s) ++ buffer s = h.

(** Fault-free runs: what was handed over is, in order, what the database
    holds, then the batch in flight, then the buffer. *)
Definition delivered (h : list R) (s : State) : Prop :=
  concat (stored s) ++ in_flight s ++ buffer s = h.

(** Once the buffer is empty or no flush is in flight, resumed waiters
    keep it so. *)
Definition drainable (s : State) : Prop :=
  buffer s = [] \/ flushPromise s = None.

Definition small (ch : list R) : Prop := (length ch <= CHUNK_SIZE)%nat.

(** Between two records of a settled feed: nothing in flight, [r < B]
    records buffered, [q] full batches saved. *)
Definition fed (B q r : nat) (s : State) : Prop :=
  flushPromise s = None /\ waiters s = [] /\ flushing s = false
  /\ batchSize s = B /\ length (buffer s) = r /\ (r < B)%nat
  /\ map (@length R) (saveCalls s) = repeat B q
  /\ ((B <= CHUNK_SIZE)%nat -> stored s = saveCalls s)
  /\ Forall small (stored s).

End WithRecord.
Arguments State : clear implicits.
Arguments Event : clear implicits.
End Buffer.

(** ** scrape: the worker pool (lines 662-869) *)

Module Pool.
Import Detector.
Section WithRecord.

Context {R : Type}.

(** What [await scraper.scrapeWhisky(currentId)] does: returns a record,
    returns [null], throws [NOT_FOUND], or throws anything else. *)
Inductive Scraped : Type :=
| Data (data : R)
| NoData
| NotFound
| Failed.

(** [ScrapeOptions] after destructuring with its defaults. *)
Record Options : Type := {
  startId : Z;
  maxId : option Z;
  dryRun : bool;
  findMaxId : bool;
  concurrency : nat
}.

(** Truthiness of an optional number: [undefined] and [0] are falsy. *)
Definition truthy (n : option Z) : bool :=
  match n with
  | None => false
  | Some v => negb (v =? 0)
  end.

(** Lines 679-682; [found] is what [findMaxWhiskyId] returned, used only
    when the search is requested and [maxId] is falsy. *)
Definition actualMaxId (o : Options) (found : Z) : option Z :=
  if findMaxId o && negb (truthy (maxId o)) then Some found else maxId o.

(** The command line sets [startId], [maxId] and [dryRun] only
    (lines 880-901). *)
Definition cli_options (startId maxId : option Z) (dryRun : bool) : Options :=
  {| startId := match startId with Some v => v | None => 1 end;
     maxId := maxId;
     dryRun := dryRun;
     findMaxId := false;
     concurrency := 10 |}.

(** What the worker closure captures and never assigns. *)
Record Env : Type := {
  criteria : Criteria;
  bound : option Z;                   (* actualMaxId *)
  dry : bool;
  first : Z;                          (* startId *)
  size : nat                          (* concurrency *)
}.

Definition env_of (c : Criteria) (o : Options) (found : Z) : Env :=
  {| criteria := c; bound := actualMaxId o found; dry := dryRun o;
     first := startId o; size := concurrency o |}.

(** A worker's promise: suspended at the [await] of line 748 with the ID
    it claimed, fulfilled, or rejected. *)
Inductive Worker : Type :=
| Fetching (currentId : Z)
| Returned
| Threw.

Record State : Type := {
  results : list Result;
  shouldStop : bool;
  nextId : Z;
  processedCount : nat;
  batchBuffer : Buffer.State R;
  errors : list Z;                    (* IDs of the "Error scraping whisky" lines *)
  workers : list Worker
}.

Definition init (e : Env) (batchSize : nat) : State :=
  {| results := []; shouldStop := false; nextId := first e;
     processedCount := 0;
     batchBuffer :=
       if dry e then Buffer.new batchSize
       else Buffer.startAutoFlush (Buffer.new batchSize);
     errors := []; workers := [] |}.

(** [actualMaxId && nextId > actualMaxId] *)
Definition beyond (bound : option Z) (nextId : Z) : bool :=
  match bound with
  | None => false
  | Some m => negb (m =? 0) && (m <? nextId)
  end.

(** From [while (!shouldStop)] to the [await]: leave the loop, or claim
    [nextId++]. *)
Definition loop_head (e : Env) (s : State) : State * Worker :=
  if shouldStop s then (s, Returned)
  else if beyond (bound e) (nextId s) then (s, Returned)
  else
    ({| results := results s; shouldStop := shouldStop s;
        nextId := nextId s + 1;
        processedCount := processedCount s;
        batchBuffer := batchBuffer s; errors := errors s;
        workers := workers s |},
     Fetching (nextId s)).

(** [results.push({ id, is404 }); processedCount++] *)
Definition push_result (r : Result) (s : State) : State :=
  {| results := results s ++ [r]; shouldStop := shouldStop s;
     nextId := nextId s;
     processedCount := S (processedCount s);
     batchBuffer := batchBuffer s; errors := errors s;
     workers := workers s |}.

Definition hand_over (data : R) (s : State) : State :=
  {| results := results s; shouldStop := shouldStop s; nextId := nextId s;
     processedCount := processedCount s;
     batchBuffer := Buffer.add data (batchBuffer s);
     errors := errors s; workers := workers s |}.

Definition log_error (currentId : Z) (s : State) : State :=
  {| results := results s; shouldStop := shouldStop s; nextId := nextId s;
     processedCount := processedCount s;
     batchBuffer := batchBuffer s;
     errors := errors s ++ [currentId]; workers := workers s |}.

Definition set_shouldStop (s : State) : State :=
  {| results := results s; shouldStop := true; nextId := nextId s;
     processedCount := processedCount s;
     batchBuffer := batchBuffer s; errors := errors s;
     workers := workers s |}.

Definition set_workers (ws : list Worker) (s : State) : State :=
  {| results := results s; shouldStop := shouldStop s; nextId := nextId s;
     processedCount := processedCount s;
     batchBuffer := batchBuffer s; errors := errors s;
     workers := ws |}.

Definition set_batchBuffer (b : Buffer.State R) (s : State) : State :=
  {| results := results s; shouldStop := shouldStop s; nextId := nextId s;
     processedCount := processedCount s;
     batchBuffer := b; errors := errors s;
     workers := workers s |}.

(** Lines 785-813, then back to the loop head. *)
Definition check (e : Env) (s : State) : State * Worker :=
  if should_stop (criteria e) (results s)
  then (set_shouldStop s, Returned)
  else loop_head e s.

(** From the [await] of line 748 to the next one (or to the end of the
    worker). *)
Definition after_fetch (e : Env) (currentId : Z) (o : Scraped) (s : State)
  : State * Worker :=
  match o with
  | NoData =>
      (* [continue]: the stopping condition is skipped *)
      loop_head e (push_result {| id := currentId; is404 := false |} s)
  | Data data =>
      let s1 := if dry e then s else hand_over data s in
      check e (push_result {| id := currentId; is404 := false |} s1)
  | NotFound =>
      check e (push_result {| id := currentId; is404 := true |} s)
  | Failed =>
      check e (push_result {| id := currentId; is404 := false |}
                 (log_error currentId s))
  end.

(** [Array.from({ length: concurrency }, (_, i) => worker(i))]: each worker
    runs to its first [await] before the next one starts. *)
Fixpoint spawn (e : Env) (n : nat) (s : State) : State :=
  match n with
  | O => s
  | S n' =>
      let '(s1, w) := loop_head e s in
      spawn e n' (set_workers (workers s1 ++ [w]) s1)
  end.

Definition start (e : Env) (batchSize : nat) : State :=
  spawn e (size e) (init e batchSize).

(** One turn of the event loop while the pool runs: some pending fetch
    settles, the flush timer fires, or the flush in flight settles. *)
Inductive step (e : Env) : State -> State -> Prop :=
| step_fetch (s s1 : State) (pre post : list Worker) (currentId : Z)
    (o : Scraped) (w : Worker) :
    workers s = pre ++ Fetching currentId :: post ->
    after_fetch e currentId o s = (s1, w) ->
    step e s (set_workers (pre ++ w :: post) s1)
| step_buffer (s : State) (ev : Buffer.Event R) :
    (forall data, ev <> Buffer.Add data) ->
    step e s (set_batchBuffer (Buffer.step (batchBuffer s) ev) s).

Inductive reachable (e : Env) (batchSize : nat) : State -> Prop :=
| reach_start : reachable e batchSize (start e batchSize)
| reach_step (s s' : State) :
    reachable e batchSize s -> step e s s' -> reachable e batchSize s'.

(** The IDs claimed so far: those whose outcome is in the log and those
    being fetched. *)
Definition fetching (ws : list Worker) : list Z :=
  flat_map (fun w => match w with Fetching i => [i] | _ => [] end) ws.

Definition claimed (s : State) : list Z :=
  map id (results s) ++ fetching (workers s).

(** *** After the pool (lines 820-868) *)

Definition settled (s : State) : bool :=
  forallb (fun w => match w with Fetching _ => false | _ => true end) (workers s).

Definition rejected (s : State) : bool :=
  existsb (fun w => match w with Threw => true | _ => false end) (workers s).

(** [Math.max(...ids)] on a non-empty array. *)
Definition maximum (d : Z) (ids : list Z) : Z :=
  match ids with
  | [] => d
  | i :: t => fold_left Z.max t i
  end.

(** The arguments of the last [updateProgress] call of a run whose workers
    have all settled; none in a dry run. *)
Definition final_progress (e : Env) (s : State) : option (Z * string) :=
  if dry e then None
  else if rejected s
  then Some (maximum (first e - 1) (map id (results s)), "error"%string)
  else Some (maximum (first e - 1)
               (map id (filter (fun r => negb (is404 r)) (results s))),
             "completed"%string).

(** *** Invariants *)

(** What one pass through the loop head does to the shared state. *)
Inductive claims (e : Env) (s : State) : State -> Worker -> Prop :=
| claims_none s' :
    nextId s' = nextId s ->
    shouldStop s' = true \/ beyond (bound e) (nextId s) = true ->
    claims e s s' Returned
| claims_next s' :
    nextId s' = nextId s + 1 ->
    shouldStop s' = false ->
    beyond (bound e) (nextId s) = false ->
    claims e s s' (Fetching (nextId s)).

(** The outcome a worker logs for what its fetch did. *)
Definition logged (currentId : Z) (o : Scraped) : Result :=
  {| id := currentId;
     is404 := match o with NotFound => true | _ => false end |}.

Definition within (bound : option Z) (i : Z) : Prop :=
  forall m, bound = Some m -> m <> 0 -> i <= m.

Definition sound (e : Env) (s : State) : Prop :=
  NoDup (claimed s)
  /\ Forall (fun i => first e <= i < nextId s) (claimed s)
  /\ Forall (within (bound e)) (claimed s)
  /\ Forall (fun w => w <> Threw) (workers s).



End WithRecord.
Arguments State : clear implicits.
Arguments Scraped : clear implicits.
End Pool.

(** ** BatchBuffer: accounting *)

Module Ledger.
Import Buffer.
Section WithRecord.

Context {R : Type}.

(** [l1] is [l2] with some elements left out, the others in place. *)
Inductive subseq : list R -> list R -> Prop :=
| subseq_nil : subseq [] []
| subseq_skip (x : R) (l1 l2 : list R) : subseq l1 l2 -> subseq l1 (x :: l2)
| subseq_keep (x : R) (l1 l2 : list R) : subseq l1 l2 -> subseq (x :: l1) (x :: l2).

(** [saveWhiskyDataBatch] as it is written, with its recursive call on
    every slice (line 219); [depth] bounds the nesting of the calls and
    [None] means that the bound was reached. *)
Fixpoint writes (depth : nat) (batch : list R) : option (list (list R)) :=
  match depth with
  | O => None
  | S depth' =>
      match batch with
      | [] => Some []
      | _ :: _ =>
          if (CHUNK_SIZE <? length batch)%nat
          then
            (fix loop (n i : nat) : option (list (list R)) :=
               match n with
               | O => if (i <? length batch)%nat then None else Some []
               | S n' =>
                   if (i <? length batch)%nat
                   then
                     match writes depth' (Js.slice i (i + CHUNK_SIZE) batch),
                           loop n' (i + CHUNK_SIZE)%nat with
                     | Some here, Some later => Some (here ++ later)
                     | _, _ => None
                     end
                   else Some []
               end) (length batch) 0%nat
          else Some [batch]
      end
  end.

(** 1 while a flush is in flight. *)
Definition pending (s : State R) : nat :=
  match flushPromise s with
  | Some _ => 1
  | None => 0
  end.

(** What holds of the counters and of the database whatever the persistence
    calls do: nothing is written twice or out of order, a failed batch is
    not counted, no call is made on an empty batch and no write is empty or
    longer than [CHUNK_SIZE]. *)
Definition accounted (h : list R) (s : State R) : Prop :=
  subseq (concat (stored s) ++ in_flight s ++ buffer s) h
  /\ (totalWhiskiesSaved s <= length (concat (stored s)))%nat
  /\ (totalBatchesSaved s + pending s <= length (saveCalls s))%nat
  /\ Forall (fun b => b <> []) (saveCalls s)
  /\ Forall (fun ch => ch <> [] /\ small ch) (stored s).

(** What holds in addition as long as no persistence call fails. *)
Definition tallied (s : State R) : Prop :=
  totalWhiskiesSaved s = length (concat (stored s))
  /\ (totalBatchesSaved s + pending s = length (saveCalls s))%nat.

End WithRecord.
End Ledger.

(** ** findMaxWhiskyId: invariant of phase 1 on a source without errors *)

Module Search.
Import Finder.

(** Phase 1 after its first probe: the last valid ID is not below the
    start, the candidate is above it and within the safety limit. *)
Definition searching (c : Criteria) (startId : Z) (s : Phase1) : Prop :=
  startId <= lastValidId s
  /\ 1 <= lastValidId s
  /\ lastValidId s < upperBound s
  /\ upperBound s <= SAFETY_LIMIT
  /\ track_ok c (track1 s).

(** The number of consecutive 404s after which both criteria hold. *)
Definition saturation (c : Criteria) : nat :=
  Nat.max (minConsecutive404s c) (windowSize c).

End Search.

(** ** scrape: what the pool has processed, and what it hands over *)

Module Scan.
Import Detector Pool.
Section WithRecord.

Context {R : Type}.

(** The IDs [a, a + 1, ..., a + n - 1]. *)
Definition id_range (a : Z) (n : nat) : list Z :=
  map (fun k => a + Z.of_nat k) (seq 0 n).

(** A worker has left its loop only if the stop flag is set or a truthy
    [actualMaxId] is below [nextId]. *)
Definition left_for_cause (e : Env) (s : Pool.State R) (w : Worker) : Prop :=
  w = Returned -> shouldStop s = true \/ beyond (bound e) (nextId s) = true.

(** The shared counters against the outcome log: no ID between [startId]
    and [nextId] is unclaimed, [processedCount] counts the outcomes,
    [nextId] passes a truthy [actualMaxId] by at most one, and the stop
    flag is set only once the criteria held on the log. *)
Definition tidy (e : Env) (s : Pool.State R) : Prop :=
  Z.of_nat (length (claimed s)) = nextId s - first e
  /\ processedCount s = length (results s)
  /\ (forall m, bound e = Some m -> m <> 0 -> nextId s <= Z.max (first e) (m + 1))
  /\ Forall (left_for_cause e s) (workers s)
  /\ (shouldStop s = true ->
      exists k, should_stop (criteria e) (firstn k (results s)) = true).

(** The records a worker hands to the batch buffer for what its fetch
    did (lines 760-762). *)
Definition handed_over (e : Env) (o : Pool.Scraped R) : list R :=
  if dry e then []
  else match o with
       | Data data => [data]
       | _ => []
       end.

(** Reachable states, with the records handed to the batch buffer so far,
    in the order in which the fetches completed. *)
Inductive handed (e : Env) (batchSize : nat) : list R -> Pool.State R -> Prop :=
| handed_start : handed e batchSize [] (start e batchSize)
| handed_fetch (h : list R) (s s1 : Pool.State R) (pre post : list Worker)
    (currentId : Z) (o : Pool.Scraped R) (w : Worker) :
    handed e batchSize h s ->
    workers s = pre ++ Fetching currentId :: post ->
    after_fetch e currentId o s = (s1, w) ->
    handed e batchSize (h ++ handed_over e o) (set_workers (pre ++ w :: post) s1)
| handed_buffer (h : list R) (s : Pool.State R) (ev : Buffer.Event R) :
    handed e batchSize h s ->
    (forall data, ev <> Buffer.Add data) ->
    handed e batchSize h (set_batchBuffer (Buffer.step (batchBuffer s) ev) s).

(** The batch buffer of a dry run: nothing buffered, in flight, passed on
    or written. *)
Definition untouched (b : Buffer.State R) : Prop :=
  Buffer.buffer b = [] /\ Buffer.flushPromise b = None
  /\ Buffer.saveCalls b = [] /\ Buffer.stored b = [].

(** One worker resumed in state [s] with the outcome [o] of its fetch of
    [currentId]; the pool has one worker. *)
Definition resume (e : Env) (currentId : Z) (o : Pool.Scraped R)
    (s : Pool.State R) : Pool.State R :=
  set_workers ([] ++ snd (after_fetch e currentId o s) :: [])
    (fst (after_fetch e currentId o s)).

End WithRecord.

(** A scan of the IDs 1 and 2 by one worker. *)
Definition two_ids : Env :=
  {| criteria := example_criteria; bound := Some 2; dry := false;
     first := 1; size := 1 |}.

Definition two_ids_end : Pool.State Z :=
  resume two_ids 2 NotFound (resume two_ids 1 (Data 7) (start two_ids 50)).

(** An unbounded scan by one worker that meets two pages and then three
    404s. *)
Definition stopping : Env :=
  {| criteria := example_criteria; bound := None; dry := true;
     first := 1; size := 1 |}.

Definition stopping_end : Pool.State Z :=
  resume stopping 5 NotFound
    (resume stopping 4 NotFound
       (resume stopping 3 NotFound
          (resume stopping 2 NoData
             (resume stopping 1 NoData (start stopping 50))))).

End Scan.

(** ** WhiskyScraper ([scraper.ts], in [unnamed/part_002]): the functions
    [scrape.ts] calls; line numbers are those of [unnamed/part_002] *)

Module Scraper.

(** A JavaScript string is the list of its UTF-16 code units. *)
Definition code (s : string) : list N :=
  map Ascii.N_of_ascii (list_ascii_of_string s).

Definition QUOTE : N := 34.

Fixpoint str_eqb (a b : list N) : bool :=
  match a, b with
  | [], [] => true
  | x :: a', y :: b' => (x =? y)%N && str_eqb a' b'
  | _, _ => false
  end.

(** [hay.startsWith(needle)] *)
Fixpoint starts_with (needle hay : list N) : bool :=
  match needle, hay with
  | [], _ => true
  | _ :: _, [] => false
  | x :: needle', y :: hay' => (x =? y)%N && starts_with needle' hay'
  end.

(** [s.endsWith(needle)] *)
Definition ends_with (needle s : list N) : bool :=
  starts_with (rev needle) (rev s).

(** Some suffix of [hay] satisfies [p]: a regular expression without
    anchors is tried at every position. *)
Fixpoint anywhere (p : list N -> bool) (hay : list N) : bool :=
  p hay || match hay with
           | [] => false
           | _ :: hay' => anywhere p hay'
           end.

(** [hay.includes(needle)] *)
Definition includes (needle hay : list N) : bool :=
  anywhere (starts_with needle) hay.

(** [hay.indexOf(needle, from)] for a [from] within the string; [None] is
    [-1].  [i] is the position of the suffix [hay]. *)
Fixpoint index_loop (needle hay : list N) (i : nat) : option nat :=
  if starts_with needle hay then Some i
  else match hay with
       | [] => None
       | _ :: hay' => index_loop needle hay' (S i)
       end.

Definition indexOf (needle hay : list N) (from : nat) : option nat :=
  index_loop needle (skipn from hay) from.

(** The canonical form the flag [i] compares code units in (without the
    flag [u]): the upper-case letter for [a-z]; a code unit outside ASCII
    is never mapped into ASCII, so it never matches an ASCII pattern. *)
Definition canonical (c : N) : N :=
  if ((97 <=? c) && (c <=? 122))%N then (c - 32)%N else c.

Definition includes_ci (needle hay : list N) : bool :=
  includes (map canonical needle) (map canonical hay).

Definition is_digit (c : N) : bool := ((48 <=? c) && (c <=? 57))%N.

(** [/404|not found|page not found/i.test(html)] *)
Definition mentions_404 (html : list N) : bool :=
  includes_ci (code "404") html
  || includes_ci (code "not found") html
  || includes_ci (code "page not found") html.

(** [/WB\d+/.test(html)]: [W], [B] and at least one digit. *)
Definition mentions_WB (html : list N) : bool :=
  anywhere (fun s => match s with
                     | w :: b :: d :: _ =>
                         (w =? 87)%N && (b =? 66)%N && is_digit d
                     | _ => false
                     end) html.

Definition whisky_attr : list N := code ":whisky=" ++ [QUOTE].
Definition bottle_attr : list N := code ":bottle=" ++ [QUOTE].
Definition current_attr : list N := code " current=" ++ [QUOTE].

(** [is404Page] (lines 228-243 of the file in [unnamed/part_002]). *)
Definition is404Page (html : list N) : bool :=
  let hasWhiskyAttribute :=
    includes whisky_attr html || includes bottle_attr html in
  if negb hasWhiskyAttribute
  then if mentions_404 html || negb (mentions_WB html) then true else false
  else false.

(** *** fetchWhiskyPage and saveRawData (lines 172-223 and 925-934) *)

Record Response : Type := { status : Z; body : list N }.

(** [response.ok] *)
Definition ok (r : Response) : bool := (200 <=? status r) && (status r <=? 299).

(** The world around a scraper.  [disk id] is what reading
    [<rawDataDir>/<id>.html] gives ([None]: [readFile] throws), [writable]
    whether [mkdir] and [writeFile] succeed, [site id] the response to the
    request for [id] with its text read ([None]: [fetch] rejects).
    [requests] and [console] record the requests made and the
    "Failed to save raw data" lines, oldest first.  The rate-limit delay
    only postpones the request. *)
Record World : Type := {
  disk : Z -> option (list N);
  writable : bool;
  site : Z -> option Response;
  requests : list Z;
  console : list Z
}.

Inductive Outcome : Type :=
| Page (html : list N)
| NOT_FOUND
| HttpError (status : Z)
| FetchRejected.

Definition saveRawData (whiskyId : Z) (html : list N) (w : World) : World :=
  if writable w
  then {| disk := fun i => if i =? whiskyId then Some html else disk w i;
          writable := writable w; site := site w;
          requests := requests w; console := console w |}
  else {| disk := disk w; writable := writable w; site := site w;
          requests := requests w; console := console w ++ [whiskyId] |}.

Definition request (whiskyId : Z) (w : World) : World :=
  {| disk := disk w; writable := writable w; site := site w;
     requests := requests w ++ [whiskyId]; console := console w |}.

Definition fetchWhiskyPage (whiskyId : Z) (w : World) : Outcome * World :=
  match disk w whiskyId with
  | Some html =>
      if is404Page html then (NOT_FOUND, w) else (Page html, w)
  | None =>
      let w1 := request whiskyId w in
      match site w whiskyId with
      | None => (FetchRejected, w1)
      | Some r =>
          let w2 := saveRawData whiskyId (body r) w1 in
          if status r =? 404 then (NOT_FOUND, w2)
          else if negb (ok r) then (HttpError (status r), w2)
          else (Page (body r), w2)
      end
  end.

(** Calls of [fetchWhiskyPage] one after the other, as [findMaxWhiskyId]
    makes them. *)
Fixpoint fetch_each (ids : list Z) (w : World) : list Outcome * World :=
  match ids with
  | [] => ([], w)
  | i :: ids' =>
      let '(o, w1) := fetchWhiskyPage i w in
      let '(os, w2) := fetch_each ids' w1 in
      (o :: os, w2)
  end.

(** *** extractJsonData (lines 510-588) *)

(** [for (let i = hi - 1; i >= lo; i--) if (p(i)) return i] *)
Fixpoint last_below (p : nat -> bool) (lo hi : nat) : option nat :=
  match hi with
  | O => None
  | S i =>
      if (lo <=? i)%nat
      then if p i then Some i else last_below p lo i
      else None
  end.

Definition char_is (html : list N) (i : nat) (c : N) : bool :=
  match nth_error html i with
  | Some x => (x =? c)%N
  | None => false
  end.

(** A quote at [i] that does not follow [&quot;] or [&quot]. *)
Definition literal_quote (html : list N) (i : nat) : bool :=
  char_is html i QUOTE
  && (let before := Js.slice (i - 6) i html in
      negb (str_eqb before (code "&quot;"))
      && negb (ends_with (code "&quot") before)).

(** [s.replace(/pat/g, rep)] for a literal, non-empty [pat]: matches are
    taken from left to right and do not overlap.  [skip] counts the code
    units of the current match still to be dropped. *)
Fixpoint replace_loop (pat rep : list N) (skip : nat) (s : list N) : list N :=
  match s with
  | [] => []
  | c :: t =>
      match skip with
      | S k => replace_loop pat rep k t
      | O =>
          if starts_with pat s
          then rep ++ replace_loop pat rep (length pat - 1) t
          else c :: replace_loop pat rep 0 t
      end
  end.

Definition replace_all (pat rep s : list N) : list N := replace_loop pat rep 0 s.

(** The chain of [replace] calls of lines 577-582. *)
Definition unescape (s : list N) : list N :=
  replace_all (code "&amp;") (code "&")
    (replace_all (code "&gt;") (code ">")
       (replace_all (code "&lt;") (code "<")
          (replace_all (code "&#039;") (code "'")
             (replace_all (code "&quot;") [QUOTE] s)))).

(** The start of the attribute: [:whisky=] wins over [:bottle=]
    wherever they are (lines 511-521). *)
Definition attrStart (html : list N) : option nat :=
  match indexOf whisky_attr html 0 with
  | Some i => Some i
  | None => indexOf bottle_attr html 0
  end.

(** Where the search for the closing quote starts (lines 524-534). *)
Definition searchEnd (html : list N) (valueStart : nat) : nat :=
  match indexOf current_attr html valueStart,
        indexOf (code ">") html valueStart with
  | Some nextAttr, Some nextGt => Nat.min nextAttr nextGt
  | Some nextAttr, None => nextAttr
  | None, Some nextGt => nextGt
  | None, None => length html
  end.

(** The two backward loops of lines 537-564: the last literal quote that
    follows a closing brace, else the last literal quote. *)
Definition valueEnd (html : list N) (valueStart searchEnd : nat) : option nat :=
  match last_below
          (fun i => literal_quote html i
                    && (0 <? i)%nat && char_is html (i - 1) 125)
          (valueStart + 1) searchEnd with
  | Some i => Some i
  | None => last_below (literal_quote html) valueStart searchEnd
  end.

Section Parsing.

(** [J]: a truthy result of [JSON.parse]; [parse] is [None] when
    [JSON.parse] throws or gives a falsy value (both end as "no data").
    [P]: the fields of a scraped record other than its ID; [fields] stands
    for lines 262-503, which build them and may throw. *)
Context {J P : Type}.
Variable parse : list N -> option J.
Variable fields : J -> list N -> Z -> option P.

Definition extractJsonData (html : list N) : option J :=
  match attrStart html with
  | None => None
  | Some attrStart =>
      let valueStart := (attrStart + 9)%nat in
      match valueEnd html valueStart (searchEnd html valueStart) with
      | None => None
      | Some valueEnd =>
          match Js.slice valueStart valueEnd html with
          | [] => None
          | jsonStrEscaped => parse (unescape jsonStrEscaped)
          end
      end
  end.

(** A scraped record: [id] is always the ID asked for (line 481). *)
Record Whisky : Type := { id : Z; data : P }.

(** [parseWhiskyPage] (lines 248-503) and [scrapeWhisky] (939-952), with
    the outcomes the worker of [scrape.ts] tells apart. *)
Definition parseWhiskyPage (html : list N) (whiskyId : Z) : Pool.Scraped Whisky :=
  match extractJsonData html with
  | None => if is404Page html then Pool.NotFound else Pool.NoData
  | Some jsonData =>
      match fields jsonData html whiskyId with
      | Some p => Pool.Data {| id := whiskyId; data := p |}
      | None => Pool.Failed
      end
  end.

Definition scrapeWhisky (whiskyId : Z) (w : World) : Pool.Scraped Whisky * World :=
  let '(o, w1) := fetchWhiskyPage whiskyId w in
  match o with
  | Page html => (parseWhiskyPage html whiskyId, w1)
  | NOT_FOUND => (Pool.NotFound, w1)
  | HttpError _ | FetchRejected => (Pool.Failed, w1)
  end.

End Parsing.

(** What the site does to a JSON text before it puts it in the attribute
    (PHP's [htmlspecialchars] with [ENT_QUOTES]). *)
Definition escape_char (c : N) : list N :=
  if (c =? 38)%N then code "&amp;"
  else if (c =? 34)%N then code "&quot;"
  else if (c =? 39)%N then code "&#039;"
  else if (c =? 60)%N then code "&lt;"
  else if (c =? 62)%N then code "&gt;"
  else [c].

Definition escape (s : list N) : list N := flat_map escape_char s.

(** A token of an escaped text that holds no match of [pat] and lets none
    begin: no [&] after its first code unit, and no match at its start
    whatever follows. *)
Definition inert (pat t : list N) : Prop :=
  match t with
  | [] => False
  | x :: r =>
      Forall (fun y => y <> 38%N) r
      /\ forall rest, starts_with pat (x :: r ++ rest) = false
  end.

(** The escaped text after the replacements for the code units in [done]. *)
Definition partly (done : list N) (c : N) : list N :=
  if existsb (N.eqb c) done then [c] else escape_char c.

End Scraper.

(** ** A site that answers every request with the same error page *)

Module ScraperExamples.
Import Scraper.

Definition down : World :=
  {| disk := fun _ => None; writable := true;
     site := fun _ => Some {| status := 500; body := code "WB1 try again later" |};
     requests := []; console := [] |}.

End ScraperExamples.

(** ** scrape: the pool fed by scrapeWhisky *)

Module Run.
Import Detector Pool Scan Scraper.
Section WithParser.

Context {J P : Type}.
Variable parse : list N -> option J.
Variable fields : J -> list N -> Z -> option P.


End WithParser.



End Run.

(** ** saveWhiskyDataBatch: the pricing and rating tables (lines 286-378) *)

Module Persist.
Section WithPart.

(** [D] is [WhiskyData]; [key data] is [data.whisky.id] and [part data]
    is [data.pricing] (lines 300-341) or [data.rating] (lines 343-378),
    with [X] the columns built from it.  A table is the list of its rows,
    each with its [whiskyId].  [merge old new] is the row an [UPDATE ...
    SET new] leaves: a column that is [undefined] in [new] is not set. *)
Context {D X : Type}.
Variable key : D -> Z.
Variable part : D -> option X.
Variable merge : X -> X -> X.

Definition Table : Type := list (Z * X).

(** [existingIds.has(id)] *)
Definition has (ids : list Z) (i : Z) : bool := existsb (Z.eqb i) ids.

(** [db.select().from(table).where(inArray(table.whiskyId, whiskyIds))] *)
Definition select_in (whiskyIds : list Z) (t : Table) : Table :=
  filter (fun row => has whiskyIds (fst row)) t.

(** The [for (const data of batch)] loop: the rows to update and the
    rows to insert, each in batch order. *)
Fixpoint split (existingIds : list Z) (batch : list D) : Table * Table :=
  match batch with
  | [] => ([], [])
  | data :: rest =>
      let '(toUpdate, toInsert) := split existingIds rest in
      match part data with
      | None => (toUpdate, toInsert)
      | Some x =>
          if has existingIds (key data)
          then ((key data, x) :: toUpdate, toInsert)
          else (toUpdate, (key data, x) :: toInsert)
      end
  end.

(** [tx.update(table).set(row).where(eq(table.whiskyId, row.whiskyId))] *)
Definition update_row (row : Z * X) (t : Table) : Table :=
  map (fun r => if fst r =? fst row then (fst r, merge (snd r) (snd row)) else r) t.

(** One of the two halves of lines 286-378, every statement succeeding:
    the rows of the batch that the table already has are updated one by
    one, the others are inserted together. *)
Definition save_part (batch : list D) (t : Table) : Table :=
  let whiskyIds := map key batch in
  let existingIds := map fst (select_in whiskyIds t) in
  let '(toUpdate, toInsert) := split existingIds batch in
  fold_left (fun t row => update_row row t) toUpdate t ++ toInsert.

End WithPart.
End Persist.

(** ** The command line of [scrape.ts] (lines 880-901) *)

Module Cli.

(** What [parseInt(text, 10)] gives: a number or [NaN]. *)
Inductive Num : Type := NaN | Int (z : Z).

(** The [options] object: a field that was never assigned is [None]
    ([dryRun]: [false]). *)
Record Parsed : Type := {
  startId : option Num;
  maxId : option Num;
  dryRun : bool
}.

Definition no_options : Parsed :=
  {| startId := None; maxId := None; dryRun := false |}.

(** Truthiness of [args[i + 1]]: defined and not the empty string. *)
Definition truthy (a : option string) : bool :=
  match a with
  | Some (String _ _) => true
  | Some EmptyString | None => false
  end.

Section WithParseInt.

Variable parseInt : string -> Num.

(** The [for] loop; [skip] tells that the previous iteration ended with
    [i++] and this argument is stepped over. *)
Fixpoint loop (skip : bool) (args : list string) (o : Parsed) : Parsed :=
  match args with
  | [] => o
  | arg :: rest =>
      if skip then loop false rest o
      else if (arg =? "--start-id")%string && truthy (hd_error rest)
      then loop true rest
             {| startId := option_map parseInt (hd_error rest);
                maxId := maxId o; dryRun := dryRun o |}
      else if (arg =? "--max-id")%string && truthy (hd_error rest)
      then loop true rest
             {| startId := startId o;
                maxId := option_map parseInt (hd_error rest);
                dryRun := dryRun o |}
      else if (arg =? "--dry-run")%string
      then loop false rest
             {| startId := startId o; maxId := maxId o; dryRun := true |}
      else loop false rest o
  end.

Definition parse_args (args : list string) : Parsed := loop false args no_options.

(** A command line written as intended: flags with their values, in any
    order, and other words. *)
Inductive Item : Type :=
| StartId (value : string)
| MaxId (value : string)
| DryRun
| Other (word : string).

Definition words (it : Item) : list string :=
  match it with
  | StartId v => ["--start-id"; v]
  | MaxId v => ["--max-id"; v]
  | DryRun => ["--dry-run"]
  | Other w => [w]
  end%string.

Definition well_formed (it : Item) : Prop :=
  match it with
  | StartId v | MaxId v => v <> EmptyString
  | DryRun => True
  | Other w =>
      w <> "--start-id"%string /\ w <> "--max-id"%string
      /\ w <> "--dry-run"%string
  end.

(** What an item means: the last [--start-id] and the last [--max-id]
    win. *)
Definition apply_item (o : Parsed) (it : Item) : Parsed :=
  match it with
  | StartId v =>
      {| startId := Some (parseInt v); maxId := maxId o; dryRun := dryRun o |}
  | MaxId v =>
      {| startId := startId o; maxId := Some (parseInt v); dryRun := dryRun o |}
  | DryRun => {| startId := startId o; maxId := maxId o; dryRun := true |}
  | Other _ => o
  end.

End WithParseInt.
End Cli.

(* ===================================================================== *)
(** * Part II: properties                                                 *)
(* ===================================================================== *)


(** ** Arrays *)

Section JsFacts.
Context {A : Type}.

Lemma push_shift_length (cap : nat) (arr : list A) (x : A) :
  (length arr <= cap)%nat -> (length (Js.push_shift cap arr x) <= cap)%nat.
Proof.
  intros H. unfold Js.push_shift.
  destruct (Nat.ltb_spec cap (length (arr ++ [x]))) as [Hlt | Hge]; [|exact Hge].
  rewrite length_app in Hlt. simpl in Hlt.
  destruct arr as [|a arr]; simpl in *; [lia|].
  rewrite length_app. simpl. lia.
Qed.

Lemma push_shift_room (cap : nat) (arr : list A) (x : A) :
  (length arr < cap)%nat -> Js.push_shift cap arr x = arr ++ [x].
Proof.
  intros H. unfold Js.push_shift.
  destruct (Nat.ltb_spec cap (length (arr ++ [x]))) as [Hlt | Hge]; [|reflexivity].
  rewrite length_app in Hlt. simpl in Hlt. lia.
Qed.

Lemma push_shift_full (cap : nat) (arr : list A) (x : A) :
  (cap <= length arr)%nat -> Js.push_shift cap arr x = tl (arr ++ [x]).
Proof.
  intros H. unfold Js.push_shift.
  destruct (Nat.ltb_spec cap (length (arr ++ [x]))) as [Hlt | Hge]; [reflexivity|].
  rewrite length_app in Hge. simpl in Hge. lia.
Qed.

Lemma push_shift_length_ge (cap n : nat) (arr : list A) (x : A) :
  (n <= cap)%nat -> (n <= S (length arr))%nat ->
  (n <= length (Js.push_shift cap arr x))%nat.
Proof.
  intros Hn Hl. unfold Js.push_shift.
  destruct (Nat.ltb_spec cap (length (arr ++ [x]))) as [Hlt | Hge].
  - rewrite length_app in Hlt. simpl in Hlt.
    destruct arr as [|a arr]; simpl in *; [lia|].
    rewrite length_app. simpl. lia.
  - rewrite length_app. simpl. lia.
Qed.

Lemma slice_last_length (n : nat) (arr : list A) :
  (0 < n)%nat -> (length (Js.slice_last n arr) <= n)%nat.
Proof.
  intros Hn. destruct n as [|n]; [lia|].
  unfold Js.slice_last. rewrite length_skipn. lia.
Qed.

Lemma slice_last_split (n : nat) (arr : list A) :
  exists dropped, arr = dropped ++ Js.slice_last n arr.
Proof.
  destruct n as [|n].
  - exists []. reflexivity.
  - exists (firstn (length arr - S n) arr). simpl.
    symmetry. apply firstn_skipn.
Qed.

End JsFacts.

(** Pushing commutes with forgetting what the entries carry besides the
    404 flag: a window of flags is the image of the window of probed IDs
    and flags. *)
Lemma push_shift_map {A B : Type} (f : A -> B) (cap : nat) (arr : list A) (x : A) :
  map f (Js.push_shift cap arr x) = Js.push_shift cap (map f arr) (f x).
Proof.
  unfold Js.push_shift. rewrite !length_app, length_map. simpl.
  destruct (cap <? length arr + 1)%nat.
  - destruct arr as [|a arr]; simpl; [reflexivity|]. now rewrite map_app.
  - now rewrite map_app.
Qed.

(** ** The live scan's stopping condition *)

Section DetectorFacts.
Import Detector.

Lemma insert_perm (r : Result) (l : list Result) :
  Permutation (r :: l) (insert r l).
Proof.
  induction l as [|x t IH]; simpl; [reflexivity|].
  destruct (id r <=? id x); [reflexivity|].
  rewrite perm_swap. constructor. exact IH.
Qed.

Lemma sort_perm (l : list Result) : Permutation l (sort l).
Proof.
  induction l as [|r t IH]; simpl; [constructor|].
  rewrite <- insert_perm. constructor. exact IH.
Qed.

Lemma sort_length (l : list Result) : length (sort l) = length l.
Proof. symmetry. apply Permutation_length, sort_perm. Qed.

Lemma insert_sorted (r : Result) (l : list Result) :
  StronglySorted le_id l -> StronglySorted le_id (insert r l).
Proof.
  induction 1 as [|x t Hs IH Hall]; simpl.
  - repeat constructor.
  - destruct (Z.leb_spec (id r) (id x)) as [Hle | Hgt].
    + constructor; [constructor; assumption|].
      constructor; [exact Hle|].
      eapply Forall_impl; [|exact Hall].
      unfold le_id. intros a Ha. lia.
    + constructor; [exact IH|].
      eapply Permutation_Forall; [apply insert_perm|].
      constructor; [unfold le_id; lia | exact Hall].
Qed.

Lemma sort_sorted (l : list Result) : StronglySorted le_id (sort l).
Proof.
  induction l as [|r t IH]; simpl; [constructor|].
  apply insert_sorted, IH.
Qed.



Lemma sorted_app_le (a b : list Result) :
  StronglySorted le_id (a ++ b) ->
  forall x y, In x a -> In y b -> id x <= id y.
Proof.
  induction a as [|h t IH]; simpl; intros Hs x y Hx Hy; [contradiction|].
  inversion Hs as [|? ? Hs' Hall]; subst.
  destruct Hx as [-> | Hx].
  - rewrite Forall_forall in Hall. apply Hall, in_or_app. now right.
  - eapply IH; eassumption.
Qed.

Lemma should_stop_spec (c : Criteria) (results : list Result) :
  should_stop c results = true <->
  (windowSize c <= length results)%nat
  /\ (minConsecutive404s c <= consecutive404s (recentResults c results))%nat
  /\ Js.ge (recent404Rate (recentResults c results)) (min404Rate c) = true.
Proof.
  unfold should_stop, criteria_met.
  destruct (Nat.leb_spec (windowSize c) (length results)) as [Hw | Hw].
  - rewrite andb_true_iff, Nat.leb_le. tauto.
  - split; [discriminate|]. intros [H _]. lia.
Qed.


End DetectorFacts.

(** ** Claims on the stopping condition and the windows *)

Section WindowClaims.
Import Detector.

(** C5 (as amended).  The live scan stops exactly when the log holds at
    least [windowSize] outcomes, the window (the [windowSize] highest IDs)
    ends in at least [minConsecutive404s] 404s and the share of 404s in the
    window is at least [min404Rate].  With 3, 5 and 0.6 and the outcomes
    Found, Found, NotFound, NotFound, NotFound for IDs 1..5 the trailing
    count is 3, the rate 3/5, and the scan stops. *)
Theorem C5_should_stop_iff :
  (forall (c : Criteria) (results : list Result),
      should_stop c results = true <->
      (windowSize c <= length results)%nat
      /\ (minConsecutive404s c <= consecutive404s (recentResults c results))%nat
      /\ Js.ge (recent404Rate (recentResults c results)) (min404Rate c) = true)
  /\ (let results :=
        [ {| id := 1; is404 := false |}; {| id := 2; is404 := false |};
          {| id := 3; is404 := true |}; {| id := 4; is404 := true |};
          {| id := 5; is404 := true |} ] in
      consecutive404s (recentResults example_criteria results) = 3%nat
      /\ recent404Rate (recentResults example_criteria results) = Js.RNum (3 # 5)
      /\ should_stop example_criteria results = true).
Proof.
  split; [exact should_stop_spec|].
  cbv zeta. repeat split; reflexivity.
Qed.

(** C5 as stated fails on a log shorter than the window: three 404s for
    IDs 1..3 give a trailing count of 3 and a rate of 1, yet the scan does
    not stop because fewer than [windowSize = 5] outcomes are logged. *)
Lemma C5_counterexample :
  ~ (forall (c : Criteria) (results : list Result),
        should_stop c results = true <->
        (minConsecutive404s c <= consecutive404s (recentResults c results))%nat
        /\ Js.ge (recent404Rate (recentResults c results)) (min404Rate c) = true).
Proof.
  intros H.
  specialize (H example_criteria
                [ {| id := 1; is404 := true |}; {| id := 2; is404 := true |};
                  {| id := 3; is404 := true |} ]).
  destruct H as [_ H].
  assert (Hf : should_stop example_criteria
                 [ {| id := 1; is404 := true |}; {| id := 2; is404 := true |};
                   {| id := 3; is404 := true |} ] = false) by reflexivity.
  rewrite H in Hf; [discriminate|].
  split; [vm_compute; lia | reflexivity].
Qed.

(** C8 (as amended).  Every window holds at most [windowSize] entries
    after each insertion.  In [findMaxWhiskyId] an insertion into a full
    window evicts the entry pushed first.  In the live scan the window is
    cut from the log sorted by ID, so what it leaves out has the lowest
    IDs. *)
Theorem C8_window_bounded (c : Criteria) (t : Finder.Track) (p : Finder.Probe)
    (results : list Result) :
  (0 < windowSize c)%nat ->
  (length (Finder.window t) <= windowSize c)%nat ->
  (length (Finder.window (Finder.record c t p)) <= windowSize c)%nat
  /\ (length (Finder.window t) = windowSize c ->
      exists b, Finder.window (Finder.record c t p)
                = tl (Finder.window t) ++ [b])
  /\ (length (recentResults c results) <= windowSize c)%nat
  /\ (exists dropped,
         sort results = dropped ++ recentResults c results
         /\ forall d k, In d dropped -> In k (recentResults c results) ->
                        id d <= id k).
Proof.
  intros Hpos Hlen. repeat split.
  - destruct p; simpl; apply push_shift_length; exact Hlen.
  - intros Hfull.
    assert (Hne : Finder.window t <> []).
    { intros E. rewrite E in Hfull. simpl in Hfull. lia. }
    destruct p; simpl; eexists; rewrite push_shift_full by lia;
      destruct (Finder.window t); try congruence; reflexivity.
  - apply slice_last_length, Hpos.
  - unfold recentResults.
    destruct (slice_last_split (windowSize c) (sort results)) as [dropped Hd].
    exists dropped. split; [exact Hd|].
    intros d k Hin Hik. eapply sorted_app_le; try eassumption.
    rewrite <- Hd. apply sort_sorted.
Qed.

Lemma C8_window_bounded_witness :
  (length (Finder.window
             (Finder.record example_criteria
                {| Finder.consecutive := 0;
                   Finder.window := [false; false; true; false; true] |}
                Finder.NotFound)) <= 5)%nat
  /\ (exists b, Finder.window
                  (Finder.record example_criteria
                     {| Finder.consecutive := 0;
                        Finder.window := [false; false; true; false; true] |}
                     Finder.NotFound)
                = [false; true; false; true] ++ [b]).
Proof.
  destruct (C8_window_bounded example_criteria
              {| Finder.consecutive := 0;
                 Finder.window := [false; false; true; false; true] |}
              Finder.NotFound [])
    as (H1 & H2 & _).
  - simpl. lia.
  - simpl. lia.
  - split; [exact H1 | apply H2; reflexivity].
Defined.

(** C8 as stated fails for the windows of [findMaxWhiskyId]: with the
    probed IDs kept next to the flags, pushing ID 6 into the full window
    of IDs 8 and 4 evicts ID 8, the first pushed, and keeps the lower
    ID 4. *)
Lemma C8_counterexample :
  ~ (forall (cap : nat) (arr : list (Z * bool)) (x : Z * bool),
        length arr = cap ->
        forall kept, In kept (Js.push_shift cap arr x) ->
                     fst (hd x arr) <= fst kept).
Proof.
  intros H.
  specialize (H 2%nat [(8, true); (4, false)] (6, true) eq_refl (4, false)).
  simpl in H. assert (8 <= 4) by (apply H; left; reflexivity). lia.
Qed.

End WindowClaims.

(** ** BatchBuffer *)

Section BufferFacts.
Import Buffer.
Context {R : Type}.
Implicit Types (s : Buffer.State R) (es : list (Buffer.Event R)).

(** *** Chunking *)

Lemma chunk_loop_concat (fuel i : nat) (b : list R) :
  (length b - i <= fuel)%nat -> concat (chunk_loop fuel i b) = skipn i b.
Proof.
  revert i. induction fuel as [|fuel IH]; intros i Hf; simpl.
  - symmetry. apply skipn_all2. lia.
  - destruct (Nat.ltb_spec i (length b)) as [Hlt | Hge].
    + simpl. rewrite IH by (unfold CHUNK_SIZE; lia).
      unfold Js.slice.
      replace (i + CHUNK_SIZE - i)%nat with CHUNK_SIZE by lia.
      rewrite (Nat.add_comm i CHUNK_SIZE), <- skipn_skipn.
      apply firstn_skipn.
    + symmetry. apply skipn_all2. exact Hge.
Qed.

Lemma chunk_loop_bound (fuel i : nat) (b : list R) :
  Forall (fun ch => (length ch <= CHUNK_SIZE)%nat) (chunk_loop fuel i b).
Proof.
  revert i. induction fuel as [|fuel IH]; intros i; simpl; [constructor|].
  destruct (i <? length b)%nat; [|constructor].
  constructor; [|apply IH].
  unfold Js.slice. rewrite length_firstn. lia.
Qed.

Lemma db_chunks_concat (b : list R) : concat (db_chunks b) = b.
Proof.
  unfold db_chunks. destruct b as [|x b]; [reflexivity|].
  destruct (CHUNK_SIZE <? length (x :: b))%nat.
  - rewrite chunk_loop_concat by lia. reflexivity.
  - simpl. now rewrite app_nil_r.
Qed.

Lemma db_chunks_bound (b : list R) :
  Forall (fun ch => (length ch <= CHUNK_SIZE)%nat) (db_chunks b).
Proof.
  unfold db_chunks. destruct b as [|x b]; [constructor|].
  destruct (Nat.ltb_spec CHUNK_SIZE (length (x :: b))).
  - apply chunk_loop_bound.
  - constructor; [assumption | constructor].
Qed.

Lemma db_chunks_small (b : list R) :
  b <> [] -> (length b <= CHUNK_SIZE)%nat -> db_chunks b = [b].
Proof.
  intros Hne Hle. unfold db_chunks. destruct b as [|x b]; [congruence|].
  destruct (Nat.ltb_spec CHUNK_SIZE (length (x :: b))); [lia | reflexivity].
Qed.

(** *** What holds while producers, timer and flushes interleave *)

Lemma consistent_new (B : nat) : consistent [] (new (R := R) B).
Proof. repeat split. Qed.

Lemma flush_consistent (o : Origin) (h : list R) s :
  flushPromise s = None -> consistent h s -> consistent h (flush o s).
Proof.
  intros Hn (Hf & Hw & Hh). unfold flush. rewrite Hn.
  destruct (buffer s) as [|x b] eqn:Hb; [repeat split; try assumption; now rewrite Hb|].
  repeat split; simpl; [exact Hw|].
  rewrite concat_app. simpl. rewrite !app_nil_r. exact Hh.
Qed.

Lemma add_consistent (data : R) (h : list R) s :
  consistent h s -> consistent (h ++ [data]) (add data s).
Proof.
  intros (Hf & Hw & Hh). unfold add.
  match goal with |- consistent _ (if ?b then flush _ ?s1 else _) =>
    assert (Hc : consistent (h ++ [data]) s1)
  end.
  { repeat split; simpl; try assumption. now rewrite app_assoc, Hh. }
  match goal with |- consistent _ (if ?b then _ else _) => destruct b eqn:Hb end;
    [|exact Hc].
  apply flush_consistent; [|exact Hc].
  simpl. apply andb_true_iff in Hb. destruct Hb as [_ Hb]. simpl in Hb.
  rewrite Hf in Hb. destruct (flushPromise s); [discriminate | reflexivity].
Qed.

Lemma tick_consistent (h : list R) s : consistent h s -> consistent h (tick s).
Proof.
  intros Hc. unfold tick. destruct (flushInterval s); [|exact Hc].
  destruct (_ && _) eqn:Hb; [|exact Hc].
  apply flush_consistent; [|exact Hc].
  apply andb_true_iff in Hb. destruct Hb as [_ Hb].
  destruct Hc as (Hf & _). rewrite Hf in Hb.
  destruct (flushPromise s); [discriminate | reflexivity].
Qed.

Lemma settle_consistent (watch : list string) (f : Fault) (h : list R) s :
  consistent h s ->
  consistent h (fst (settle watch f s))
  /\ flushPromise (fst (settle watch f s)) = None
  /\ buffer (fst (settle watch f s)) = buffer s.
Proof.
  intros Hc. unfold settle. destruct (flushPromise s) as [p|] eqn:Hp.
  - destruct Hc as (Hf & Hw & Hh). rewrite Hw.
    destruct (saveWhiskyDataBatch (batch p) f) as [written ok]. destruct ok; simpl;
      repeat split; assumption.
  - simpl. repeat split; try apply Hc; assumption.
Qed.

Lemma step_consistent (e : Buffer.Event R) (h : list R) s :
  consistent h s -> consistent (h ++ added [e]) (step s e).
Proof.
  intros Hc. destruct e as [data| |f|]; simpl; rewrite ?app_nil_r.
  - apply add_consistent, Hc.
  - apply tick_consistent, Hc.
  - apply settle_consistent, Hc.
  - exact Hc.
Qed.

Lemma added_app es1 es2 : added (es1 ++ es2) = added es1 ++ added es2.
Proof. unfold added. apply flat_map_app. Qed.

Lemma run_consistent es (h : list R) s :
  consistent h s -> consistent (h ++ added es) (run es s).
Proof.
  revert h s. induction es as [|e es IH]; intros h s Hc.
  - simpl. now rewrite app_nil_r.
  - change (added (e :: es)) with (added ([e] ++ es)).
    rewrite added_app, app_assoc.
    change (run (e :: es) s) with (run es (step s e)).
    apply IH, step_consistent, Hc.
Qed.

End BufferFacts.

Section DrainFacts.
Import Buffer.
Context {R : Type}.
Implicit Types (s : Buffer.State R) (es : list (Buffer.Event R)).

Lemma flush_delivered (o : Origin) (h : list R) s :
  flushPromise s = None -> delivered h s -> delivered h (flush o s).
Proof.
  unfold delivered, in_flight, flush. intros Hn Hd. rewrite Hn in *.
  destruct (buffer s) as [|x b] eqn:Hb; [now rewrite Hn, Hb|].
  simpl in *. now rewrite app_nil_r.
Qed.

Lemma step_delivered (e : Buffer.Event R) (h0 h : list R) s :
  (forall f, e = Settle f -> f = None) ->
  consistent h0 s -> delivered h s -> delivered (h ++ added [e]) (step s e).
Proof.
  intros Hff (Hf & Hw & _) Hd.
  assert (Hfl : flushing s = false -> flushPromise s = None).
  { rewrite Hf. destruct (flushPromise s); [discriminate | reflexivity]. }
  destruct e as [data| |f|]; simpl; rewrite ?app_nil_r.
  - unfold add.
    match goal with |- delivered _ (if ?b then flush _ ?s1 else _) =>
      assert (Hc : delivered (h ++ [data]) s1)
    end.
    { unfold delivered, in_flight in *. simpl. now rewrite !app_assoc, <- (app_assoc _ _ (buffer s)), Hd. }
    match goal with |- delivered _ (if ?b then _ else _) => destruct b eqn:Hb end;
      [|exact Hc].
    apply flush_delivered; [|exact Hc].
    simpl. apply andb_true_iff in Hb. destruct Hb as [_ Hb]. simpl in Hb.
    apply Hfl. now destruct (flushing s).
  - unfold tick. destruct (flushInterval s); [|exact Hd].
    destruct (_ && _) eqn:Hb; [|exact Hd].
    apply flush_delivered; [|exact Hd].
    apply andb_true_iff in Hb. destruct Hb as [_ Hb].
    apply Hfl. now destruct (flushing s).
  - rewrite (Hff f eq_refl). unfold settle.
    destruct (flushPromise s) as [p|] eqn:Hp; [|exact Hd].
    unfold saveWhiskyDataBatch. rewrite Hw. simpl.
    unfold delivered, in_flight in *. rewrite Hp in Hd. simpl.
    now rewrite concat_app, db_chunks_concat, <- app_assoc.
  - exact Hd.
Qed.

Lemma run_delivered es (h0 h : list R) s :
  fault_free es ->
  consistent h0 s -> delivered h s -> delivered (h ++ added es) (run es s).
Proof.
  revert h0 h s. induction es as [|e es IH]; intros h0 h s Hff Hc Hd.
  - simpl. unfold delivered in *. now rewrite app_nil_r.
  - change (added (e :: es)) with (added ([e] ++ es)).
    rewrite added_app, app_assoc.
    change (run (e :: es) s) with (run es (step s e)).
    eapply IH.
    + intros f Hin. apply Hff. now right.
    + apply step_consistent, Hc.
    + eapply step_delivered; try eassumption.
      intros f ->. apply Hff. now left.
Qed.

(** *** The drain *)

Lemma flush_keeps_empty (o : Origin) s :
  buffer s = [] -> buffer (flush o s) = [].
Proof.
  intros Hb. unfold flush. destruct (flushPromise s); [exact Hb|].
  now rewrite Hb.
Qed.

Lemma flush_flushInterval (o : Origin) s :
  flushInterval (flush o s) = flushInterval s.
Proof.
  unfold flush. destruct (flushPromise s); [reflexivity|].
  now destruct (buffer s).
Qed.

Lemma resume_waiters_flushInterval (ws : list Origin) s :
  flushInterval (resume_waiters ws s) = flushInterval s.
Proof.
  revert s. induction ws as [|o ws IH]; intros s; simpl; [reflexivity|].
  rewrite IH. destruct (_ <=? _)%nat; [apply flush_flushInterval | reflexivity].
Qed.

Lemma flush_drainable (o : Origin) s : drainable s -> drainable (flush o s).
Proof.
  unfold drainable, flush. intros [Hb | Hn].
  - destruct (flushPromise s); [now left|]. rewrite Hb. now left.
  - rewrite Hn. destruct (buffer s) eqn:Hb; [now right | now left].
Qed.

Lemma resume_waiters_drainable (ws : list Origin) s :
  drainable s -> drainable (resume_waiters ws s).
Proof.
  revert s. induction ws as [|o ws IH]; intros s Hd; simpl; [exact Hd|].
  apply IH. destruct (_ <=? _)%nat; [apply flush_drainable|]; exact Hd.
Qed.

Lemma resume_waiters_keeps_empty (ws : list Origin) s :
  buffer s = [] -> buffer (resume_waiters ws s) = [].
Proof.
  revert s. induction ws as [|o ws IH]; intros s Hb; simpl; [exact Hb|].
  apply IH. destruct (_ <=? _)%nat; [apply flush_keeps_empty|]; exact Hb.
Qed.

Lemma settle_drainable (watch : list string) (f : Fault) s :
  drainable (fst (settle watch f s))
  /\ flushInterval (fst (settle watch f s)) = flushInterval s
  /\ (buffer s = [] -> buffer (fst (settle watch f s)) = []).
Proof.
  unfold settle. destruct (flushPromise s) as [p|] eqn:Hp.
  - destruct (saveWhiskyDataBatch (batch p) f) as [written ok]. destruct ok; simpl.
    + repeat split.
      * apply resume_waiters_drainable. now right.
      * now rewrite resume_waiters_flushInterval.
      * intros Hb. now apply resume_waiters_keeps_empty.
    + repeat split; [now right | auto].
  - simpl. repeat split; [now right | auto].
Qed.

Lemma drain_terminates (fuel : nat) (fs : list Fault) s :
  (1 <= fuel)%nat -> drainable s ->
  exists s', drain fuel fs s = Some s'
             /\ buffer s' = []
             /\ flushInterval s' = flushInterval s.
Proof.
  intros Hfuel Hd. destruct fuel as [|fuel]; [lia|].
  unfold drain; fold (drain (R := R)).
  destruct (buffer s) as [|x b] eqn:Hb.
  - exists s. auto.
  - destruct Hd as [Hd | Hn]; [congruence|].
    unfold flush_await. rewrite Hn, Hb.
    destruct (settle [] (hd None fs) (flush ByDrain s)) as [s1 ok] eqn:Hs.
    assert (Hs1 : s1 = fst (settle [] (hd None fs) (flush ByDrain s)))
      by now rewrite Hs.
    destruct (settle_drainable [] (hd None fs) (flush ByDrain s))
      as (_ & Hfi & Hemp).
    rewrite <- Hs1, flush_flushInterval in Hfi.
    assert (He : buffer s1 = []).
    { rewrite Hs1. apply Hemp. unfold flush. now rewrite Hn, Hb. }
    destruct ok.
    + exists s1. split; [|auto].
      destruct fuel; simpl; now rewrite He.
    + eexists. split; [reflexivity|]. simpl. auto.
Qed.

Lemma flushAll_terminates (fuel : nat) (fs : list Fault) s :
  (1 <= fuel)%nat ->
  exists s', flushAll fuel fs s = Some s'
             /\ buffer s' = []
             /\ flushInterval s' = false.
Proof.
  intros Hfuel. unfold flushAll.
  destruct (flushPromise (stopAutoFlush s)) as [p|] eqn:Hp.
  - destruct (settle _ (hd None fs) (stopAutoFlush s)) as [s1 ok] eqn:Hs.
    destruct (settle_drainable ["Error during final flush:"%string]
                (hd None fs) (stopAutoFlush s)) as (Hd & Hfi & _).
    rewrite Hs in Hd, Hfi. simpl in Hd, Hfi.
    destruct (drain_terminates fuel (tl fs) s1 Hfuel Hd) as (s' & H1 & H2 & H3).
    exists s'. repeat split; try assumption. now rewrite H3.
  - destruct (drain_terminates fuel fs (stopAutoFlush s) Hfuel) as (s' & H1 & H2 & H3).
    + now right.
    + exists s'. repeat split; assumption.
Qed.

End DrainFacts.

Section FlushAllFacts.
Import Buffer.
Context {R : Type}.
Implicit Types (s : Buffer.State R) (es : list (Buffer.Event R)).

Lemma no_fault_hd (fs : list Fault) : no_fault fs -> hd None fs = None.
Proof. destruct fs as [|f fs]; [reflexivity|]. intros H. apply H. now left. Qed.

Lemma no_fault_tl (fs : list Fault) : no_fault fs -> no_fault (tl fs).
Proof. destruct fs as [|f fs]; [auto|]. intros H g Hg. apply H. now right. Qed.

Lemma save_nil (f : Fault) : saveWhiskyDataBatch (R := R) [] f = ([], true).
Proof. unfold saveWhiskyDataBatch. simpl. now destruct f. Qed.

(** The drain from a state with nothing in flight and nobody waiting: at
    most one more call of [saveWhiskyDataBatch], on the whole buffer. *)
Lemma drain_idle (fuel : nat) (fs : list Fault) s :
  (1 <= fuel)%nat -> flushPromise s = None -> waiters s = [] ->
  exists s',
    drain fuel fs s = Some s'
    /\ buffer s' = [] /\ flushPromise s' = None /\ waiters s' = []
    /\ saveCalls s' = saveCalls s
                      ++ match buffer s with [] => [] | _ :: _ => [buffer s] end
    /\ stored s' = stored s ++ fst (saveWhiskyDataBatch (buffer s) (hd None fs))
    /\ console s' = console s
                    ++ (if snd (saveWhiskyDataBatch (buffer s) (hd None fs)) then []
                        else [catch_line ByDrain]).
Proof.
  intros Hfuel Hn Hw. destruct fuel as [|fuel]; [lia|].
  unfold drain; fold (drain (R := R)).
  destruct (buffer s) as [|x b] eqn:Hb.
  - exists s. rewrite save_nil. simpl. rewrite !app_nil_r. auto 10.
  - unfold flush_await, flush. rewrite Hn, Hb. unfold settle. simpl.
    rewrite Hw.
    destruct (saveWhiskyDataBatch (x :: b) (hd None fs)) as [written ok]. destruct ok; simpl.
    + eexists. split; [destruct fuel; reflexivity|]. simpl.
      rewrite app_nil_r. auto 10.
    + eexists. split; [reflexivity|]. simpl.
      rewrite app_nil_r. auto 10.
Qed.

Lemma settle_idle (watch : list string) (f : Fault) (p : InFlight) s :
  flushPromise s = Some p -> waiters s = [] ->
  exists s1 ok,
    settle watch f s = (s1, ok)
    /\ flushPromise s1 = None /\ waiters s1 = []
    /\ buffer s1 = buffer s /\ saveCalls s1 = saveCalls s
    /\ stored s1 = stored s ++ fst (saveWhiskyDataBatch (batch p) f).
Proof.
  intros Hp Hw. unfold settle. rewrite Hp, Hw.
  destruct (saveWhiskyDataBatch (batch p) f) as [written ok]. destruct ok; simpl;
    do 2 eexists; (split; [reflexivity|]); simpl; auto.
Qed.

Lemma flushAll_consistent (fuel : nat) (fs : list Fault) (h : list R) s :
  (1 <= fuel)%nat -> consistent h s ->
  exists s',
    flushAll fuel fs s = Some s'
    /\ buffer s' = [] /\ flushPromise s' = None
    /\ concat (saveCalls s') = h
    /\ (no_fault fs -> forall h', delivered h' s -> concat (stored s') = h').
Proof.
  intros Hfuel (Hf & Hw & Hh). unfold flushAll.
  destruct (flushPromise (stopAutoFlush s)) as [p|] eqn:Hp.
  - destruct (settle_idle ["Error during final flush:"%string] (hd None fs)
                p (stopAutoFlush s) Hp Hw)
      as (s1 & ok & Hs & Hn1 & Hw1 & Hb1 & Hc1 & Hst1).
    rewrite Hs. simpl in Hp, Hb1, Hc1, Hst1.
    destruct (drain_idle fuel (tl fs) s1 Hfuel Hn1 Hw1)
      as (s' & Hdr & Hb' & Hn' & _ & Hc' & Hst' & _).
    exists s'. split; [exact Hdr|]. repeat split; try assumption.
    + rewrite Hc', Hc1, Hb1, concat_app, <- Hh.
      destruct (buffer s); simpl; rewrite ?app_nil_r; reflexivity.
    + intros Hnf h' Hdel. unfold delivered, in_flight in Hdel.
      rewrite Hp in Hdel.
      rewrite Hst', Hst1, Hb1, (no_fault_hd _ (no_fault_tl _ Hnf)),
        (no_fault_hd _ Hnf).
      unfold saveWhiskyDataBatch. simpl.
      now rewrite !concat_app, !db_chunks_concat, <- app_assoc.
  - simpl in Hp.
    destruct (drain_idle fuel fs (stopAutoFlush s) Hfuel Hp Hw)
      as (s' & Hdr & Hb' & Hn' & _ & Hc' & Hst' & _).
    exists s'. split; [exact Hdr|]. repeat split; try assumption.
    + rewrite Hc'. simpl. rewrite concat_app, <- Hh.
      destruct (buffer s); simpl; rewrite ?app_nil_r; reflexivity.
    + intros Hnf h' Hdel. unfold delivered, in_flight in Hdel.
      rewrite Hp in Hdel. simpl in Hdel.
      rewrite Hst'. simpl. rewrite (no_fault_hd _ Hnf). unfold saveWhiskyDataBatch. simpl.
      now rewrite concat_app, db_chunks_concat.
Qed.

End FlushAllFacts.

Section SettledFeed.
Import Buffer.
Context {R : Type}.
Implicit Types (s : Buffer.State R).

Lemma fed_new (B : nat) : (1 <= B)%nat -> fed B 0 0 (new (R := R) B).
Proof. intros HB. repeat split; simpl; auto. Qed.

Lemma fed_step (B q r : nat) (x : R) s :
  fed B q r s ->
  exists q' r', fed B q' r' (run [Add x; Settle None] s)
                /\ (q' * B + r' = q * B + r + 1)%nat.
Proof.
  intros (Hn & Hw & Hf & HB & Hl & Hr & Hc & Hst & Hsm).
  simpl. unfold add. simpl. rewrite Hf, HB, length_app, Hl. simpl.
  rewrite andb_true_r.
  destruct (Nat.leb_spec B (r + 1)) as [Hfull | Hroom].
  - exists (S q), 0%nat. split; [|lia].
    unfold flush. simpl. rewrite Hn.
    destruct (buffer s ++ [x]) as [|y b] eqn:Hb.
    { destruct (buffer s); discriminate. }
    assert (Hlen : length (y :: b) = B).
    { rewrite <- Hb, length_app, Hl. simpl. lia. }
    assert (Hne : y :: b <> []) by discriminate.
    revert Hlen Hne. generalize (y :: b). intros bt Hlen Hne.
    unfold settle, saveWhiskyDataBatch. simpl. rewrite Hw. simpl.
    repeat split; simpl; try assumption; try lia.
    + rewrite map_app, Hc. simpl map. rewrite Hlen.
      symmetry. apply repeat_cons.
    + intros HB25. rewrite (Hst HB25), db_chunks_small; [reflexivity|exact Hne|].
      rewrite Hlen. exact HB25.
    + apply Forall_app. split; [exact Hsm | apply db_chunks_bound].
  - exists q, (r + 1)%nat. split; [|lia].
    unfold settle. simpl. rewrite Hn.
    repeat split; simpl; try assumption.
    rewrite length_app, Hl. reflexivity.
Qed.

Lemma fed_run (B : nat) (rs : list R) :
  forall q r s,
    fed B q r s ->
    exists q' r', fed B q' r' (run (settled_feed rs) s)
                  /\ (q' * B + r' = q * B + r + length rs)%nat.
Proof.
  induction rs as [|x rs IH]; intros q r s Hfed.
  - exists q, r. split; [exact Hfed | simpl; lia].
  - destruct (fed_step B q r x s Hfed) as (q1 & r1 & H1 & E1).
    destruct (IH q1 r1 _ H1) as (q2 & r2 & H2 & E2).
    exists q2, r2. split; [exact H2 | simpl; lia].
Qed.

Lemma ceil_div (B q r : nat) :
  (r < B)%nat ->
  ((q * B + r + B - 1) / B = q + (if (r =? 0)%nat then 0 else 1))%nat.
Proof.
  intros Hr. destruct (Nat.eqb_spec r 0) as [-> | Hne].
  - symmetry. apply (Nat.div_unique _ _ _ (B - 1)); lia.
  - symmetry. apply (Nat.div_unique _ _ _ (r - 1)); lia.
Qed.

Lemma settled_feed_flushAll (B : nat) (rs : list R) (fuel : nat) :
  (1 <= B)%nat -> (1 <= fuel)%nat ->
  exists s',
    flushAll fuel [] (run (settled_feed rs) (new B)) = Some s'
    /\ map (@length R) (saveCalls s')
       = repeat B (length rs / B)
         ++ (if (length rs mod B =? 0)%nat then [] else [length rs mod B]%nat)
    /\ length (saveCalls s') = ((length rs + B - 1) / B)%nat
    /\ ((B <= CHUNK_SIZE)%nat -> stored s' = saveCalls s')
    /\ Forall small (stored s').
Proof.
  intros HB Hfuel.
  destruct (fed_run B rs 0 0 (new B) (fed_new B HB))
    as (q & r & (Hn & Hw & Hf & HBs & Hl & Hr & Hc & Hst & Hsm) & E).
  simpl in E.
  assert (Hq : (length rs / B = q)%nat).
  { symmetry. apply (Nat.div_unique _ _ _ r); lia. }
  assert (Hm : (length rs mod B = r)%nat).
  { symmetry. apply (Nat.mod_unique _ _ q); lia. }
  unfold flushAll. simpl. rewrite Hn.
  destruct (drain_idle fuel [] (stopAutoFlush (run (settled_feed rs) (new B)))
              Hfuel Hn Hw)
    as (s' & Hdr & _ & _ & _ & Hc' & Hst' & _).
  simpl in Hc', Hst'. unfold saveWhiskyDataBatch in Hst'. simpl in Hst'.
  exists s'. split; [exact Hdr|].
  assert (Hsizes : map (@length R) (saveCalls s')
                   = repeat B q ++ (if (r =? 0)%nat then [] else [r])).
  { rewrite Hc', map_app, Hc. f_equal.
    destruct (buffer (run (settled_feed rs) (new B))) as [|y b];
      simpl in Hl; subst r; reflexivity. }
  repeat split.
  - now rewrite Hq, Hm.
  - rewrite <- (length_map (@length R)), Hsizes, length_app, repeat_length.
    rewrite <- E, ceil_div by exact Hr.
    now destruct (r =? 0)%nat.
  - intros HB25. rewrite Hst', Hc', (Hst HB25). f_equal.
    destruct (buffer (run (settled_feed rs) (new B))) as [|y b] eqn:Hb;
      [reflexivity|].
    apply db_chunks_small; [discriminate|]. unfold CHUNK_SIZE in *. lia.
  - rewrite Hst'. apply Forall_app. split; [exact Hsm | apply db_chunks_bound].
Qed.

End SettledFeed.

(** ** Claims on BatchBuffer *)

Section BufferClaims.
Import Buffer.

(** C1.  Whatever the interleaving of [add] calls, timer ticks and flush
    completions (successful or not), once the final [flushAll] has run the
    batches passed to [saveWhiskyDataBatch], concatenated in call order,
    are exactly the records handed to [add], in order: each record is in
    exactly one batch.  When no persistence call fails the same holds of
    the chunks written to the database. *)
Theorem C1_every_record_saved_once {R : Type} (B : nat)
    (es : list (Buffer.Event R)) (fs : list Fault) (fuel : nat) :
  (1 <= fuel)%nat ->
  exists s',
    flushAll fuel fs (run es (new B)) = Some s'
    /\ concat (saveCalls s') = added es
    /\ Permutation (concat (saveCalls s')) (added es)
    /\ (fault_free es -> no_fault fs ->
        concat (stored s') = added es
        /\ Permutation (concat (stored s')) (added es)).
Proof.
  intros Hfuel.
  pose proof (run_consistent es [] (new B) (consistent_new B)) as Hc.
  simpl in Hc.
  destruct (flushAll_consistent fuel fs (added es) (run es (new B)) Hfuel Hc)
    as (s' & Hfl & _ & _ & Hcalls & Hst).
  exists s'. split; [exact Hfl|]. split; [exact Hcalls|].
  split; [rewrite Hcalls; reflexivity|].
  intros Hff Hnf.
  assert (E : concat (stored s') = added es).
  { apply (Hst Hnf).
    apply (run_delivered es [] [] (new B) Hff (consistent_new B)).
    reflexivity. }
  split; [exact E | rewrite E; reflexivity].
Qed.

Lemma C1_every_record_saved_once_witness :
  exists s',
    flushAll 1 [Some 0%nat]
      (run [StartAutoFlush; Add 1; Add 2; Add 3; Tick; Settle None; Add 4;
            Tick; Add 5]
         (new 2)) = Some s'
    /\ concat (saveCalls s') = [1; 2; 3; 4; 5].
Proof.
  destruct (C1_every_record_saved_once 2
              [StartAutoFlush; Add 1; Add 2; Add 3; Tick; Settle None; Add 4;
               Tick; Add 5]
              [Some 0%nat] 1) as (s' & H1 & H2 & _).
  - lia.
  - exists s'. split; [exact H1 | exact H2].
Defined.

(** C9.  From any state of the buffer and whatever the persistence calls
    do, [flushAll] returns: the timer is stopped and the buffer is empty.
    If nobody else waits for the flush in flight, nothing is in flight
    afterwards.  If the drain's own persistence call fails, the batch had
    already been taken out of the buffer, the failure is logged as
    "Error flushing remaining items:" and the loop is left. *)
Theorem C9_flushAll_terminates {R : Type} (s : Buffer.State R)
    (fs : list Fault) (fuel : nat) :
  (1 <= fuel)%nat ->
  exists s',
    flushAll fuel fs s = Some s'
    /\ buffer s' = []
    /\ flushInterval s' = false
    /\ (waiters s = [] -> flushPromise s' = None)
    /\ (waiters s = [] -> flushPromise s = None -> buffer s <> [] ->
        snd (saveWhiskyDataBatch (buffer s) (hd None fs)) = false ->
        saveCalls s' = saveCalls s ++ [buffer s]
        /\ console s' = console s ++ ["Error flushing remaining items:"%string]).
Proof.
  intros Hfuel.
  destruct (flushAll_terminates fuel fs s Hfuel) as (s' & Hfl & Hb & Ht).
  exists s'. split; [exact Hfl|]. split; [exact Hb|]. split; [exact Ht|].
  split.
  - intros Hw. unfold flushAll in Hfl.
    destruct (flushPromise (stopAutoFlush s)) as [p|] eqn:Hp.
    + destruct (settle_idle ["Error during final flush:"%string] (hd None fs)
                  p (stopAutoFlush s) Hp Hw)
        as (s1 & ok & Hs & Hn1 & Hw1 & _).
      rewrite Hs in Hfl.
      destruct (drain_idle fuel (tl fs) s1 Hfuel Hn1 Hw1)
        as (s2 & Hdr & _ & Hn2 & _).
      congruence.
    + destruct (drain_idle fuel fs (stopAutoFlush s) Hfuel Hp Hw)
        as (s2 & Hdr & _ & Hn2 & _).
      congruence.
  - intros Hw Hn Hne Hfail. unfold flushAll in Hfl.
    assert (Hp : flushPromise (stopAutoFlush s) = None) by exact Hn.
    rewrite Hp in Hfl.
    destruct (drain_idle fuel fs (stopAutoFlush s) Hfuel Hp Hw)
      as (s2 & Hdr & _ & _ & _ & Hc2 & _ & Hlog).
    assert (s2 = s') by congruence. subst s2.
    simpl in Hc2, Hlog. rewrite Hfail in Hlog.
    split; [|exact Hlog].
    rewrite Hc2. destruct (buffer s); [congruence | reflexivity].
Qed.

Lemma C9_flushAll_terminates_witness :
  exists s',
    flushAll 1 [None; Some 0%nat] (run [Add 1; Add 2; Add 3] (new 2)) = Some s'
    /\ buffer s' = []
    /\ flushInterval s' = false.
Proof.
  destruct (C9_flushAll_terminates (run [Add 1; Add 2; Add 3] (new 2))
              [None; Some 0%nat] 1) as (s' & H1 & H2 & H3 & _).
  - lia.
  - exists s'. auto.
Defined.

(** C6 (as amended).  When every flush completes before the next record
    arrives, K records followed by [flushAll] make [ceil(K/B)] calls of
    [saveWhiskyDataBatch]: [K / B] batches of [B] records and one with the
    remainder.  Up to [B = CHUNK_SIZE] each batch is written as one chunk;
    no chunk is ever longer than [CHUNK_SIZE]. *)
Theorem C6_settled_feed {R : Type} (B : nat) (rs : list R) (fuel : nat) :
  (1 <= B)%nat -> (1 <= fuel)%nat ->
  exists s',
    flushAll fuel [] (run (settled_feed rs) (new B)) = Some s'
    /\ map (@length R) (saveCalls s')
       = repeat B (length rs / B)
         ++ (if (length rs mod B =? 0)%nat then [] else [length rs mod B]%nat)
    /\ length (saveCalls s') = ((length rs + B - 1) / B)%nat
    /\ ((B <= CHUNK_SIZE)%nat -> stored s' = saveCalls s')
    /\ Forall small (stored s').
Proof. apply settled_feed_flushAll. Qed.

(** With [batchSize = 2] and five records, each flush completing before
    the next [add]: three calls, of sizes 2, 2 and 1. *)
Lemma C6_settled_feed_witness :
  exists s',
    flushAll 1 [] (run (settled_feed [1; 2; 3; 4; 5]) (new 2)) = Some s'
    /\ map (@length Z) (saveCalls s') = [2; 2; 1]%nat
    /\ length (saveCalls s') = 3%nat.
Proof.
  destruct (C6_settled_feed 2 [1; 2; 3; 4; 5] 1) as (s' & H1 & H2 & H3 & _).
  - lia.
  - lia.
  - exists s'. split; [exact H1|]. split; [exact H2 | exact H3].
Defined.

(** C6 as stated fails when the records arrive while the first flush is
    still in flight: [add] does not start a second flush, so five
    back-to-back [add] calls with [batchSize = 2] followed by [flushAll]
    make two calls, of sizes 2 and 3, and two chunks are persisted. *)
Lemma C6_counterexample :
  exists s',
    flushAll 1 [] (run [Add 1; Add 2; Add 3; Add 4; Add 5] (new 2)) = Some s'
    /\ map (@length Z) (saveCalls s') = [2; 3]%nat
    /\ map (@length Z) (stored s') = [2; 3]%nat
    /\ length (stored s') <> ((5 + 2 - 1) / 2)%nat.
Proof.
  eexists. split; [vm_compute; reflexivity|].
  vm_compute. repeat split. discriminate.
Qed.

End BufferClaims.

(** ** The worker pool *)

Section PoolFacts.
Import Detector Pool.
Context {R : Type}.
Implicit Types (s : Pool.State R) (e : Env) (o : Pool.Scraped R).

Lemma loop_head_claims e s :
  claims e s (fst (loop_head e s)) (snd (loop_head e s))
  /\ results (fst (loop_head e s)) = results s
  /\ workers (fst (loop_head e s)) = workers s
  /\ errors (fst (loop_head e s)) = errors s
  /\ (shouldStop (fst (loop_head e s)) = true -> shouldStop s = true).
Proof.
  unfold loop_head. destruct (shouldStop s) eqn:Hs; simpl.
  - repeat split; auto. constructor; auto.
  - destruct (beyond (bound e) (nextId s)) eqn:Hb; simpl.
    + repeat split; auto; [constructor; auto | congruence].
    + repeat split; auto. constructor; auto.
Qed.

Lemma check_claims e s :
  claims e s (fst (check e s)) (snd (check e s))
  /\ results (fst (check e s)) = results s
  /\ workers (fst (check e s)) = workers s
  /\ errors (fst (check e s)) = errors s
  /\ (shouldStop (fst (check e s)) = true ->
      shouldStop s = true \/ should_stop (criteria e) (results s) = true).
Proof.
  unfold check. destruct (should_stop (criteria e) (results s)) eqn:Hc.
  - simpl. repeat split; auto. constructor; auto.
  - destruct (loop_head_claims e s) as (H1 & H2 & H3 & H4 & H5).
    repeat split; auto.
Qed.

Lemma after_fetch_claims e (currentId : Z) o s :
  claims e s (fst (after_fetch e currentId o s))
             (snd (after_fetch e currentId o s))
  /\ results (fst (after_fetch e currentId o s))
     = results s ++ [logged currentId o]
  /\ workers (fst (after_fetch e currentId o s)) = workers s
  /\ errors (fst (after_fetch e currentId o s))
     = errors s ++ match o with Failed => [currentId] | _ => [] end
  /\ (shouldStop (fst (after_fetch e currentId o s)) = true ->
      shouldStop s = true
      \/ should_stop (criteria e) (results s ++ [logged currentId o]) = true).
Proof.
  assert (Hclaims : forall s1 s2 w,
             nextId s1 = nextId s -> claims e s1 s2 w -> claims e s s2 w).
  { intros s1 s2 w E Hc. destruct Hc as [s2 H1 H2 | s2 H1 H2 H3].
    - rewrite E in *. constructor; assumption.
    - rewrite E in *. constructor; assumption. }
  destruct o as [data| | |]; unfold after_fetch.
  - set (s1 := push_result _ _).
    destruct (check_claims e s1) as (H1 & H2 & H3 & H4 & H5).
    assert (E : nextId s1 = nextId s /\ results s1 = results s ++ [logged currentId (Data data)]
                /\ workers s1 = workers s /\ errors s1 = errors s
                /\ shouldStop s1 = shouldStop s).
    { subst s1. destruct (dry e); simpl; auto. }
    destruct E as (E1 & E2 & E3 & E4 & E5).
    repeat split.
    + eapply Hclaims; eassumption.
    + congruence.
    + congruence.
    + rewrite H4, E4. now rewrite app_nil_r.
    + intros H. destruct (H5 H) as [H' | H']; [left | right]; congruence.
  - set (s1 := push_result _ _).
    destruct (loop_head_claims e s1) as (H1 & H2 & H3 & H4 & H5).
    repeat split.
    + eapply Hclaims; [|eassumption]. reflexivity.
    + rewrite H2. reflexivity.
    + rewrite H3. reflexivity.
    + rewrite H4. simpl. now rewrite app_nil_r.
    + intros H. left. apply (H5 H).
  - set (s1 := push_result _ _).
    destruct (check_claims e s1) as (H1 & H2 & H3 & H4 & H5).
    repeat split.
    + eapply Hclaims; [|eassumption]. reflexivity.
    + rewrite H2. reflexivity.
    + rewrite H3. reflexivity.
    + rewrite H4. simpl. now rewrite app_nil_r.
    + intros H. destruct (H5 H) as [H' | H']; [left | right]; exact H'.
  - set (s1 := push_result _ _).
    destruct (check_claims e s1) as (H1 & H2 & H3 & H4 & H5).
    repeat split.
    + eapply Hclaims; [|eassumption]. reflexivity.
    + rewrite H2. reflexivity.
    + rewrite H3. reflexivity.
    + rewrite H4. reflexivity.
    + intros H. destruct (H5 H) as [H' | H']; [left | right]; exact H'.
Qed.

Lemma claims_not_threw e s s' w : claims e s s' w -> w <> Threw.
Proof. destruct 1; discriminate. Qed.

Lemma fetching_app (a b : list Worker) :
  fetching (a ++ b) = fetching a ++ fetching b.
Proof. apply flat_map_app. Qed.

Lemma beyond_within (bound : option Z) (i : Z) :
  beyond bound i = false -> within bound i.
Proof.
  unfold beyond, within. intros Hb m -> Hm.
  destruct (Z.eqb_spec m 0); [contradiction|]. simpl in Hb.
  apply Z.ltb_ge in Hb. exact Hb.
Qed.

(** Adding what a pass through the loop head claims to the claimed IDs. *)
Lemma sound_claim e s s' w (l : list Z) (ws : list Worker) :
  claims e s s' w ->
  first e <= nextId s ->
  NoDup l -> Forall (fun i => first e <= i < nextId s) l ->
  Forall (within (bound e)) l ->
  NoDup (fetching [w] ++ l)
  /\ Forall (fun i => first e <= i < nextId s') (fetching [w] ++ l)
  /\ Forall (within (bound e)) (fetching [w] ++ l)
  /\ first e <= nextId s'.
Proof.
  intros Hc Hfirst Hnd Hr Hb. destruct Hc as [s' H1 H2 | s' H1 H2 H3]; simpl.
  - rewrite H1. auto.
  - repeat split.
    + constructor; [|exact Hnd]. intros Hin.
      rewrite Forall_forall in Hr. specialize (Hr _ Hin). lia.
    + constructor; [lia|]. eapply Forall_impl; [|exact Hr].
      simpl. intros; lia.
    + constructor; [apply beyond_within, H3 | exact Hb].
    + lia.
Qed.

End PoolFacts.

Section PoolInvariant.
Import Detector Pool.
Context {R : Type}.
Implicit Types (s : Pool.State R) (e : Env) (o : Pool.Scraped R).

Lemma fetching_cons (w : Worker) (ws : list Worker) :
  fetching (w :: ws) = fetching [w] ++ fetching ws.
Proof. simpl. now rewrite app_nil_r. Qed.

Lemma perm_move {A : Type} (r p w q : list A) (i : A) :
  Permutation (r ++ [i] ++ p ++ w ++ q) (w ++ r ++ p ++ i :: q).
Proof.
  simpl. rewrite <- Permutation_middle.
  rewrite (app_assoc r p (i :: q)), (app_assoc w (r ++ p) (i :: q)).
  rewrite <- Permutation_middle. apply perm_skip.
  rewrite <- !app_assoc. rewrite (app_assoc r p (w ++ q)).
  rewrite (app_assoc r p q).
  apply Permutation_app_swap_app.
Qed.

(** A state [s'] that differs from a sound state [s] by what one pass
    through the loop head claimed. *)
Lemma sound_extend e s s1 s' w :
  sound e s -> first e <= nextId s ->
  claims e s s1 w ->
  nextId s' = nextId s1 ->
  Permutation (claimed s') (fetching [w] ++ claimed s) ->
  Forall (fun w => w <> Threw) (workers s') ->
  sound e s' /\ first e <= nextId s'.
Proof.
  intros (Hnd & Hr & Hb & _) Hfirst Hc En Hp Hw.
  destruct (sound_claim e s s1 w (claimed s) (workers s) Hc Hfirst Hnd Hr Hb)
    as (H1 & H2 & H3 & H4).
  symmetry in Hp. unfold sound. rewrite En.
  split; [|exact H4]. repeat split.
  - eapply Permutation_NoDup; eassumption.
  - eapply Permutation_Forall; eassumption.
  - eapply Permutation_Forall; eassumption.
  - exact Hw.
Qed.

Lemma init_sound e (B : nat) :
  sound e (init (R := R) e B) /\ first e <= nextId (init (R := R) e B).
Proof.
  unfold sound, claimed. simpl. repeat split; try constructor. lia.
Qed.

Lemma spawn_sound e (n : nat) s :
  sound e s -> first e <= nextId s ->
  sound e (spawn e n s) /\ first e <= nextId (spawn e n s).
Proof.
  revert s. induction n as [|n IH]; intros s Hs Hf; simpl; [auto|].
  destruct (loop_head e s) as [s1 w] eqn:Hl.
  destruct (loop_head_claims e s) as (Hc & Hres & Hws & _).
  rewrite Hl in Hc, Hres, Hws. simpl in Hc, Hres, Hws.
  destruct (sound_extend e s s1 (set_workers (workers s1 ++ [w]) s1) w Hs Hf Hc)
    as (Hs' & Hf').
  - reflexivity.
  - unfold claimed. simpl. rewrite Hres, Hws, fetching_app.
    rewrite app_assoc. apply Permutation_app_comm.
  - simpl. rewrite Hws. apply Forall_app. split; [apply Hs|].
    constructor; [|constructor]. eapply claims_not_threw, Hc.
  - apply IH; assumption.
Qed.

Lemma step_sound e s s' :
  step e s s' -> sound e s -> first e <= nextId s ->
  sound e s' /\ first e <= nextId s'.
Proof.
  intros Hstep Hs Hf.
  destruct Hstep as [s s1 pre post currentId o w Hws Haf | s ev Hev].
  - destruct (after_fetch_claims e currentId o s) as (Hc & Hres & Hws1 & _).
    rewrite Haf in Hc, Hres, Hws1. simpl in Hc, Hres, Hws1.
    eapply (sound_extend e s s1 _ w Hs Hf Hc).
    + reflexivity.
    + unfold claimed, set_workers. cbn [results workers].
      rewrite Hres, Hws, map_app, !fetching_app.
      rewrite (fetching_cons w post), (fetching_cons (Fetching currentId) post).
      rewrite <- !app_assoc.
      apply (perm_move (map id (results s)) (fetching pre)
               (fetching [w]) (fetching post) currentId).
    + simpl. destruct Hs as (_ & _ & _ & Hw). rewrite Hws in Hw.
      apply Forall_app in Hw. destruct Hw as [Hpre Hpost].
      apply Forall_app. split; [exact Hpre|].
      inversion Hpost; subst. constructor; [|assumption].
      eapply claims_not_threw, Hc.
  - split; [|exact Hf]. exact Hs.
Qed.

Lemma reachable_sound e (B : nat) s :
  reachable e B s -> sound e s /\ first e <= nextId s.
Proof.
  induction 1 as [|s s' Hr IH Hstep].
  - unfold start. destruct (init_sound e B) as [Hs Hf].
    apply spawn_sound; assumption.
  - destruct IH as [Hs Hf]. eapply step_sound; eassumption.
Qed.


(** With no (truthy) bound the pool starts [size] fetches, for the IDs
    from [startId] on. *)
Lemma spawn_unbounded e (n : nat) s :
  shouldStop s = false -> beyond (bound e) (nextId s) = false ->
  (forall i, beyond (bound e) i = false -> beyond (bound e) (i + 1) = false) ->
  fetching (workers (spawn e n s))
  = fetching (workers s) ++ map (fun k => nextId s + Z.of_nat k) (seq 0 n).
Proof.
  intros Hstop Hb Hnext. revert s Hstop Hb.
  induction n as [|n IH]; intros s Hstop Hb; simpl.
  - now rewrite app_nil_r.
  - unfold loop_head. rewrite Hstop, Hb.
    rewrite IH; simpl; auto.
    rewrite fetching_app, <- app_assoc. simpl. f_equal.
    rewrite Z.add_0_r. f_equal.
    rewrite <- seq_shift, map_map. apply map_ext. intros k. lia.
Qed.

End PoolInvariant.

Section FailingScan.
Import Detector Pool.








End FailingScan.

(** ** Claims on the worker pool *)

Section PoolClaims.
Import Detector Pool.






(** C10.  [maxId = 0] from the command line leaves [actualMaxId = 0],
    which the bound test treats as no bound: the test is false for every
    [nextId], a worker that finds [shouldStop] unset claims the next ID,
    and the pool starts by fetching [startId, startId + 1, ...].  For a
    strictly positive [actualMaxId] no claimed ID is above it. *)
Theorem C10_zero_maxId_unbounded {R : Type} (e : Env) (B : nat) (m : Z)
    (s : Pool.State R) :
  bound e = Some m -> reachable e B s ->
  (m = 0 ->
   (forall (startId : option Z) (dryRun : bool) (found : Z),
       actualMaxId (cli_options startId (Some 0) dryRun) found = Some 0)
   /\ (forall i, beyond (bound e) i = false)
   /\ (shouldStop s = false -> snd (loop_head e s) = Fetching (nextId s))
   /\ fetching (workers (start (R := R) e B))
      = map (fun k => first e + Z.of_nat k) (seq 0 (size e)))
  /\ (0 < m -> forall i, In i (claimed s) -> i <= m).
Proof.
  intros Hb Hr. split.
  - intros ->. split; [reflexivity|].
    assert (Hbeyond : forall i, beyond (bound e) i = false).
    { intros i. rewrite Hb. reflexivity. }
    split; [exact Hbeyond|]. split.
    + intros Hs. unfold loop_head. now rewrite Hs, Hbeyond.
    + unfold start. rewrite spawn_unbounded; auto.
  - intros Hm i Hi.
    destruct (reachable_sound e B s Hr) as ((_ & _ & Hw & _) & _).
    rewrite Forall_forall in Hw. apply (Hw i Hi m Hb). lia.
Qed.

Lemma C10_zero_maxId_unbounded_witness :
  fetching (workers (start (R := Z)
                       {| criteria := scrape_criteria; bound := Some 0;
                          dry := true; first := 1; size := 3 |} 50))
  = [1; 2; 3]
  /\ forall i,
      In i (claimed (start (R := Z)
                       {| criteria := scrape_criteria; bound := Some 2;
                          dry := true; first := 1; size := 3 |} 50)) ->
      i <= 2.
Proof.
  split.
  - apply (C10_zero_maxId_unbounded
             {| criteria := scrape_criteria; bound := Some 0;
                dry := true; first := 1; size := 3 |} 50 0
             (start {| criteria := scrape_criteria; bound := Some 0;
                       dry := true; first := 1; size := 3 |} 50));
      [reflexivity | apply reach_start | reflexivity].
  - apply (C10_zero_maxId_unbounded
             {| criteria := scrape_criteria; bound := Some 2;
                dry := true; first := 1; size := 3 |} 50 2);
      [reflexivity | apply reach_start | lia].
Defined.




End PoolClaims.

(** ** findMaxWhiskyId *)

Section TrackFacts.
Import Finder.

Lemma track0_ok (c : Criteria) : track_ok c track0.
Proof. repeat split; simpl; try lia. constructor. Qed.

Lemma record_ok (c : Criteria) (t : Track) (p : Probe) :
  (1 <= windowSize c)%nat -> track_ok c t -> track_ok c (record c t p).
Proof.
  intros HW (Hlen & Hmin & Hall).
  assert (Hreset : forall b,
             track_ok c {| consecutive := 0;
                           window := Js.push_shift (windowSize c) (window t) b |}).
  { intros b. repeat split; simpl.
    - apply push_shift_length, Hlen.
    - lia.
    - rewrite Nat.sub_0_r, skipn_all. constructor. }
  destruct p; simpl; try apply Hreset.
  unfold track_ok. cbn [consecutive window]. repeat split.
  - apply push_shift_length, Hlen.
  - apply push_shift_length_ge; lia.
  - destruct (Nat.lt_ge_cases (length (window t)) (windowSize c)) as [Hroom | Hfull].
    + rewrite push_shift_room by exact Hroom.
      rewrite length_app. simpl.
      replace (length (window t) + 1 - S (consecutive t))%nat
        with (length (window t) - consecutive t)%nat by lia.
      rewrite skipn_app.
      replace (length (window t) - consecutive t - length (window t))%nat
        with 0%nat by lia.
      apply Forall_app. split; [exact Hall | repeat constructor].
    + rewrite push_shift_full by exact Hfull.
      destruct (window t) as [|h w] eqn:Hw; [simpl in Hfull; lia|].
      simpl tl. rewrite length_app. simpl length in *.
      replace (length w + 1 - S (consecutive t))%nat
        with (length w - consecutive t)%nat by lia.
      rewrite skipn_app.
      replace (length w - consecutive t - length w)%nat with 0%nat by lia.
      apply Forall_app. split; [|repeat constructor].
      destruct (Nat.le_gt_cases (consecutive t) (length w)) as [Hle | Hgt].
      * replace (S (length w) - consecutive t)%nat
          with (S (length w - consecutive t)) in Hall by lia.
        exact Hall.
      * replace (S (length w) - consecutive t)%nat with 0%nat in Hall by lia.
        replace (length w - consecutive t)%nat with 0%nat by lia.
        simpl in *. now inversion Hall.
Qed.

Lemma ratio_full (n : nat) (q : Q) :
  (1 <= n)%nat -> (q <= 1)%Q -> Js.ge (Js.div n n) q = true.
Proof.
  intros Hn Hq. destruct n as [|n]; [lia|].
  unfold Js.div, Js.ge. apply Qle_bool_iff.
  eapply Qle_trans; [exact Hq|].
  unfold Qle. cbn [Qnum Qden].
  rewrite <- Pos.of_nat_succ, Zpos_P_of_succ_nat, Nat2Z.inj_succ. lia.
Qed.

Lemma filter_all_true (w : list bool) :
  Forall (fun r => r = true) w -> filter (fun r => r) w = w.
Proof.
  induction 1 as [|b w Hb _ IH]; [reflexivity|].
  simpl. rewrite Hb, IH. reflexivity.
Qed.

(** After [windowSize] consecutive 404s the window is full of 404s, so the
    criteria hold as soon as the counter allows. *)
Lemma criteria_met_saturated (c : Criteria) (t : Track) :
  (1 <= windowSize c)%nat -> (min404Rate c <= 1)%Q ->
  track_ok c t ->
  (windowSize c <= consecutive t)%nat ->
  (minConsecutive404s c <= consecutive t)%nat ->
  criteria_met c t = true.
Proof.
  intros HW Hrate (Hlen & Hmin & Hall) Hsat Hcons.
  unfold criteria_met. apply andb_true_iff. split; [now apply Nat.leb_le|].
  assert (Hfull : length (window t) = windowSize c) by lia.
  unfold recent404Rate. rewrite Hfull, Nat.leb_refl.
  rewrite filter_all_true.
  2:{ replace (length (window t) - consecutive t)%nat with 0%nat in Hall by lia.
      exact Hall. }
  rewrite Hfull. apply ratio_full; assumption.
Qed.

End TrackFacts.

Section FinderFacts.
Import Finder.

Lemma phase1_mono (c : Criteria) (fetch : Z -> Probe) (n : nat) :
  forall (s : Phase1) (r : Z),
    phase1 c fetch n s = Some r ->
    forall m, (n <= m)%nat -> phase1 c fetch m s = Some r.
Proof.
  induction n as [|n IH]; intros s r H m Hm; [discriminate|].
  destruct m as [|m]; [lia|]. simpl in *.
  destruct (phase1_step c fetch s) as [s'|ub]; [|exact H].
  apply IH; [exact H | lia].
Qed.

(** Phase 2 returns [startId] or the ID of a probe that succeeded. *)
Lemma phase2_result (c : Criteria) (fetch : Z -> Probe) (startId : Z) (n : nat) :
  forall (s : Phase2) (r : Z),
    maxValidId s = startId \/ fetch (maxValidId s) = Found ->
    phase2 c fetch n s = Some r ->
    r = startId \/ fetch r = Found.
Proof.
  induction n as [|n IH]; intros s r Hs H; simpl in H.
  - destruct (right s <? left s); [|discriminate].
    injection H as <-. exact Hs.
  - destruct (right s <? left s); [injection H as <-; exact Hs|].
    unfold phase2_step in H.
    destruct (fetch ((left s + right s) / 2)) eqn:Hf.
    + apply (IH _ r) in H; [exact H|]. simpl. now right.
    + destruct (criteria_met c _); [injection H as <-; exact Hs|].
      apply (IH _ r) in H; [exact H|]. exact Hs.
    + apply (IH _ r) in H; [exact H|]. exact Hs.
Qed.

End FinderFacts.

Section ThresholdSource.
Import Finder.
Variables (c : Criteria) (M : Z).
Hypothesis HW : (1 <= windowSize c)%nat.
Hypothesis Hrate : (min404Rate c <= 1)%Q.
Hypothesis Hsafe : 2 * M <= SAFETY_LIMIT.
Hypothesis Hmin : M < 2 ^ Z.of_nat (minConsecutive404s c).

Lemma threshold_found (i : Z) : 1 <= i <= M -> threshold M i = Found.
Proof.
  intros [H1 H2]. unfold threshold.
  destruct (Z.leb_spec 1 i), (Z.leb_spec i M); simpl; try lia. reflexivity.
Qed.

Lemma threshold_above (i : Z) : M < i -> threshold M i = NotFound.
Proof.
  intros H. unfold threshold.
  destruct (Z.leb_spec i M); [lia|]. now rewrite andb_false_r.
Qed.

Lemma phase1_step_found (s : Phase1) :
  1 <= upperBound s <= M ->
  phase1_step c (threshold M) s = inl (after_found c s).
Proof.
  intros H. unfold phase1_step. rewrite threshold_found by exact H.
  destruct (Z.ltb_spec SAFETY_LIMIT (upperBound s * 2)); [lia | reflexivity].
Qed.

Lemma phase1_step_notfound (s : Phase1) :
  M < upperBound s ->
  phase1_step c (threshold M) s
  = if criteria_met c (record c (track1 s) NotFound)
    then inr (lastValidId s) else inl (after_notfound c s).
Proof.
  intros H. unfold phase1_step. rewrite threshold_above by exact H.
  reflexivity.
Qed.

Lemma climbing_found (s : Phase1) :
  climbing c M s -> upperBound s <= M -> climbing c M (after_found c s).
Proof.
  intros (Hlv & Hub & Hok & _) HM. unfold climbing, after_found.
  cbn [upperBound lastValidId track1]. repeat split; try lia.
  - apply record_ok; assumption.
  - apply record_ok; assumption.
  - apply record_ok; assumption.
  - intros _. simpl. lia.
Qed.

Lemma half_above (ub lv : Z) :
  lv < ub ->
  lv < (if (ub + lv) / 2 <=? lv then lv + 1 else (ub + lv) / 2).
Proof. intros H. destruct (Z.leb_spec ((ub + lv) / 2) lv); lia. Qed.

Lemma climbing_notfound (s : Phase1) :
  climbing c M s -> M < upperBound s -> climbing c M (after_notfound c s).
Proof.
  intros (Hlv & Hub & Hok & Hd) HM. unfold climbing, after_notfound.
  cbn [upperBound lastValidId track1]. split; [exact Hlv|].
  split; [apply half_above, Hub|].
  split; [apply record_ok; assumption|].
  intros Hlt. specialize (Hd Hlt). cbn [record consecutive].
  rewrite Nat2Z.inj_succ, Z.pow_succ_r by lia.
  set (D := 2 ^ Z.of_nat (consecutive (track1 s))) in *.
  assert (HD : 0 < D) by (apply Z.pow_pos_nonneg; lia).
  set (h := (upperBound s + lastValidId s) / 2).
  assert (Hh : 2 * h <= upperBound s + lastValidId s < 2 * h + 2).
  { subst h. pose proof (Z.div_mod (upperBound s + lastValidId s) 2).
    pose proof (Z.mod_pos_bound (upperBound s + lastValidId s) 2). lia. }
  destruct (Z.leb_spec h (lastValidId s)); [lia|].
  nia.
Qed.

(** Below [M] the criteria cannot hold on a 404. *)
Lemma criteria_not_met_below (s : Phase1) :
  climbing c M s -> lastValidId s < M -> M < upperBound s ->
  criteria_met c (record c (track1 s) NotFound) = false.
Proof.
  intros (Hlv & Hub & Hok & Hd) Hlt HM. specialize (Hd Hlt).
  unfold criteria_met. cbn [record consecutive].
  destruct (Nat.leb_spec (minConsecutive404s c) (S (consecutive (track1 s))))
    as [Hle | Hgt]; [|reflexivity].
  exfalso.
  assert (H2 : 2 ^ Z.of_nat (minConsecutive404s c)
               <= 2 ^ Z.of_nat (S (consecutive (track1 s)))).
  { apply Z.pow_le_mono_r; lia. }
  rewrite Nat2Z.inj_succ, Z.pow_succ_r in H2 by lia.
  set (D := 2 ^ Z.of_nat (consecutive (track1 s))) in *.
  assert (HD : 0 < D) by (apply Z.pow_pos_nonneg; lia).
  nia.
Qed.

(** At [M] every probe is a 404, and the criteria are met at the latest
    when the counter reaches [max minConsecutive404s windowSize]. *)
Lemma phase1_top (k : nat) :
  forall s : Phase1,
    (Nat.max (minConsecutive404s c) (windowSize c)
     - consecutive (track1 s) <= k)%nat ->
    lastValidId s = M -> M < upperBound s -> track_ok c (track1 s) ->
    exists n, phase1 c (threshold M) n s = Some M.
Proof.
  induction k as [|k IH]; intros s Hk Hlv Hub Hok;
    pose proof (record_ok c (track1 s) NotFound HW Hok) as Hok';
    destruct (criteria_met c (record c (track1 s) NotFound)) eqn:Hcm.
  - exists 1%nat. simpl. rewrite phase1_step_notfound, Hcm, Hlv by exact Hub.
    reflexivity.
  - rewrite criteria_met_saturated in Hcm; try assumption;
      [discriminate | simpl; lia | simpl; lia].
  - exists 1%nat. simpl. rewrite phase1_step_notfound, Hcm, Hlv by exact Hub.
    reflexivity.
  - destruct (IH (after_notfound c s)) as [n Hn].
    + simpl. lia.
    + exact Hlv.
    + simpl. rewrite <- Hlv at 1. apply half_above. lia.
    + exact Hok'.
    + exists (S n). simpl. rewrite phase1_step_notfound, Hcm by exact Hub.
      exact Hn.
Qed.

Lemma phase1_climbs (a : nat) :
  forall s : Phase1,
    Z.to_nat (M - lastValidId s) = a -> climbing c M s ->
    exists n, phase1 c (threshold M) n s = Some M.
Proof.
  induction a as [a IHa] using (well_founded_induction lt_wf).
  intros s Ha Hcl.
  destruct (Z.eq_dec (lastValidId s) M) as [Heq | Hne].
  { destruct Hcl as (_ & Hub & Hok & _).
    eapply phase1_top; [reflexivity | exact Heq | lia | exact Hok]. }
  assert (Hlt : lastValidId s < M) by (destruct Hcl; lia).
  clear Hne. remember (Z.to_nat (upperBound s - lastValidId s)) as d eqn:Hd.
  revert s Ha Hcl Hlt Hd.
  induction d as [d IHd] using (well_founded_induction lt_wf).
  intros s Ha Hcl Hlt Hd.
  destruct (Z_le_gt_dec (upperBound s) M) as [Hin | Hout].
  - (* the probe succeeds: the last valid ID moves up *)
    pose proof (climbing_found s Hcl Hin) as Hcl'.
    destruct (IHa (Z.to_nat (M - upperBound s))) with (s := after_found c s)
      as [n Hn]; [destruct Hcl; lia | reflexivity | exact Hcl' |].
    exists (S n). simpl. rewrite phase1_step_found by (destruct Hcl; lia).
    exact Hn.
  - (* a 404 above M: the candidate moves halfway down *)
    pose proof (climbing_notfound s Hcl ltac:(lia)) as Hcl'.
    pose proof (criteria_not_met_below s Hcl Hlt ltac:(lia)) as Hcm.
    destruct (IHd (Z.to_nat (upperBound (after_notfound c s)
                             - lastValidId (after_notfound c s))))
      with (s := after_notfound c s) as [n Hn].
    + subst d. destruct Hcl as (Hlv & Hub & _ & Hdist).
      specialize (Hdist Hlt). simpl.
      set (h := (upperBound s + lastValidId s) / 2).
      assert (Hh : 2 * h <= upperBound s + lastValidId s < 2 * h + 2).
      { subst h. pose proof (Z.div_mod (upperBound s + lastValidId s) 2).
        pose proof (Z.mod_pos_bound (upperBound s + lastValidId s) 2). lia. }
      destruct (Z.leb_spec h (lastValidId s)); lia.
    + exact Ha.
    + exact Hcl'.
    + exact Hlt.
    + reflexivity.
    + exists (S n). simpl. rewrite phase1_step_notfound, Hcm by lia.
      exact Hn.
Qed.

Lemma phase1_threshold (startId : Z) :
  1 <= startId <= M ->
  exists n, forall m, (n <= m)%nat ->
    phase1 c (threshold M) m (phase1_init startId) = Some M.
Proof.
  intros Hs.
  destruct (phase1_climbs (Z.to_nat (M - startId)) (after_found c (phase1_init startId)))
    as [n Hn].
  - reflexivity.
  - unfold climbing, after_found, phase1_init.
    cbn [upperBound lastValidId track1].
    split; [lia|]. split; [lia|].
    split; [apply record_ok; [exact HW | apply track0_ok]|].
    intros _. simpl. lia.
  - exists (S n). intros m Hm. eapply phase1_mono; [|exact Hm].
    simpl. rewrite phase1_step_found by (simpl; lia). exact Hn.
Qed.

(** Phase 2 between two existing IDs only meets existing IDs and ends on
    the upper one. *)
Lemma phase2_threshold (n : nat) :
  forall s : Phase2,
    (Z.to_nat (right s - left s + 1) <= n)%nat ->
    1 <= left s -> right s <= M ->
    (right s < left s -> maxValidId s = right s) ->
    phase2 c (threshold M) n s = Some (right s).
Proof.
  induction n as [|n IH]; intros s Hn Hl Hr Hdone; simpl.
  - destruct (Z.ltb_spec (right s) (left s)); [f_equal; auto | lia].
  - destruct (Z.ltb_spec (right s) (left s)) as [Hlt | Hge]; [f_equal; auto|].
    set (mid := (left s + right s) / 2).
    assert (Hmid : left s <= mid <= right s).
    { subst mid. pose proof (Z.div_mod (left s + right s) 2).
      pose proof (Z.mod_pos_bound (left s + right s) 2). lia. }
    unfold phase2_step. fold mid. rewrite threshold_found by lia.
    rewrite IH; simpl; try lia. reflexivity.
Qed.

Lemma findMaxWhiskyId_threshold (startId : Z) :
  1 <= startId <= M ->
  exists n, forall m, (n <= m)%nat ->
    findMaxWhiskyId c (threshold M) m startId = Some M.
Proof.
  intros Hs. destruct (phase1_threshold startId Hs) as [n1 H1].
  exists (Nat.max n1 (Z.to_nat (M - startId + 1))). intros m Hm.
  unfold findMaxWhiskyId. rewrite H1 by lia.
  rewrite phase2_threshold; simpl; try lia. reflexivity.
Qed.

End ThresholdSource.

Section FinderFuel.
Import Finder.

Lemma phase2_mono (c : Criteria) (fetch : Z -> Probe) (n : nat) :
  forall (s : Phase2) (r : Z),
    phase2 c fetch n s = Some r ->
    forall m, (n <= m)%nat -> phase2 c fetch m s = Some r.
Proof.
  induction n as [|n IH]; intros s r H m Hm.
  - simpl in H. destruct m; simpl; destruct (right s <? left s);
      try discriminate; exact H.
  - destruct m as [|m]; [lia|]. simpl in *.
    destruct (right s <? left s); [exact H|].
    destruct (phase2_step c fetch s) as [s'|v]; [|exact H].
    apply IH; [exact H | lia].
Qed.

Lemma findMaxWhiskyId_mono (c : Criteria) (fetch : Z -> Probe) (n : nat)
    (startId r : Z) :
  findMaxWhiskyId c fetch n startId = Some r ->
  forall m, (n <= m)%nat -> findMaxWhiskyId c fetch m startId = Some r.
Proof.
  unfold findMaxWhiskyId. intros H m Hm.
  destruct (phase1 c fetch n (phase1_init startId)) as [ub|] eqn:H1;
    [|discriminate].
  rewrite (phase1_mono c fetch n _ ub H1 m Hm).
  eapply phase2_mono; eassumption.
Qed.

(** Whatever bound on the iterations, the function returns [r] or does not
    return within the bound. *)
Lemma findMaxWhiskyId_only (c : Criteria) (fetch : Z -> Probe) (n : nat)
    (startId r : Z) :
  findMaxWhiskyId c fetch n startId = Some r ->
  forall m r', findMaxWhiskyId c fetch m startId = Some r' -> r' = r.
Proof.
  intros H m r' H'.
  pose proof (findMaxWhiskyId_mono c fetch n startId r H (Nat.max n m)
                (Nat.le_max_l n m)) as E.
  pose proof (findMaxWhiskyId_mono c fetch m startId r' H' (Nat.max n m)
                (Nat.le_max_r n m)) as E'.
  congruence.
Qed.

End FinderFuel.

(** ** Claims on findMaxWhiskyId *)

Section FinderClaims.
Import Finder.

(** C3 (as amended).  [findMaxWhiskyId] returns [startId] or an ID whose
    probe succeeded.  On the source in which exactly the IDs [1..M] exist
    it returns, and returns exactly [M], from every [startId] in [1..M],
    provided that doubling [M] stays within the safety limit, that
    [M < 2 ^ minConsecutive404s], that the window is not empty and that
    the required rate is at most 1. *)
Theorem C3_findMax_threshold (c : Criteria) (M startId : Z) :
  (forall (fetch : Z -> Probe) (fuel : nat) (r : Z),
      findMaxWhiskyId c fetch fuel startId = Some r ->
      r = startId \/ fetch r = Found)
  /\ ((1 <= windowSize c)%nat -> (min404Rate c <= 1)%Q ->
      2 * M <= SAFETY_LIMIT ->
      M < 2 ^ Z.of_nat (minConsecutive404s c) ->
      1 <= startId <= M ->
      exists n, forall m, (n <= m)%nat ->
        findMaxWhiskyId c (threshold M) m startId = Some M).
Proof.
  split.
  - intros fetch fuel r. unfold findMaxWhiskyId.
    destruct (phase1 c fetch fuel (phase1_init startId)) as [ub|];
      [|discriminate].
    apply phase2_result. now left.
  - intros HW Hrate Hsafe Hmin Hs.
    apply findMaxWhiskyId_threshold; assumption.
Qed.

Lemma C3_findMax_threshold_witness :
  exists n, forall m, (n <= m)%nat ->
    findMaxWhiskyId scrape_criteria (threshold 5000) m 1 = Some 5000.
Proof.
  apply (C3_findMax_threshold scrape_criteria 5000 1).
  - simpl. lia.
  - unfold Qle. simpl. lia.
  - unfold SAFETY_LIMIT. lia.
  - vm_compute. reflexivity.
  - lia.
Defined.

(** C3 as stated fails twice with the constants of the source (3000,
    4500, 0.95).  When only ID 2 exists, phase 1 sees it succeed and ends
    with upper bound 2, phase 2 probes ID 1 only, and [startId = 1] is
    returned although its probe failed and another probe succeeded.  When
    the IDs 1..6000000 exist, phase 1 stops at the safety limit on ID
    5242880, which is what the function returns, whatever the bound on
    the iterations.  With the parameters 3, 5 and 0.6 and the IDs 1..100
    the criteria are met while the search is still below 100, and 96 is
    returned. *)
Lemma C3_counterexample :
  (let fetch := fun i => if i =? 2 then Found else NotFound in
   phase1 scrape_criteria fetch 5000 (phase1_init 1) = Some 2
   /\ findMaxWhiskyId scrape_criteria fetch 5000 1 = Some 1
   /\ fetch 1 = NotFound /\ fetch 2 = Found)
  /\ findMaxWhiskyId scrape_criteria (threshold 6000000) 100 1 = Some 5242880
  /\ (forall fuel,
         findMaxWhiskyId scrape_criteria (threshold 6000000) fuel 1
         <> Some 6000000)
  /\ findMaxWhiskyId example_criteria (threshold 100) 1000 1 = Some 96.
Proof.
  split; [|split; [|split; [|vm_compute; reflexivity]]].
  - cbv zeta. split; [vm_compute; reflexivity|].
    split; [vm_compute; reflexivity|]. split; reflexivity.
  - vm_compute. reflexivity.
  - intros fuel H.
    assert (E : findMaxWhiskyId scrape_criteria (threshold 6000000) 100 1
                = Some 5242880) by (vm_compute; reflexivity).
    pose proof (findMaxWhiskyId_only _ _ _ _ _ E _ _ H). discriminate.
Qed.

End FinderClaims.

(** ** BatchBuffer: accounting *)

Section LedgerFacts.
Import Buffer Ledger.
Context {R : Type}.
Implicit Types (s : Buffer.State R) (es : list (Buffer.Event R)).

Lemma subseq_refl (l : list R) : subseq l l.
Proof. induction l; constructor; assumption. Qed.

Lemma subseq_trans (l1 l2 l3 : list R) :
  subseq l1 l2 -> subseq l2 l3 -> subseq l1 l3.
Proof.
  intros H12 H23. revert l1 H12.
  induction H23 as [|x l2 l3 H IH|x l2 l3 H IH]; intros l1 H12.
  - exact H12.
  - constructor. apply IH, H12.
  - inversion H12; subst.
    + constructor. apply IH. assumption.
    + apply subseq_keep. apply IH. assumption.
Qed.

Lemma subseq_app (a b c d : list R) :
  subseq a b -> subseq c d -> subseq (a ++ c) (b ++ d).
Proof.
  intros Hab Hcd. induction Hab; simpl; try constructor; assumption.
Qed.

Lemma subseq_nil_l (l : list R) : subseq [] l.
Proof. induction l; constructor; assumption. Qed.

Lemma subseq_firstn (n : nat) (l : list R) : subseq (firstn n l) l.
Proof.
  revert n. induction l as [|x l IH]; intros [|n]; simpl.
  - constructor.
  - constructor.
  - apply subseq_nil_l.
  - apply subseq_keep, IH.
Qed.

Lemma subseq_length (l1 l2 : list R) :
  subseq l1 l2 -> (length l1 <= length l2)%nat.
Proof. induction 1; simpl; lia. Qed.

Lemma concat_firstn_subseq (k : nat) (cs : list (list R)) :
  subseq (concat (firstn k cs)) (concat cs).
Proof.
  revert k. induction cs as [|c cs IH]; intros [|k]; simpl.
  - constructor.
  - constructor.
  - apply subseq_nil_l.
  - apply subseq_app; [apply subseq_refl | apply IH].
Qed.

(** *** Chunks *)

Lemma chunk_loop_nonempty (fuel i : nat) (b : list R) :
  Forall (fun ch => ch <> []) (chunk_loop fuel i b).
Proof.
  revert i. induction fuel as [|fuel IH]; intros i; simpl; [constructor|].
  destruct (Nat.ltb_spec i (length b)) as [Hlt | Hge]; [|constructor].
  constructor; [|apply IH].
  unfold Js.slice. intros E. apply (f_equal (@length R)) in E.
  rewrite length_firstn, length_skipn in E. simpl in E.
  unfold CHUNK_SIZE in E. lia.
Qed.

Lemma db_chunks_nonempty (b : list R) :
  Forall (fun ch => ch <> [] /\ small ch) (db_chunks b).
Proof.
  apply Forall_and; [|apply db_chunks_bound].
  unfold db_chunks. destruct b as [|x b]; [constructor|].
  destruct (CHUNK_SIZE <? length (x :: b))%nat.
  - apply chunk_loop_nonempty.
  - constructor; [discriminate | constructor].
Qed.

Lemma chunk_loop_sizes (fuel i : nat) (b : list R) :
  (length b - i <= fuel)%nat ->
  map (@length R) (chunk_loop fuel i b)
  = repeat CHUNK_SIZE ((length b - i) / CHUNK_SIZE)
    ++ (if ((length b - i) mod CHUNK_SIZE =? 0)%nat then []
        else [((length b - i) mod CHUNK_SIZE)%nat]).
Proof.
  assert (HC : CHUNK_SIZE <> 0%nat) by discriminate.
  assert (Hzero : forall n, n = 0%nat ->
             repeat CHUNK_SIZE (n / CHUNK_SIZE)
             ++ (if (n mod CHUNK_SIZE =? 0)%nat then []
                 else [(n mod CHUNK_SIZE)%nat]) = []).
  { intros n ->. rewrite Nat.Div0.div_0_l, Nat.Div0.mod_0_l. reflexivity. }
  revert i. induction fuel as [|fuel IH]; intros i Hf.
  - cbn [chunk_loop map]. symmetry. apply Hzero. lia.
  - cbn [chunk_loop]. destruct (Nat.ltb_spec i (length b)) as [Hlt | Hge].
    + cbn [map]. rewrite IH by (unfold CHUNK_SIZE; lia).
      unfold Js.slice. rewrite length_firstn, length_skipn.
      replace (i + CHUNK_SIZE - i)%nat with CHUNK_SIZE by lia.
      destruct (Nat.le_gt_cases CHUNK_SIZE (length b - i)) as [Hbig | Hsmall].
      * assert (E : (length b - i
                     = (length b - (i + CHUNK_SIZE)) + 1 * CHUNK_SIZE)%nat) by lia.
        assert (Hd : ((length b - i) / CHUNK_SIZE
                      = S ((length b - (i + CHUNK_SIZE)) / CHUNK_SIZE))%nat).
        { rewrite E at 1. rewrite Nat.div_add by exact HC. lia. }
        assert (Hm : ((length b - i) mod CHUNK_SIZE
                      = (length b - (i + CHUNK_SIZE)) mod CHUNK_SIZE)%nat).
        { rewrite E at 1. apply Nat.Div0.mod_add. }
        rewrite Hd, Hm, Nat.min_l by lia. reflexivity.
      * rewrite Hzero by lia. rewrite Nat.min_r by lia.
        rewrite (Nat.div_small (length b - i)), (Nat.mod_small (length b - i))
          by lia.
        cbn [repeat app].
        destruct (Nat.eqb_spec (length b - i) 0); [lia | reflexivity].
    + cbn [map]. symmetry. apply Hzero. lia.
Qed.

Lemma db_chunks_sizes (b : list R) :
  map (@length R) (db_chunks b)
  = repeat CHUNK_SIZE (length b / CHUNK_SIZE)
    ++ (if (length b mod CHUNK_SIZE =? 0)%nat then []
        else [(length b mod CHUNK_SIZE)%nat]).
Proof.
  unfold db_chunks. destruct b as [|x b]; [reflexivity|].
  destruct (Nat.ltb_spec CHUNK_SIZE (length (x :: b))) as [Hbig | Hsmall].
  - rewrite chunk_loop_sizes by lia. now rewrite Nat.sub_0_r.
  - destruct (Nat.eq_dec (length (x :: b)) CHUNK_SIZE) as [E | Hne].
    + cbn [map]. rewrite E. reflexivity.
    + rewrite Nat.div_small, Nat.mod_small by lia.
      cbn [map repeat app].
      destruct (Nat.eqb_spec (length (x :: b)) 0); [discriminate | reflexivity].
Qed.

Lemma writes_short (b : list R) :
  b <> [] -> (length b <= CHUNK_SIZE)%nat -> writes 1 b = Some [b].
Proof.
  intros Hne Hle. destruct b as [|x b]; [congruence|]. simpl in *.
  destruct (Nat.ltb_spec CHUNK_SIZE (S (length b))); [lia | reflexivity].
Qed.

Lemma writes_loop (b : list R) (n i : nat) :
  (length b - i <= n)%nat ->
  (fix loop (n i : nat) : option (list (list R)) :=
     match n with
     | O => if (i <? length b)%nat then None else Some []
     | S n' =>
         if (i <? length b)%nat
         then
           match writes 1 (Js.slice i (i + CHUNK_SIZE) b),
                 loop n' (i + CHUNK_SIZE)%nat with
           | Some here, Some later => Some (here ++ later)
           | _, _ => None
           end
         else Some []
     end) n i
  = Some (chunk_loop n i b).
Proof.
  revert i. induction n as [|n IH]; intros i Hn.
  - destruct (Nat.ltb_spec i (length b)); [lia | reflexivity].
  - simpl chunk_loop. destruct (Nat.ltb_spec i (length b)) as [Hlt | Hge];
      [|reflexivity].
    rewrite writes_short.
    + rewrite IH by (unfold CHUNK_SIZE; lia). reflexivity.
    + unfold Js.slice. intros E. apply (f_equal (@length R)) in E.
      rewrite length_firstn, length_skipn in E. simpl in E.
      unfold CHUNK_SIZE in E. lia.
    + unfold Js.slice. rewrite length_firstn. lia.
Qed.

End LedgerFacts.

Section LedgerInvariant.
Import Buffer Ledger.
Context {R : Type}.
Implicit Types (s : Buffer.State R) (es : list (Buffer.Event R)).

Lemma writes_db_chunks (b : list R) : writes 2 b = Some (db_chunks b).
Proof.
  unfold db_chunks. destruct b as [|x b]; [reflexivity|].
  change (writes 2 (x :: b))
    with (if (CHUNK_SIZE <? length (x :: b))%nat
          then
            (fix loop (n i : nat) : option (list (list R)) :=
               match n with
               | O => if (i <? length (x :: b))%nat then None else Some []
               | S n' =>
                   if (i <? length (x :: b))%nat
                   then
                     match writes 1 (Js.slice i (i + CHUNK_SIZE) (x :: b)),
                           loop n' (i + CHUNK_SIZE)%nat with
                     | Some here, Some later => Some (here ++ later)
                     | _, _ => None
                     end
                   else Some []
               end) (length (x :: b)) 0%nat
          else Some [x :: b]).
  destruct (CHUNK_SIZE <? length (x :: b))%nat; [|reflexivity].
  apply writes_loop. lia.
Qed.

Lemma accounted_new (B : nat) : accounted [] (new (R := R) B).
Proof. repeat split; simpl; try constructor; lia. Qed.

Lemma tallied_new (B : nat) : tallied (new (R := R) B).
Proof. split; reflexivity. Qed.

Lemma flush_accounted (o : Origin) (h : list R) s :
  flushPromise s = None -> accounted h s -> accounted h (flush o s).
Proof.
  intros Hn Ha. unfold flush. rewrite Hn.
  destruct (buffer s) as [|x b] eqn:Eb; [exact Ha|].
  destruct Ha as (Hs & Hw & Hb & Hc & Hst).
  unfold accounted, in_flight, pending in *. rewrite Hn, ?Eb in *. simpl in *.
  rewrite app_nil_r. repeat split; try assumption.
  - rewrite length_app. simpl. lia.
  - apply Forall_app. split; [exact Hc|]. constructor; [discriminate | constructor].
Qed.

Lemma flush_tallied (o : Origin) s :
  flushPromise s = None -> tallied s -> tallied (flush o s).
Proof.
  intros Hn Ha. unfold flush. rewrite Hn.
  destruct (buffer s) as [|x b] eqn:Eb; [exact Ha|].
  destruct Ha as (Hw & Hb).
  unfold tallied, pending in *. rewrite Hn in *. simpl.
  split; [exact Hw|]. rewrite length_app. simpl. lia.
Qed.

Lemma idle_of_flushing (h : list R) s :
  consistent h s -> flushing s = false -> flushPromise s = None.
Proof.
  intros (Hf & _) H. rewrite Hf in H.
  destruct (flushPromise s); [discriminate | reflexivity].
Qed.

Lemma add_accounted (data : R) (h0 h : list R) s :
  consistent h0 s -> accounted h s -> accounted (h ++ [data]) (add data s).
Proof.
  intros Hc (Hs & Hw & Hb & Hcalls & Hst). unfold add.
  match goal with |- accounted _ (if ?b then flush _ ?s1 else _) =>
    assert (Ha : accounted (h ++ [data]) s1)
  end.
  { unfold accounted, in_flight, pending in *. simpl.
    repeat split; try assumption.
    rewrite !app_assoc. apply subseq_app; [|apply subseq_refl].
    rewrite <- app_assoc. exact Hs. }
  match goal with |- accounted _ (if ?b then _ else _) => destruct b eqn:Eb end;
    [|exact Ha].
  apply flush_accounted; [|exact Ha].
  simpl. apply andb_true_iff in Eb. destruct Eb as [_ Eb]. simpl in Eb.
  apply (idle_of_flushing h0 s Hc). now destruct (flushing s).
Qed.

Lemma add_tallied (data : R) (h0 : list R) s :
  consistent h0 s -> tallied s -> tallied (add data s).
Proof.
  intros Hc Ht. unfold add.
  match goal with |- tallied (if ?b then flush _ ?s1 else _) =>
    assert (Ha : tallied s1) by exact Ht
  end.
  match goal with |- tallied (if ?b then _ else _) => destruct b eqn:Eb end;
    [|exact Ha].
  apply flush_tallied; [|exact Ha].
  simpl. apply andb_true_iff in Eb. destruct Eb as [_ Eb]. simpl in Eb.
  apply (idle_of_flushing h0 s Hc). now destruct (flushing s).
Qed.

Lemma tick_accounted (h0 h : list R) s :
  consistent h0 s -> accounted h s -> accounted h (tick s).
Proof.
  intros Hc Ha. unfold tick. destruct (flushInterval s); [|exact Ha].
  destruct (_ && _) eqn:Eb; [|exact Ha].
  apply flush_accounted; [|exact Ha].
  apply andb_true_iff in Eb. destruct Eb as [_ Eb].
  apply (idle_of_flushing h0 s Hc). now destruct (flushing s).
Qed.

Lemma tick_tallied (h0 : list R) s :
  consistent h0 s -> tallied s -> tallied (tick s).
Proof.
  intros Hc Ha. unfold tick. destruct (flushInterval s); [|exact Ha].
  destruct (_ && _) eqn:Eb; [|exact Ha].
  apply flush_tallied; [|exact Ha].
  apply andb_true_iff in Eb. destruct Eb as [_ Eb].
  apply (idle_of_flushing h0 s Hc). now destruct (flushing s).
Qed.

Lemma saved_prefix (b : list R) (f : Fault) :
  subseq (concat (fst (saveWhiskyDataBatch b f))) b
  /\ Forall (fun ch => ch <> [] /\ small ch) (fst (saveWhiskyDataBatch b f))
  /\ (snd (saveWhiskyDataBatch b f) = true ->
      concat (fst (saveWhiskyDataBatch b f)) = b).
Proof.
  unfold saveWhiskyDataBatch. destruct f as [k|]; simpl.
  - destruct (k <? length (db_chunks b))%nat; simpl.
    + split; [|split; [|discriminate]].
      * rewrite <- (db_chunks_concat b) at 2. apply concat_firstn_subseq.
      * pose proof (db_chunks_nonempty b) as H.
        rewrite <- (firstn_skipn k (db_chunks b)) in H.
        apply Forall_app in H. apply H.
    + rewrite db_chunks_concat.
      split; [apply subseq_refl | split; [apply db_chunks_nonempty | reflexivity]].
  - rewrite db_chunks_concat.
    split; [apply subseq_refl | split; [apply db_chunks_nonempty | reflexivity]].
Qed.

Lemma settle_accounted (watch : list string) (f : Fault) (h : list R) s :
  waiters s = [] -> accounted h s -> accounted h (fst (settle watch f s)).
Proof.
  intros Hw (Hs & Htw & Hb & Hc & Hst). unfold settle.
  destruct (flushPromise s) as [p|] eqn:Hp;
    [|simpl; unfold accounted, in_flight, pending; rewrite Hp;
      unfold in_flight in Hs; unfold pending in Hb; rewrite Hp in *; auto].
  rewrite Hw.
  destruct (saved_prefix (batch p) f) as (Hpre & Hchunks & Hall).
  destruct (saveWhiskyDataBatch (batch p) f) as [written ok].
  simpl in Hpre, Hchunks, Hall.
  unfold in_flight in Hs. unfold pending in Hb. rewrite Hp in *.
  assert (Hsub : subseq ((concat (stored s) ++ concat written) ++ buffer s) h).
  { eapply subseq_trans; [|exact Hs].
    rewrite <- app_assoc. apply subseq_app; [apply subseq_refl|].
    apply subseq_app; [exact Hpre | apply subseq_refl]. }
  destruct ok; simpl; unfold accounted, in_flight, pending; simpl;
    rewrite concat_app, length_app.
  - rewrite (Hall eq_refl). repeat split; try assumption; try lia.
    + rewrite <- (Hall eq_refl) at 1. exact Hsub.
    + apply Forall_app. split; assumption.
  - repeat split; try assumption; try lia.
    apply Forall_app. split; assumption.
Qed.

Lemma settle_tallied (watch : list string) s :
  waiters s = [] -> tallied s -> tallied (fst (settle watch None s)).
Proof.
  intros Hw (Htw & Hb). unfold settle.
  destruct (flushPromise s) as [p|] eqn:Hp; [|split; assumption].
  rewrite Hw. unfold saveWhiskyDataBatch. simpl.
  unfold tallied, pending in *. rewrite Hp in *. simpl.
  rewrite concat_app, length_app, db_chunks_concat. split; lia.
Qed.

Lemma step_accounted (e : Buffer.Event R) (h0 h : list R) s :
  consistent h0 s -> accounted h s -> accounted (h ++ added [e]) (step s e).
Proof.
  intros Hc Ha. destruct e as [data| |f|]; simpl; rewrite ?app_nil_r.
  - eapply add_accounted; eassumption.
  - eapply tick_accounted; eassumption.
  - apply settle_accounted; [apply Hc | exact Ha].
  - exact Ha.
Qed.

Lemma step_tallied (e : Buffer.Event R) (h0 : list R) s :
  (forall f, e = Settle f -> f = None) ->
  consistent h0 s -> tallied s -> tallied (step s e).
Proof.
  intros Hff Hc Ha. destruct e as [data| |f|]; simpl.
  - eapply add_tallied; eassumption.
  - eapply tick_tallied; eassumption.
  - rewrite (Hff f eq_refl). apply settle_tallied; [apply Hc | exact Ha].
  - exact Ha.
Qed.

Lemma run_accounted es (h0 h : list R) s :
  consistent h0 s -> accounted h s -> accounted (h ++ added es) (run es s).
Proof.
  revert h0 h s. induction es as [|e es IH]; intros h0 h s Hc Ha.
  - simpl. now rewrite app_nil_r.
  - change (added (e :: es)) with (added ([e] ++ es)).
    rewrite added_app, app_assoc.
    change (run (e :: es) s) with (run es (step s e)).
    eapply IH; [apply step_consistent, Hc | eapply step_accounted; eassumption].
Qed.

Lemma run_tallied es (h0 : list R) s :
  fault_free es -> consistent h0 s -> tallied s -> tallied (run es s).
Proof.
  revert h0 s. induction es as [|e es IH]; intros h0 s Hff Hc Ha; [exact Ha|].
  change (run (e :: es) s) with (run es (step s e)).
  eapply IH.
  - intros f Hin. apply Hff. now right.
  - apply step_consistent, Hc.
  - eapply step_tallied; try eassumption.
    intros f ->. apply Hff. now left.
Qed.

End LedgerInvariant.

Section LedgerDrain.
Import Buffer Ledger.
Context {R : Type}.
Implicit Types (s : Buffer.State R) (es : list (Buffer.Event R)).

Lemma set_buffer_accounted (lines : list string) (h : list R) s :
  buffer s = [] -> accounted h s -> accounted h (set_buffer [] (log lines s)).
Proof.
  intros Hb Ha. unfold accounted, in_flight, pending in *. simpl.
  rewrite Hb in Ha. exact Ha.
Qed.

Lemma flush_buffer (o : Origin) s :
  flushPromise s = None -> buffer (flush o s) = [].
Proof.
  intros Hn. unfold flush. rewrite Hn.
  destruct (buffer s) eqn:Hb; [exact Hb | reflexivity].
Qed.

Lemma drain_accounted (fuel : nat) (fs : list Fault) (h0 h : list R) s s' :
  consistent h0 s -> flushPromise s = None -> accounted h s ->
  drain fuel fs s = Some s' -> accounted h s'.
Proof.
  intros Hc Hn Ha. 
  assert (Hfl : consistent h0 (flush ByDrain s)) by now apply flush_consistent.
  assert (Hw : waiters (flush ByDrain s) = []) by apply Hfl.
  pose proof (settle_accounted [] (hd None fs) h (flush ByDrain s) Hw
                (flush_accounted ByDrain h s Hn Ha)) as Hset.
  destruct (settle_consistent [] (hd None fs) h0 (flush ByDrain s) Hfl)
    as (_ & _ & Hbuf).
  rewrite (flush_buffer ByDrain s Hn) in Hbuf.
  destruct fuel as [|fuel]; unfold drain; fold (drain (R := R));
    (destruct (buffer s) as [|x b] eqn:Hb; [intros [= <-]; exact Ha|]);
    [discriminate|].
  unfold flush_await. rewrite Hn, Hb.
  destruct (settle [] (hd None fs) (flush ByDrain s)) as [s1 ok].
  simpl in Hset, Hbuf. destruct ok.
  - destruct fuel; simpl; rewrite Hbuf; intros [= <-]; exact Hset.
  - intros [= <-]. now apply set_buffer_accounted.
Qed.

Lemma flushAll_accounted (fuel : nat) (fs : list Fault) (h0 h : list R) s s' :
  consistent h0 s -> accounted h s ->
  flushAll fuel fs s = Some s' -> accounted h s'.
Proof.
  intros Hc Ha. unfold flushAll.
  assert (Hc0 : consistent h0 (stopAutoFlush s)) by exact Hc.
  assert (Ha0 : accounted h (stopAutoFlush s)) by exact Ha.
  destruct (flushPromise (stopAutoFlush s)) as [p|] eqn:Hp.
  - pose proof (settle_accounted ["Error during final flush:"%string]
                  (hd None fs) h (stopAutoFlush s) (proj1 (proj2 Hc0)) Ha0) as Hset.
    destruct (settle_consistent ["Error during final flush:"%string]
                (hd None fs) h0 (stopAutoFlush s) Hc0) as (Hc1 & Hn1 & _).
    destruct (settle _ (hd None fs) (stopAutoFlush s)) as [s1 ok].
    simpl in Hset, Hc1, Hn1. now apply drain_accounted with (h0 := h0).
  - now apply drain_accounted with (h0 := h0).
Qed.

Lemma drain_tallied (fuel : nat) (fs : list Fault) (h0 : list R) s s' :
  no_fault fs -> consistent h0 s -> flushPromise s = None -> tallied s ->
  drain fuel fs s = Some s' -> tallied s'.
Proof.
  intros Hnf Hc Hn Ha.
  assert (Hfl : consistent h0 (flush ByDrain s)) by now apply flush_consistent.
  assert (Hw : waiters (flush ByDrain s) = []) by apply Hfl.
  pose proof (settle_tallied [] (flush ByDrain s) Hw
                (flush_tallied ByDrain s Hn Ha)) as Hset.
  destruct (settle_consistent [] None h0 (flush ByDrain s) Hfl)
    as (_ & _ & Hbuf).
  rewrite (flush_buffer ByDrain s Hn) in Hbuf.
  destruct fuel as [|fuel]; unfold drain; fold (drain (R := R));
    (destruct (buffer s) as [|x b] eqn:Hb; [intros [= <-]; exact Ha|]);
    [discriminate|].
  unfold flush_await. rewrite Hn, Hb, (no_fault_hd fs Hnf).
  destruct (settle [] None (flush ByDrain s)) as [s1 ok].
  simpl in Hset, Hbuf. destruct ok.
  - destruct fuel; simpl; rewrite Hbuf; intros [= <-]; exact Hset.
  - intros [= <-]. exact Hset.
Qed.

Lemma flushAll_tallied (fuel : nat) (fs : list Fault) (h0 : list R) s s' :
  no_fault fs -> consistent h0 s -> tallied s ->
  flushAll fuel fs s = Some s' -> tallied s'.
Proof.
  intros Hnf Hc Ha. unfold flushAll.
  assert (Hc0 : consistent h0 (stopAutoFlush s)) by exact Hc.
  assert (Ha0 : tallied (stopAutoFlush s)) by exact Ha.
  destruct (flushPromise (stopAutoFlush s)) as [p|] eqn:Hp.
  - rewrite (no_fault_hd fs Hnf).
    pose proof (settle_tallied ["Error during final flush:"%string]
                  (stopAutoFlush s) (proj1 (proj2 Hc0)) Ha0) as Hset.
    destruct (settle_consistent ["Error during final flush:"%string]
                None h0 (stopAutoFlush s) Hc0) as (Hc1 & Hn1 & _).
    destruct (settle _ None (stopAutoFlush s)) as [s1 ok].
    simpl in Hset, Hc1, Hn1.
    apply drain_tallied with (h0 := h0); auto using no_fault_tl.
  - now apply drain_tallied with (h0 := h0).
Qed.

End LedgerDrain.

(** ** BatchBuffer and saveWhiskyDataBatch: further properties *)

Section BufferLedger.
Import Buffer Ledger.

(** saveWhiskyDataBatch, chunking (lines 206-222).  A call on [n] records
    returns with a recursion depth of at most 2 and runs its database
    statements on consecutive slices of the batch: [n / 25] slices of 25
    records followed, when 25 does not divide [n], by one slice with the
    [n mod 25] remaining records; nothing for an empty batch.  These are
    the chunks the model of the buffer writes. *)
Theorem saveWhiskyDataBatch_chunk_sizes {R : Type} (batch : list R) :
  exists chunks,
    writes 2 batch = Some chunks
    /\ fst (saveWhiskyDataBatch batch None) = chunks
    /\ concat chunks = batch
    /\ map (@length R) chunks
       = repeat CHUNK_SIZE (length batch / CHUNK_SIZE)
         ++ (if (length batch mod CHUNK_SIZE =? 0)%nat then []
             else [(length batch mod CHUNK_SIZE)%nat]).
Proof.
  exists (db_chunks batch). split; [apply writes_db_chunks|].
  split; [reflexivity|]. split; [apply db_chunks_concat | apply db_chunks_sizes].
Qed.

(** BatchBuffer under failing persistence calls (lines 109-203).  Whatever
    the interleaving of add calls, timer ticks and flush completions and
    whichever persistence calls fail, after the final flushAll the records
    in the database are a subsequence of the records handed to add: none
    is written twice, none out of order, none that was not added. *)
Theorem stored_subseq_of_added {R : Type} (B : nat)
    (es : list (Buffer.Event R)) (fs : list Fault) (fuel : nat) :
  (1 <= fuel)%nat ->
  exists s',
    flushAll fuel fs (run es (new B)) = Some s'
    /\ subseq (concat (stored s')) (added es)
    /\ (length (concat (stored s')) <= length (added es))%nat.
Proof.
  intros Hfuel.
  pose proof (run_consistent es [] (new B) (consistent_new B)) as Hc.
  pose proof (run_accounted es [] [] (new B) (consistent_new B) (accounted_new B))
    as Ha.
  simpl in Hc, Ha.
  destruct (flushAll_consistent fuel fs (added es) (run es (new B)) Hfuel Hc)
    as (s' & Hfl & Hb & Hn & _).
  destruct (flushAll_accounted fuel fs _ _ _ s' Hc Ha Hfl) as (Hs & _).
  unfold in_flight in Hs. rewrite Hn, Hb, !app_nil_r in Hs.
  exists s'. split; [exact Hfl|]. split; [exact Hs|].
  apply subseq_length, Hs.
Qed.

Lemma stored_subseq_of_added_witness :
  exists s',
    flushAll 1 [Some 0%nat]
      (run [Add 1; Add 2; Add 3; Settle (Some 0%nat); Add 4; Settle None; Add 5]
         (new 2)) = Some s'
    /\ subseq (concat (stored s')) [1; 2; 3; 4; 5]
    /\ (length (concat (stored s')) <= 5)%nat.
Proof.
  apply (stored_subseq_of_added 2
           [Add 1; Add 2; Add 3; Settle (Some 0%nat); Add 4; Settle None; Add 5]
           [Some 0%nat] 1).
  lia.
Defined.

(** BatchBuffer, what reaches the persistence layer (lines 150-165 and
    211-222).  In every run, saveWhiskyDataBatch is never called on an
    empty batch, and every chunk written to the database is non-empty and
    holds at most 25 records, whatever the batch size. *)
Theorem no_empty_batch_no_large_chunk {R : Type} (B : nat)
    (es : list (Buffer.Event R)) (fs : list Fault) (fuel : nat) :
  (1 <= fuel)%nat ->
  exists s',
    flushAll fuel fs (run es (new B)) = Some s'
    /\ Forall (fun b => b <> []) (saveCalls s')
    /\ Forall (fun ch => ch <> [] /\ (length ch <= CHUNK_SIZE)%nat) (stored s').
Proof.
  intros Hfuel.
  pose proof (run_consistent es [] (new B) (consistent_new B)) as Hc.
  pose proof (run_accounted es [] [] (new B) (consistent_new B) (accounted_new B))
    as Ha.
  simpl in Hc, Ha.
  destruct (flushAll_consistent fuel fs (added es) (run es (new B)) Hfuel Hc)
    as (s' & Hfl & _).
  destruct (flushAll_accounted fuel fs _ _ _ s' Hc Ha Hfl) as (_ & _ & _ & H1 & H2).
  exists s'. auto.
Qed.

Lemma no_empty_batch_no_large_chunk_witness :
  exists s',
    flushAll 1 [] (run (map Add (seq 0 60) ++ [Settle None]) (new 0)) = Some s'
    /\ Forall (fun b => b <> []) (saveCalls s')
    /\ Forall (fun ch => ch <> [] /\ (length ch <= CHUNK_SIZE)%nat) (stored s').
Proof.
  apply (no_empty_batch_no_large_chunk 0
           (map Add (seq 0 60) ++ [Settle None]) [] 1).
  lia.
Defined.

(** BatchBuffer, the counters (lines 167-168).  totalWhiskiesSaved never
    exceeds the number of records in the database and totalBatchesSaved
    never exceeds the number of persistence calls, whatever fails (a batch
    that fails after some of its chunks were written is not counted).  When
    no persistence call fails, after the final flushAll totalWhiskiesSaved
    is the number of records handed to add and totalBatchesSaved the number
    of persistence calls. *)
Theorem counters_track_database {R : Type} (B : nat)
    (es : list (Buffer.Event R)) (fs : list Fault) (fuel : nat) :
  (1 <= fuel)%nat ->
  exists s',
    flushAll fuel fs (run es (new B)) = Some s'
    /\ (totalWhiskiesSaved s' <= length (concat (stored s')))%nat
    /\ (totalBatchesSaved s' <= length (saveCalls s'))%nat
    /\ (fault_free es -> no_fault fs ->
        totalWhiskiesSaved s' = length (added es)
        /\ totalBatchesSaved s' = length (saveCalls s')).
Proof.
  intros Hfuel.
  pose proof (run_consistent es [] (new B) (consistent_new B)) as Hc.
  pose proof (run_accounted es [] [] (new B) (consistent_new B) (accounted_new B))
    as Ha.
  simpl in Hc, Ha.
  destruct (flushAll_consistent fuel fs (added es) (run es (new B)) Hfuel Hc)
    as (s' & Hfl & _ & Hn & _ & Hst).
  destruct (flushAll_accounted fuel fs _ _ _ s' Hc Ha Hfl) as (_ & H1 & H2 & _).
  unfold pending in H2. rewrite Hn in H2.
  exists s'. split; [exact Hfl|]. split; [exact H1|]. split; [lia|].
  intros Hff Hnf.
  pose proof (run_tallied es [] (new B) Hff (consistent_new B) (tallied_new B))
    as Ht.
  destruct (flushAll_tallied fuel fs _ _ s' Hnf Hc Ht Hfl) as (T1 & T2).
  unfold pending in T2. rewrite Hn in T2.
  rewrite T1, (Hst Hnf (added es)); [split; [reflexivity | lia]|].
  apply (run_delivered es [] [] (new B) Hff (consistent_new B)). reflexivity.
Qed.

Lemma counters_track_database_witness :
  exists s',
    flushAll 1 [] (run [Add 1; Add 2; Add 3; Settle None; Add 4] (new 2)) = Some s'
    /\ (totalWhiskiesSaved s' <= length (concat (stored s')))%nat
    /\ (totalBatchesSaved s' <= length (saveCalls s'))%nat
    /\ totalWhiskiesSaved s' = 4%nat
    /\ totalBatchesSaved s' = length (saveCalls s').
Proof.
  destruct (counters_track_database 2
              [Add 1; Add 2; Add 3; Settle None; Add 4] [] 1)
    as (s' & H1 & H2 & H3 & H4).
  - lia.
  - exists s'. split; [exact H1|]. split; [exact H2|]. split; [exact H3|].
    apply H4.
    + intros f [H|[H|[H|[H|[H|[]]]]]]; now inversion H.
    + intros f [].
Defined.

(** BatchBuffer.flush, the wait at line 142.  In every run of add calls,
    timer ticks and flush completions the flag [flushing] is set exactly
    while a flush is in flight, and no caller of flush is ever suspended
    on the flush in flight: add and the timer call flush only when none is
    in flight, so lines 141-148 are never entered by them. *)
Theorem flush_never_waits {R : Type} (B : nat) (es : list (Buffer.Event R)) :
  waiters (run es (new B)) = []
  /\ flushing (run es (new B))
     = match flushPromise (run es (new B)) with Some _ => true | None => false end.
Proof.
  destruct (run_consistent es [] (new B) (consistent_new B)) as (Hf & Hw & _).
  split; assumption.
Qed.



End BufferLedger.

Section BufferThreshold.
Import Buffer.
Context {R : Type}.
Implicit Types (s : Buffer.State R).

Lemma adds_below_batchSize (rs : list R) s :
  flushPromise s = None -> flushing s = false ->
  (length (buffer s) + length rs < batchSize s)%nat ->
  buffer (run (map Add rs) s) = buffer s ++ rs
  /\ flushPromise (run (map Add rs) s) = None
  /\ flushing (run (map Add rs) s) = false
  /\ saveCalls (run (map Add rs) s) = saveCalls s
  /\ batchSize (run (map Add rs) s) = batchSize s
  /\ flushInterval (run (map Add rs) s) = flushInterval s.
Proof.
  revert s. induction rs as [|r rs IH]; intros s Hn Hf Hlen.
  - simpl. rewrite app_nil_r. auto 10.
  - change (run (map Add (r :: rs)) s) with (run (map Add rs) (add r s)).
    assert (E : add r s = set_buffer (buffer s ++ [r]) s).
    { unfold add. simpl. rewrite length_app. simpl in *.
      replace (batchSize s <=? length (buffer s) + 1)%nat with false
        by (symmetry; apply Nat.leb_gt; lia).
      reflexivity. }
    rewrite E.
    destruct (IH (set_buffer (buffer s ++ [r]) s)) as (H1 & H2 & H3 & H4 & H5 & H6);
      try assumption.
    { simpl in *. rewrite length_app. simpl. lia. }
    rewrite H1, H2, H3, H4, H5, H6. simpl. rewrite <- app_assoc. auto 10.
Qed.

End BufferThreshold.

Section BufferThresholdExtras.
Import Buffer.

(** BatchBuffer.add and the timer (lines 109-131).  While fewer than
    batchSize records have been added, add makes no persistence call and
    the records stay in the buffer, in order.  With the timer started, its
    next tick hands all of them to one persistence call, whatever the batch
    size. *)
Theorem add_buffers_until_batchSize {R : Type} (B : nat) (rs : list R) :
  (length rs < B)%nat ->
  (buffer (run (map Add rs) (new B)) = rs
   /\ saveCalls (run (map Add rs) (new B)) = []
   /\ flushPromise (run (map Add rs) (new B)) = None)
  /\ (rs <> [] ->
      saveCalls (run (StartAutoFlush :: map Add rs ++ [Tick]) (new B)) = [rs]
      /\ buffer (run (StartAutoFlush :: map Add rs ++ [Tick]) (new B)) = []).
Proof.
  intros Hlen. split.
  - destruct (adds_below_batchSize rs (new B)) as (H1 & H2 & _ & H4 & _);
      try reflexivity; [simpl; lia|].
    auto.
  - intros Hne.
    change (run (StartAutoFlush :: map Add rs ++ [Tick]) (new B))
      with (run (map Add rs ++ [Tick]) (startAutoFlush (new B))).
    unfold run. rewrite fold_left_app. fold (run (map Add rs) (startAutoFlush (new B))).
    destruct (adds_below_batchSize rs (startAutoFlush (new B)))
      as (H1 & H2 & H3 & H4 & _ & H6); try reflexivity; [simpl; lia|].
    remember (run (map Add rs) (startAutoFlush (new B))) as s1 eqn:Es1.
    simpl in H1, H4, H6. cbn [fold_left step]. unfold tick. rewrite H6, H1, H3.
    destruct rs as [|r rs]; [congruence|]. cbn [length Nat.ltb Nat.leb andb negb].
    unfold flush. rewrite H2, H1, H4. simpl. auto.
Qed.

Lemma add_buffers_until_batchSize_witness :
  (buffer (run (map Add [7; 8; 9]) (new 25)) = [7; 8; 9]
   /\ saveCalls (run (map Add [7; 8; 9]) (new 25)) = []
   /\ flushPromise (run (map Add [7; 8; 9]) (new 25)) = None)
  /\ ([7; 8; 9] <> [] ->
      saveCalls (run (StartAutoFlush :: map Add [7; 8; 9] ++ [Tick]) (new 25))
      = [[7; 8; 9]]
      /\ buffer (run (StartAutoFlush :: map Add [7; 8; 9] ++ [Tick]) (new 25)) = []).
Proof.
  apply (add_buffers_until_batchSize 25 [7; 8; 9]). simpl. lia.
Defined.

End BufferThresholdExtras.

(** ** findMaxWhiskyId: further properties *)

Section FinderTotal.
Import Finder Search.

Lemma mid_bounds (l r : Z) : l <= r -> l <= (l + r) / 2 <= r.
Proof.
  intros H. pose proof (Z.div_mod (l + r) 2).
  pose proof (Z.mod_pos_bound (l + r) 2). lia.
Qed.

Lemma mid_halves (l r : Z) :
  2 * ((l + r) / 2) <= l + r /\ l + r - 1 <= 2 * ((l + r) / 2).
Proof.
  pose proof (Z.div_mod (l + r) 2).
  pose proof (Z.mod_pos_bound (l + r) 2). lia.
Qed.

(** Phase 2 halves its interval at every probe. *)
Lemma phase2_total (c : Criteria) (fetch : Z -> Probe) (lo hi : Z) (fuel : nat) :
  forall s : Phase2,
    right s - left s + 1 < 2 ^ Z.of_nat fuel ->
    lo <= left s -> right s <= hi ->
    lo <= maxValidId s <= Z.max lo hi ->
    exists r, phase2 c fetch fuel s = Some r /\ lo <= r <= Z.max lo hi.
Proof.
  induction fuel as [|fuel IH]; intros s Hsz Hl Hr Hm.
  - simpl in *. destruct (Z.ltb_spec (right s) (left s)); [eauto | lia].
  - cbn [phase2].
    destruct (Z.ltb_spec (right s) (left s)) as [Hlt | Hge]; [eauto|].
    rewrite Nat2Z.inj_succ, Z.pow_succ_r in Hsz by lia.
    pose proof (mid_bounds _ _ Hge) as Hmid.
    pose proof (mid_halves (left s) (right s)) as Hhalf.
    unfold phase2_step.
    destruct (fetch ((left s + right s) / 2)).
    + apply IH; cbn [left right maxValidId]; lia.
    + destruct (criteria_met c _); [eauto|].
      apply IH; cbn [left right maxValidId]; lia.
    + apply IH; cbn [left right maxValidId]; lia.
Qed.

Lemma phase1_errors (c : Criteria) (fetch : Z -> Probe) (startId : Z) :
  (forall i, startId <= i -> fetch i = OtherError) ->
  forall (fuel : nat) (s : Phase1),
    startId <= upperBound s -> phase1 c fetch fuel s = None.
Proof.
  intros Hf. induction fuel as [|fuel IH]; intros s Hs; [reflexivity|].
  cbn [phase1]. unfold phase1_step. rewrite (Hf _ Hs).
  apply IH. cbn [upperBound]. lia.
Qed.

End FinderTotal.

Section DeadEnd.
Import Finder Search.
Variables (c : Criteria) (fetch : Z -> Probe) (startId : Z).
Hypothesis HW : (1 <= windowSize c)%nat.
Hypothesis Hrate : (min404Rate c <= 1)%Q.
Hypothesis Hnone : forall i, startId <= i -> fetch i = NotFound.

Lemma not_met_below_saturation (t : Track) :
  track_ok c t ->
  criteria_met c (record c t NotFound) = false ->
  (S (consecutive t) < saturation c)%nat.
Proof.
  intros Hok Hcm. unfold saturation.
  destruct (Nat.lt_ge_cases (S (consecutive t))
              (Nat.max (minConsecutive404s c) (windowSize c))) as [H | H];
    [exact H|].
  rewrite criteria_met_saturated in Hcm; try assumption;
    [discriminate | now apply record_ok | simpl; lia | simpl; lia].
Qed.

Lemma phase1_dead_end (k : nat) :
  forall (s : Phase1) (m : nat),
    (saturation c - consecutive (track1 s) <= k)%nat ->
    (k <= m)%nat -> (1 <= m)%nat ->
    lastValidId s = startId -> startId <= upperBound s ->
    track_ok c (track1 s) ->
    phase1 c fetch m s = Some startId.
Proof.
  induction k as [|k IH]; intros s m Hk Hm H1 Hlv Hub Hok;
    (destruct m as [|m]; [lia|]); cbn [phase1]; unfold phase1_step;
    rewrite (Hnone _ Hub);
    destruct (criteria_met c (record c (track1 s) NotFound)) eqn:Hcm;
    try (now rewrite Hlv);
    pose proof (not_met_below_saturation _ Hok Hcm) as Hlt; [lia|].
  apply IH; cbn [upperBound lastValidId track1]; try lia.
  - cbn [record consecutive]. lia.
  - destruct (Z.leb_spec ((upperBound s + lastValidId s) / 2) (lastValidId s)); lia.
  - now apply record_ok.
Qed.

Lemma findMaxWhiskyId_dead_end (m : nat) :
  (saturation c <= m)%nat -> findMaxWhiskyId c fetch m startId = Some startId.
Proof.
  intros Hm. unfold findMaxWhiskyId.
  assert (H1 : (1 <= m)%nat) by (unfold saturation in Hm; lia).
  rewrite (phase1_dead_end (saturation c)); try assumption;
    try reflexivity; try apply track0_ok; [|simpl; lia].
  destruct m as [|m]; [lia|]. cbn [phase2 phase2_init left right].
  destruct (Z.ltb_spec startId startId) as [|_]; [lia|].
  unfold phase2_step. cbn [phase2_init left right maxValidId track2].
  replace ((startId + startId) / 2) with startId
    by (pose proof (mid_halves startId startId); lia).
  rewrite (Hnone startId) by lia.
  destruct (criteria_met c _); [reflexivity|].
  destruct m; cbn [phase2 left right maxValidId];
    (destruct (Z.ltb_spec (startId - 1) startId); [reflexivity | lia]).
Qed.

End DeadEnd.

Section ErrorFree.
Import Finder Search.
Variables (c : Criteria) (fetch : Z -> Probe) (startId : Z).
Hypothesis HW : (1 <= windowSize c)%nat.
Hypothesis Hrate : (min404Rate c <= 1)%Q.
Hypothesis Hstart : 1 <= startId < SAFETY_LIMIT.
Hypothesis Hfetch : forall i, fetch i <> OtherError.

Lemma phase1_searching (a : nat) :
  forall s : Phase1,
    searching c startId s ->
    (Z.to_nat (SAFETY_LIMIT - lastValidId s) <= a)%nat ->
    exists n ub, phase1 c fetch n s = Some ub /\ startId <= ub <= SAFETY_LIMIT.
Proof.
  induction a as [|a IHa]; intros s (H1 & H2 & H3 & H4 & H5) Ha; [lia|].
  remember (saturation c - consecutive (track1 s))%nat as k eqn:Ek.
  assert (Hk : (saturation c - consecutive (track1 s) <= k)%nat) by lia.
  clear Ek. revert s H1 H2 H3 H4 H5 Ha Hk.
  induction k as [|k IHk]; intros s H1 H2 H3 H4 H5 Ha Hk;
    destruct (fetch (upperBound s)) eqn:Hf;
    try (exfalso; exact (Hfetch _ Hf)).
  - destruct (Z.ltb_spec SAFETY_LIMIT (upperBound s * 2)) as [Hlim | Hlim].
    + exists 1%nat, (upperBound s). cbn [phase1]. unfold phase1_step.
      rewrite Hf. apply Z.ltb_lt in Hlim. rewrite Hlim. split; [reflexivity | lia].
    + destruct (IHa (after_found c s)) as (n & ub & Hn & Hr).
      * unfold searching, after_found. cbn [upperBound lastValidId track1].
        do 4 (split; [lia|]). now apply record_ok.
      * cbn [after_found lastValidId]. lia.
      * exists (S n), ub. cbn [phase1]. unfold phase1_step.
        rewrite Hf. apply Z.ltb_ge in Hlim. rewrite Hlim. split; assumption.
  - destruct (criteria_met c (record c (track1 s) NotFound)) eqn:Hcm.
    + exists 1%nat, (lastValidId s). cbn [phase1]. unfold phase1_step.
      rewrite Hf, Hcm. split; [reflexivity | lia].
    + pose proof (not_met_below_saturation c HW Hrate _ H5 Hcm). lia.
  - destruct (Z.ltb_spec SAFETY_LIMIT (upperBound s * 2)) as [Hlim | Hlim].
    + exists 1%nat, (upperBound s). cbn [phase1]. unfold phase1_step.
      rewrite Hf. apply Z.ltb_lt in Hlim. rewrite Hlim. split; [reflexivity | lia].
    + destruct (IHa (after_found c s)) as (n & ub & Hn & Hr).
      * unfold searching, after_found. cbn [upperBound lastValidId track1].
        do 4 (split; [lia|]). now apply record_ok.
      * cbn [after_found lastValidId]. lia.
      * exists (S n), ub. cbn [phase1]. unfold phase1_step.
        rewrite Hf. apply Z.ltb_ge in Hlim. rewrite Hlim. split; assumption.
  - destruct (criteria_met c (record c (track1 s) NotFound)) eqn:Hcm.
    + exists 1%nat, (lastValidId s). cbn [phase1]. unfold phase1_step.
      rewrite Hf, Hcm. split; [reflexivity | lia].
    + destruct (IHk (after_notfound c s)) as (n & ub & Hn & Hr);
        cbn [after_notfound upperBound lastValidId track1];
        try assumption; try lia.
      * destruct (Z.leb_spec ((upperBound s + lastValidId s) / 2) (lastValidId s));
          lia.
      * pose proof (mid_halves (upperBound s) (lastValidId s)).
        destruct (Z.leb_spec ((upperBound s + lastValidId s) / 2) (lastValidId s));
          lia.
      * now apply record_ok.
      * cbn [record consecutive]. lia.
      * exists (S n), ub. cbn [phase1]. unfold phase1_step.
        rewrite Hf, Hcm. split; assumption.
Qed.

Lemma phase1_error_free :
  exists n ub,
    phase1 c fetch n (phase1_init startId) = Some ub
    /\ startId <= ub <= SAFETY_LIMIT.
Proof.
  pose proof (record_ok c track0) as Hrec.
  destruct (fetch startId) eqn:Hf; [| |exfalso; exact (Hfetch _ Hf)].
  - destruct (Z.ltb_spec SAFETY_LIMIT (startId * 2)) as [Hlim | Hlim].
    + exists 1%nat, startId. cbn [phase1]. unfold phase1_step.
      cbn [phase1_init upperBound]. rewrite Hf.
      apply Z.ltb_lt in Hlim. rewrite Hlim. split; [reflexivity | lia].
    + destruct (phase1_searching (Z.to_nat (SAFETY_LIMIT - startId))
                  (after_found c (phase1_init startId)))
        as (n & ub & Hn & Hr).
      * unfold searching. cbn [after_found phase1_init upperBound lastValidId track1].
        do 4 (split; [lia|]). apply Hrec; [exact HW | apply track0_ok].
      * cbn [after_found phase1_init upperBound lastValidId]. lia.
      * exists (S n), ub. cbn [phase1]. unfold phase1_step.
        cbn [phase1_init upperBound track1]. rewrite Hf.
        apply Z.ltb_ge in Hlim. rewrite Hlim. split; assumption.
  - destruct (criteria_met c (record c track0 NotFound)) eqn:Hcm.
    + exists 1%nat, startId. cbn [phase1]. unfold phase1_step.
      cbn [phase1_init upperBound lastValidId track1]. rewrite Hf, Hcm.
      split; [reflexivity | lia].
    + destruct (phase1_searching (Z.to_nat (SAFETY_LIMIT - startId))
                  (after_notfound c (phase1_init startId)))
        as (n & ub & Hn & Hr).
      * unfold searching.
        cbn [after_notfound phase1_init upperBound lastValidId track1].
        pose proof (mid_halves startId startId).
        destruct (Z.leb_spec ((startId + startId) / 2) startId);
          do 4 (split; [lia|]); (apply Hrec; [exact HW | apply track0_ok]).
      * cbn [after_notfound phase1_init upperBound lastValidId]. lia.
      * exists (S n), ub. cbn [phase1]. unfold phase1_step.
        cbn [phase1_init upperBound lastValidId track1]. rewrite Hf, Hcm.
        split; assumption.
Qed.

Lemma findMaxWhiskyId_error_free :
  exists n r,
    (forall m, (n <= m)%nat -> findMaxWhiskyId c fetch m startId = Some r)
    /\ startId <= r <= SAFETY_LIMIT
    /\ (r = startId \/ fetch r = Found).
Proof.
  destruct phase1_error_free as (n1 & ub & H1 & Hub).
  set (n2 := Z.to_nat (ub - startId + 1)).
  destruct (phase2_total c fetch startId ub n2 (phase2_init startId ub))
    as (r & H2 & Hr); cbn [phase2_init left right maxValidId]; try lia.
  { subst n2. rewrite Z2Nat.id by lia. apply Z.pow_gt_lin_r; lia. }
  exists (Nat.max n1 n2), r. split; [|split; [lia|]].
  - intros m Hm. unfold findMaxWhiskyId.
    rewrite (phase1_mono c fetch n1 _ ub H1 m) by lia.
    apply (phase2_mono c fetch n2 _ r H2). lia.
  - apply (phase2_result c fetch startId n2 (phase2_init startId ub) r);
      [now left | exact H2].
Qed.

End ErrorFree.

Section FinderCapped.
Import Finder Search.
Variables (c : Criteria) (fetch : Z -> Probe).
Hypothesis Hall : forall i, 1 <= i <= SAFETY_LIMIT -> fetch i = Found.

Lemma phase1_all_found (a : nat) :
  forall s : Phase1,
    (Z.to_nat (SAFETY_LIMIT - upperBound s) <= a)%nat ->
    1 <= upperBound s <= SAFETY_LIMIT ->
    exists n k,
      phase1 c fetch n s = Some (upperBound s * 2 ^ Z.of_nat k)
      /\ upperBound s * 2 ^ Z.of_nat k <= SAFETY_LIMIT
         < 2 * (upperBound s * 2 ^ Z.of_nat k).
Proof.
  induction a as [|a IH]; intros s Ha Hub.
  - exists 1%nat, 0%nat. cbn [phase1]. unfold phase1_step.
    rewrite Hall by exact Hub.
    replace (SAFETY_LIMIT <? upperBound s * 2) with true
      by (symmetry; apply Z.ltb_lt; lia).
    cbn [Z.of_nat]. rewrite Z.pow_0_r, Z.mul_1_r. split; [reflexivity | lia].
  - destruct (Z.ltb_spec SAFETY_LIMIT (upperBound s * 2)) as [Hlim | Hlim].
    + exists 1%nat, 0%nat. cbn [phase1]. unfold phase1_step.
      rewrite Hall by exact Hub.
      apply Z.ltb_lt in Hlim. rewrite Hlim. apply Z.ltb_lt in Hlim.
      cbn [Z.of_nat]. rewrite Z.pow_0_r, Z.mul_1_r. split; [reflexivity | lia].
    + destruct (IH {| upperBound := upperBound s * 2;
                      lastValidId := upperBound s;
                      track1 := record c (track1 s) Found |})
        as (n & k & Hn & Hr); cbn [upperBound] in *; try lia.
      exists (S n), (S k). cbn [phase1]. unfold phase1_step.
      rewrite Hall by exact Hub.
      apply Z.ltb_ge in Hlim. rewrite Hlim.
      rewrite Nat2Z.inj_succ, Z.pow_succ_r by lia.
      replace (upperBound s * (2 * 2 ^ Z.of_nat k))
        with (upperBound s * 2 * 2 ^ Z.of_nat k) by ring.
      split; assumption.
Qed.

(** Phase 2 over IDs that all exist ends on the upper one. *)
Lemma phase2_all_found (n : nat) :
  forall s : Phase2,
    (Z.to_nat (right s - left s + 1) <= n)%nat ->
    1 <= left s -> right s <= SAFETY_LIMIT ->
    (right s < left s -> maxValidId s = right s) ->
    phase2 c fetch n s = Some (right s).
Proof.
  induction n as [|n IH]; intros s Hn Hl Hr Hdone; cbn [phase2].
  - destruct (Z.ltb_spec (right s) (left s)); [f_equal; auto | lia].
  - destruct (Z.ltb_spec (right s) (left s)) as [Hlt | Hge]; [f_equal; auto|].
    pose proof (mid_bounds _ _ Hge) as Hmid.
    unfold phase2_step. rewrite Hall by lia.
    rewrite IH; cbn [left right maxValidId]; try lia. reflexivity.
Qed.

End FinderCapped.

Section FinderExtras.
Import Finder Search.



(** findMaxWhiskyId, non-404 errors in phase 1 (lines 584-592).  The
    exponential search has no exit on an error other than NOT_FOUND: it
    moves to the next ID.  On a source that answers every ID from
    [startId] upwards with such an error (the site is down, say) the
    function never returns, whatever the bound on its iterations. *)
Theorem findMaxWhiskyId_errors_never_return (c : Criteria) (fetch : Z -> Probe)
    (startId : Z) :
  (forall i, startId <= i -> fetch i = OtherError) ->
  forall fuel, findMaxWhiskyId c fetch fuel startId = None.
Proof.
  intros Hf fuel. unfold findMaxWhiskyId.
  rewrite (phase1_errors c fetch startId Hf); [reflexivity|].
  cbn [phase1_init upperBound]. lia.
Qed.

Lemma findMaxWhiskyId_errors_never_return_witness :
  findMaxWhiskyId scrape_criteria (fun _ => OtherError) 1000 1 = None.
Proof.
  apply (findMaxWhiskyId_errors_never_return scrape_criteria (fun _ => OtherError) 1).
  reflexivity.
Defined.

(** findMaxWhiskyId started beyond the last existing ID (lines 543-583 and
    619-645).  When no ID from [startId] upwards exists, the function
    returns [startId] itself, an ID that does not exist, within
    [max minConsecutive404s windowSize] iterations of each loop (window
    not empty, required rate at most 1). *)
Theorem findMaxWhiskyId_nothing_above_start (c : Criteria) (fetch : Z -> Probe)
    (startId : Z) (fuel : nat) :
  (1 <= windowSize c)%nat -> (min404Rate c <= 1)%Q ->
  (forall i, startId <= i -> fetch i = NotFound) ->
  (saturation c <= fuel)%nat ->
  findMaxWhiskyId c fetch fuel startId = Some startId
  /\ fetch startId = NotFound.
Proof.
  intros HW Hrate Hnone Hfuel. split.
  - now apply findMaxWhiskyId_dead_end.
  - apply Hnone. lia.
Qed.

Lemma findMaxWhiskyId_nothing_above_start_witness :
  findMaxWhiskyId scrape_criteria (threshold 100) 4500 101 = Some 101
  /\ threshold 100 101 = NotFound.
Proof.
  apply (findMaxWhiskyId_nothing_above_start scrape_criteria (threshold 100) 101 4500).
  - simpl. lia.
  - vm_compute. discriminate.
  - intros i Hi. unfold threshold.
    replace (i <=? 100) with false by (symmetry; apply Z.leb_gt; lia).
    now rewrite andb_false_r.
  - vm_compute. lia.
Defined.

(** findMaxWhiskyId on a source without errors (lines 503-660).  When no
    fetch fails with an error other than NOT_FOUND and
    [1 <= startId < 10,000,000], the function returns, whatever IDs exist:
    each successful probe of phase 1 raises the last valid ID, and
    [max minConsecutive404s windowSize] consecutive 404s end it.  The
    result lies between [startId] and the safety limit and is [startId] or
    an ID whose probe succeeded. *)
Theorem findMaxWhiskyId_returns_within_limit (c : Criteria) (fetch : Z -> Probe)
    (startId : Z) :
  (1 <= windowSize c)%nat -> (min404Rate c <= 1)%Q ->
  1 <= startId < SAFETY_LIMIT ->
  (forall i, fetch i <> OtherError) ->
  exists n r,
    (forall m, (n <= m)%nat -> findMaxWhiskyId c fetch m startId = Some r)
    /\ startId <= r <= SAFETY_LIMIT
    /\ (r = startId \/ fetch r = Found).
Proof.
  intros HW Hrate Hstart Hfetch. now apply findMaxWhiskyId_error_free.
Qed.

Lemma findMaxWhiskyId_returns_within_limit_witness :
  exists n r,
    (forall m, (n <= m)%nat ->
               findMaxWhiskyId example_criteria
                 (fun i => if Z.even i then Found else NotFound) m 3 = Some r)
    /\ 3 <= r <= SAFETY_LIMIT
    /\ (r = 3 \/ (if Z.even r then Found else NotFound) = Found).
Proof.
  apply (findMaxWhiskyId_returns_within_limit example_criteria
           (fun i => if Z.even i then Found else NotFound) 3).
  - simpl. lia.
  - vm_compute. discriminate.
  - vm_compute. split; [discriminate | reflexivity].
  - intros i. destruct (Z.even i); discriminate.
Defined.

(** findMaxWhiskyId and the safety limit (lines 533-541).  When every ID
    from 1 to 10,000,000 exists, phase 1 stops at the first
    doubling of [startId] whose double exceeds 10,000,000 and the function
    returns that ID, [startId * 2^k], which is at most 10,000,000: IDs
    above it are not reported however many exist. *)
Theorem findMaxWhiskyId_capped (c : Criteria) (fetch : Z -> Probe) (startId : Z) :
  (forall i, 1 <= i <= SAFETY_LIMIT -> fetch i = Found) ->
  1 <= startId <= SAFETY_LIMIT ->
  exists n k,
    (forall m, (n <= m)%nat ->
       findMaxWhiskyId c fetch m startId = Some (startId * 2 ^ Z.of_nat k))
    /\ startId * 2 ^ Z.of_nat k <= SAFETY_LIMIT < 2 * (startId * 2 ^ Z.of_nat k).
Proof.
  intros Hall Hs.
  destruct (phase1_all_found c fetch Hall (Z.to_nat (SAFETY_LIMIT - startId))
              (phase1_init startId))
    as (n1 & k & H1 & Hr); cbn [phase1_init upperBound] in *; try lia.
  set (r := startId * 2 ^ Z.of_nat k) in *.
  assert (Hge : startId <= r).
  { subst r. assert (1 <= 2 ^ Z.of_nat k) by (apply Z.pow_le_mono_r with (b := 0); lia).
    nia. }
  set (n2 := Z.to_nat (r - startId + 1)).
  pose proof (phase2_all_found c fetch Hall n2 (phase2_init startId r)) as H2.
  cbn [phase2_init left right maxValidId] in H2.
  exists (Nat.max n1 n2), k. split; [|exact Hr].
  intros m Hm. unfold findMaxWhiskyId.
  rewrite (phase1_mono c fetch n1 _ r H1 m) by lia.
  apply (phase2_mono c fetch n2 _ r); [|lia].
  apply H2; subst n2; lia.
Qed.

Lemma findMaxWhiskyId_capped_witness :
  exists n k,
    (forall m, (n <= m)%nat ->
       findMaxWhiskyId scrape_criteria (fun _ => Found) m 1
       = Some (1 * 2 ^ Z.of_nat k))
    /\ 1 * 2 ^ Z.of_nat k <= SAFETY_LIMIT < 2 * (1 * 2 ^ Z.of_nat k).
Proof.
  apply (findMaxWhiskyId_capped scrape_criteria (fun _ => Found) 1).
  - reflexivity.
  - vm_compute. split; discriminate.
Defined.

End FinderExtras.

(** ** scrape: further properties of the worker pool *)

Section ScanFacts.
Import Detector Pool Scan.
Context {R : Type}.
Implicit Types (s : Pool.State R) (e : Env) (o : Pool.Scraped R).

Lemma id_range_length (a : Z) (n : nat) : length (id_range a n) = n.
Proof. unfold id_range. now rewrite length_map, length_seq. Qed.

Lemma id_range_in (a : Z) (n : nat) (i : Z) :
  In i (id_range a n) <-> a <= i < a + Z.of_nat n.
Proof.
  unfold id_range. rewrite in_map_iff. split.
  - intros (k & <- & Hk). apply in_seq in Hk. lia.
  - intros H. exists (Z.to_nat (i - a)). split; [lia|]. apply in_seq. lia.
Qed.

Lemma id_range_nodup (a : Z) (n : nat) : NoDup (id_range a n).
Proof.
  unfold id_range. generalize (seq_NoDup n 0).
  induction 1 as [|k l Hk Hl IH]; simpl; constructor; [|exact IH].
  rewrite in_map_iff. intros (j & E & Hj).
  assert (j = k) by lia. subst. contradiction.
Qed.

Lemma beyond_mono (b : option Z) (i j : Z) :
  i <= j -> beyond b i = true -> beyond b j = true.
Proof.
  unfold beyond. destruct b as [m|]; [|discriminate].
  intros Hij H. apply andb_true_iff in H. destruct H as [H1 H2].
  apply Z.ltb_lt in H2. rewrite H1. simpl. apply Z.ltb_lt. lia.
Qed.

Lemma loop_head_frame e s :
  processedCount (fst (loop_head e s)) = processedCount s
  /\ batchBuffer (fst (loop_head e s)) = batchBuffer s
  /\ shouldStop (fst (loop_head e s)) = shouldStop s.
Proof.
  unfold loop_head. destruct (shouldStop s) eqn:Hs; [simpl; auto|].
  destruct (beyond (bound e) (nextId s)); simpl; auto.
Qed.

Lemma check_frame e s :
  processedCount (fst (check e s)) = processedCount s
  /\ batchBuffer (fst (check e s)) = batchBuffer s
  /\ (shouldStop s = true -> shouldStop (fst (check e s)) = true).
Proof.
  unfold check. destruct (should_stop (criteria e) (results s)); [simpl; auto|].
  destruct (loop_head_frame e s) as (H1 & H2 & H3).
  repeat split; congruence.
Qed.

Lemma after_fetch_frame e (currentId : Z) o s :
  processedCount (fst (after_fetch e currentId o s)) = S (processedCount s)
  /\ batchBuffer (fst (after_fetch e currentId o s))
     = fold_left (fun b data => Buffer.add data b) (handed_over e o) (batchBuffer s)
  /\ (shouldStop s = true -> shouldStop (fst (after_fetch e currentId o s)) = true).
Proof.
  unfold handed_over.
  destruct o as [data| | |]; unfold after_fetch.
  - set (s1 := push_result _ _).
    destruct (check_frame e s1) as (H1 & H2 & H3).
    rewrite H1, H2. subst s1. destruct (dry e); simpl; auto.
  - set (s1 := push_result _ _).
    destruct (loop_head_frame e s1) as (H1 & H2 & H3).
    rewrite H1, H2, H3. subst s1. destruct (dry e); simpl; auto.
  - set (s1 := push_result _ _).
    destruct (check_frame e s1) as (H1 & H2 & H3).
    rewrite H1, H2. subst s1. destruct (dry e); simpl; auto.
  - set (s1 := push_result _ _).
    destruct (check_frame e s1) as (H1 & H2 & H3).
    rewrite H1, H2. subst s1. destruct (dry e); simpl; auto.
Qed.

Lemma left_for_cause_step e s s1 (w w0 : Worker) :
  claims e s s1 w ->
  (shouldStop s = true -> shouldStop s1 = true) ->
  (left_for_cause e s w0 -> left_for_cause e s1 w0)
  /\ left_for_cause e s1 w.
Proof.
  intros Hc Hst. unfold left_for_cause.
  destruct Hc as [s1 H1 H2 | s1 H1 H2 H3].
  - rewrite H1. split; [|intros _; exact H2].
    intros H Hw. destruct (H Hw) as [H' | H']; auto.
  - split; [|discriminate].
    intros H Hw. destruct (H Hw) as [H' | H'].
    + rewrite (Hst H') in H2. discriminate.
    + congruence.
Qed.

Lemma fetching_length_one (w : Worker) (s s1 : Pool.State R) e :
  claims e s s1 w ->
  nextId s1 = nextId s + Z.of_nat (length (fetching [w])).
Proof. destruct 1 as [s1 H1 H2 | s1 H1 H2 H3]; simpl; lia. Qed.

Lemma claims_bound e s s1 (w : Worker) (m : Z) :
  claims e s s1 w -> bound e = Some m -> m <> 0 ->
  nextId s <= Z.max (first e) (m + 1) ->
  nextId s1 <= Z.max (first e) (m + 1).
Proof.
  intros Hc Hb Hm H. destruct Hc as [s1 H1 H2 | s1 H1 H2 H3]; [lia|].
  rewrite Hb in H3. simpl in H3.
  destruct (Z.eqb_spec m 0); [contradiction|]. simpl in H3.
  apply Z.ltb_ge in H3. lia.
Qed.

Lemma firstn_snoc {A : Type} (k : nat) (l : list A) (x : A) :
  exists k', firstn k l = firstn k' (l ++ [x]).
Proof.
  exists (Nat.min k (length l)).
  rewrite firstn_app. replace (Nat.min k (length l) - length l)%nat with 0%nat by lia.
  simpl. rewrite app_nil_r.
  destruct (Nat.le_ge_cases k (length l)) as [H | H].
  - now rewrite Nat.min_l.
  - rewrite Nat.min_r by exact H. rewrite !firstn_all2; [reflexivity | lia | exact H].
Qed.

Lemma init_tidy e (B : nat) : tidy e (init (R := R) e B).
Proof.
  unfold tidy, claimed. simpl.
  split; [lia|]. split; [reflexivity|]. split; [intros; lia|].
  split; [constructor | discriminate].
Qed.

Lemma spawn_tidy e (n : nat) s : tidy e s -> tidy e (spawn e n s).
Proof.
  revert s. induction n as [|n IH]; intros s Ht; simpl; [exact Ht|].
  destruct (loop_head e s) as [s1 w] eqn:Hl.
  destruct (loop_head_claims e s) as (Hc & Hres & Hws & _).
  destruct (loop_head_frame e s) as (Hpc & _ & Hst).
  rewrite Hl in Hc, Hres, Hws, Hpc, Hst. simpl in Hc, Hres, Hws, Hpc, Hst.
  apply IH. destruct Ht as (T1 & T2 & T3 & T4 & T5).
  unfold tidy, claimed. cbn [set_workers results workers nextId processedCount shouldStop].
  rewrite Hres, Hws, Hpc, Hst. repeat split.
  - rewrite fetching_app, app_assoc, length_app.
    fold (claimed s). rewrite (fetching_length_one w s s1 e Hc). lia.
  - exact T2.
  - intros m Hb Hm. eapply claims_bound; eauto.
  - assert (Hstop : shouldStop s = true -> shouldStop s1 = true) by congruence.
    apply Forall_app. split.
    + eapply Forall_impl; [|exact T4]. intros w0.
      apply (left_for_cause_step e s s1 w w0 Hc Hstop).
    + constructor; [|constructor].
      apply (left_for_cause_step e s s1 w w Hc Hstop).
  - exact T5.
Qed.

Lemma fetch_claimed e s s1 (pre post : list Worker) (currentId : Z) o (w : Worker) :
  workers s = pre ++ Fetching currentId :: post ->
  results s1 = results s ++ [logged currentId o] ->
  Permutation (claimed (set_workers (pre ++ w :: post) s1))
              (fetching [w] ++ claimed s).
Proof.
  intros Hws Hres. unfold claimed, set_workers. cbn [results workers].
  rewrite Hres, Hws, map_app, !fetching_app.
  rewrite (fetching_cons w post), (fetching_cons (Fetching currentId) post).
  rewrite <- !app_assoc.
  apply (perm_move (map id (results s)) (fetching pre)
           (fetching [w]) (fetching post) currentId).
Qed.

Lemma step_tidy e s s' : step e s s' -> tidy e s -> tidy e s'.
Proof.
  intros Hstep (T1 & T2 & T3 & T4 & T5).
  destruct Hstep as [s s1 pre post currentId o w Hws Haf | s ev Hev];
    [|repeat split; assumption].
  destruct (after_fetch_claims e currentId o s) as (Hc & Hres & Hws1 & _ & Hstop).
  destruct (after_fetch_frame e currentId o s) as (Hpc & _ & Hst).
  rewrite Haf in Hc, Hres, Hws1, Hpc, Hst, Hstop.
  simpl in Hc, Hres, Hws1, Hpc, Hst, Hstop.
  unfold tidy. split; [|split; [|split; [|split]]].
  - rewrite (Permutation_length (fetch_claimed e s s1 pre post currentId o w Hws Hres)).
    rewrite length_app. cbn [set_workers nextId].
    rewrite (fetching_length_one w s s1 e Hc). lia.
  - cbn [set_workers results processedCount]. rewrite Hpc, Hres, length_app, T2.
    simpl. lia.
  - intros m Hb Hm. cbn [set_workers nextId]. eapply claims_bound; eauto.
  - cbn [set_workers workers]. rewrite Hws in T4.
    apply Forall_app in T4. destruct T4 as [Tpre Tpost].
    inversion Tpost as [|x l _ Tpost' E]; subst.
    apply Forall_app. split; [|constructor].
    + eapply Forall_impl; [|exact Tpre]. intros w0.
      apply (left_for_cause_step e s s1 w w0 Hc Hst).
    + apply (left_for_cause_step e s s1 w w Hc Hst).
    + eapply Forall_impl; [|exact Tpost']. intros w0.
      apply (left_for_cause_step e s s1 w w0 Hc Hst).
  - cbn [set_workers shouldStop results]. intros H. rewrite Hres.
    destruct (Hstop H) as [H' | H'].
    + destruct (T5 H') as [k Hk].
      destruct (firstn_snoc k (results s) (logged currentId o)) as [k' Hk'].
      exists k'. now rewrite <- Hk'.
    + exists (length (results s ++ [logged currentId o])). now rewrite firstn_all.
Qed.

Lemma reachable_tidy e (B : nat) s : reachable e B s -> tidy e s.
Proof.
  induction 1 as [|s s' Hr IH Hstep].
  - apply spawn_tidy, init_tidy.
  - eapply step_tidy; eassumption.
Qed.

Lemma spawn_workers_length e (n : nat) s :
  length (workers (spawn e n s)) = (length (workers s) + n)%nat.
Proof.
  revert s. induction n as [|n IH]; intros s; simpl; [lia|].
  destruct (loop_head e s) as [s1 w] eqn:Hl.
  destruct (loop_head_claims e s) as (_ & _ & Hws & _).
  rewrite Hl in Hws. simpl in Hws.
  rewrite IH. simpl. rewrite length_app, Hws. simpl. lia.
Qed.

Lemma reachable_workers_length e (B : nat) s :
  reachable e B s -> length (workers s) = size e.
Proof.
  induction 1 as [|s s' Hr IH Hstep].
  - unfold start. rewrite spawn_workers_length. reflexivity.
  - destruct Hstep as [s s1 pre post currentId o w Hws Haf | s ev Hev];
      [|exact IH].
    simpl. rewrite Hws in IH. rewrite length_app in *. simpl in *. exact IH.
Qed.

Lemma settled_fetching (ws : list Worker) :
  forallb (fun w => match w with Fetching _ => false | _ => true end) ws = true ->
  fetching ws = [].
Proof.
  induction ws as [|w ws IH]; [reflexivity|]. simpl.
  intros H. apply andb_true_iff in H. destruct H as [H1 H2].
  destruct w; [discriminate | simpl; auto | simpl; auto].
Qed.

(** Claimed IDs are exactly those from [startId] up to [nextId]. *)
Lemma claimed_range e (B : nat) s :
  reachable e B s ->
  Permutation (claimed s) (id_range (first e) (Z.to_nat (nextId s - first e))).
Proof.
  intros Hr.
  destruct (reachable_sound e B s Hr) as ((Hnd & Hrange & _) & Hf).
  destruct (reachable_tidy e B s Hr) as (T1 & _).
  assert (Hincl : incl (claimed s) (id_range (first e) (Z.to_nat (nextId s - first e)))).
  { intros i Hi. rewrite Forall_forall in Hrange. specialize (Hrange i Hi).
    apply id_range_in. lia. }
  apply NoDup_Permutation; [exact Hnd | apply id_range_nodup|].
  intros i. split; [apply Hincl|].
  apply NoDup_length_incl; [exact Hnd | | exact Hincl].
  rewrite id_range_length. lia.
Qed.

Lemma handed_reachable e (B : nat) (h : list R) s :
  handed e B h s -> reachable e B s.
Proof.
  induction 1 as [|h s s1 pre post currentId o w Hh IH Hws Haf | h s ev Hh IH Hev].
  - constructor.
  - eapply reach_step; [exact IH|]. eapply step_fetch; eassumption.
  - eapply reach_step; [exact IH|]. now apply step_buffer.
Qed.

Lemma reachable_handed e (B : nat) s :
  reachable e B s -> exists h, handed e B h s.
Proof.
  induction 1 as [|s s' Hr [h IH] Hstep].
  - exists []. constructor.
  - destruct Hstep as [s s1 pre post currentId o w Hws Haf | s ev Hev].
    + eexists. eapply handed_fetch; eassumption.
    + exists h. now apply handed_buffer.
Qed.

Lemma spawn_batchBuffer e (n : nat) s :
  batchBuffer (spawn e n s) = batchBuffer s.
Proof.
  revert s. induction n as [|n IH]; intros s; simpl; [reflexivity|].
  destruct (loop_head e s) as [s1 w] eqn:Hl.
  destruct (loop_head_frame e s) as (_ & Hb & _).
  rewrite Hl in Hb. simpl in Hb. rewrite IH. exact Hb.
Qed.

Lemma handed_consistent e (B : nat) (h : list R) s :
  handed e B h s -> Buffer.consistent h (batchBuffer s).
Proof.
  induction 1 as [|h s s1 pre post currentId o w Hh IH Hws Haf | h s ev Hh IH Hev].
  - unfold start. rewrite spawn_batchBuffer. simpl.
    destruct (dry e); apply (consistent_new B).
  - destruct (after_fetch_frame e currentId o s) as (_ & Hb & _).
    rewrite Haf in Hb. simpl in Hb. cbn [set_workers batchBuffer]. rewrite Hb.
    unfold handed_over. destruct (dry e); [simpl; now rewrite app_nil_r|].
    destruct o; simpl; rewrite ?app_nil_r; try exact IH.
    apply add_consistent, IH.
  - cbn [set_batchBuffer batchBuffer].
    pose proof (step_consistent ev h (batchBuffer s) IH) as Hc.
    replace (Buffer.added [ev]) with (@nil R) in Hc; [now rewrite app_nil_r in Hc|].
    destruct ev; simpl; try reflexivity. now destruct (Hev data).
Qed.

Lemma untouched_step (b : Buffer.State R) (ev : Buffer.Event R) :
  (forall data, ev <> Buffer.Add data) ->
  untouched b -> untouched (Buffer.step b ev).
Proof.
  intros Hev (H1 & H2 & H3 & H4). destruct ev as [data| |f|]; simpl.
  - now destruct (Hev data).
  - unfold Buffer.tick. rewrite H1. simpl.
    destruct (Buffer.flushInterval b); repeat split; assumption.
  - unfold Buffer.settle. rewrite H2. simpl. repeat split; assumption.
  - repeat split; assumption.
Qed.



End ScanFacts.

Section ScanDry.
Import Detector Pool Scan.
Context {R : Type}.
Implicit Types (s : Pool.State R) (e : Env).

Lemma reachable_untouched e (B : nat) s :
  reachable e B s -> dry e = true -> untouched (batchBuffer s).
Proof.
  intros Hr Hd. induction Hr as [|s s' Hr IH Hstep].
  - unfold start. rewrite spawn_batchBuffer. simpl. rewrite Hd.
    repeat split.
  - destruct Hstep as [s s1 pre post currentId o w Hws Haf | s ev Hev].
    + destruct (after_fetch_frame e currentId o s) as (_ & Hb & _).
      rewrite Haf in Hb. simpl in Hb. cbn [set_workers batchBuffer].
      rewrite Hb. unfold handed_over. rewrite Hd. exact IH.
    + cbn [set_batchBuffer batchBuffer]. now apply untouched_step.
Qed.

Lemma two_ids_handed : handed two_ids 50 (([] ++ [7]) ++ []) two_ids_end.
Proof.
  unfold two_ids_end.
  apply (handed_fetch two_ids 50 ([] ++ [7])
           (resume two_ids 1 (Data 7) (start two_ids 50))
           (fst (after_fetch two_ids 2 NotFound
                   (resume two_ids 1 (Data 7) (start two_ids 50))))
           [] [] 2 NotFound
           (snd (after_fetch two_ids 2 NotFound
                   (resume two_ids 1 (Data 7) (start two_ids 50)))));
    [|reflexivity | reflexivity].
  apply (handed_fetch two_ids 50 [] (start two_ids 50)
           (fst (after_fetch two_ids 1 (Data 7) (start two_ids 50)))
           [] [] 1 (Data 7)
           (snd (after_fetch two_ids 1 (Data 7) (start two_ids 50))));
    [|reflexivity | reflexivity].
  apply handed_start.
Qed.

End ScanDry.

Section ScanExtras.
Import Detector Pool Scan.



(** scrape, how the pool ends (lines 734-822).  Once every worker has
    returned, either the stop flag is set, and then the 404 criteria held
    on the outcome log as it was at some moment, or a truthy maxId is in
    force and the log holds exactly the IDs from [startId] to [maxId],
    each once (none when [startId > maxId]).  A scan without a truthy
    maxId ends only through the 404 criteria. *)
Theorem pool_end_states {R : Type} (e : Env) (B : nat) (s : Pool.State R) :
  reachable e B s -> settled s = true -> (1 <= size e)%nat ->
  (shouldStop s = true
   /\ exists k, should_stop (criteria e) (firstn k (results s)) = true)
  \/ (exists m, bound e = Some m /\ m <> 0
      /\ Permutation (map id (results s))
           (id_range (first e) (Z.to_nat (m + 1 - first e)))).
Proof.
  intros Hr Hset Hsize.
  destruct (reachable_sound e B s Hr) as ((_ & _ & _ & Hthrew) & Hf).
  destruct (reachable_tidy e B s Hr) as (_ & _ & T3 & T4 & T5).
  pose proof (reachable_workers_length e B s Hr) as Hlen.
  pose proof (claimed_range e B s Hr) as Hperm.
  unfold settled in Hset. unfold claimed in Hperm.
  rewrite (settled_fetching _ Hset), app_nil_r in Hperm.
  destruct (workers s) as [|w ws] eqn:Hws; [simpl in Hlen; lia|].
  inversion Hthrew as [|x l Hw _ E]; subst.
  inversion T4 as [|x l Tw _ E]; subst.
  simpl in Hset. apply andb_true_iff in Hset. destruct Hset as [Hw' _].
  destruct w as [i| |]; [discriminate | | congruence].
  destruct (Tw eq_refl) as [Hstop | Hbeyond]; [left; auto|].
  right. unfold beyond in Hbeyond.
  destruct (bound e) as [m|] eqn:Hb; [|discriminate].
  apply andb_true_iff in Hbeyond. destruct Hbeyond as [Hm Hlt].
  apply Z.ltb_lt in Hlt.
  destruct (Z.eqb_spec m 0) as [|Hm0]; [discriminate|].
  exists m. split; [reflexivity|]. split; [exact Hm0|].
  specialize (T3 m eq_refl Hm0).
  replace (Z.to_nat (m + 1 - first e)) with (Z.to_nat (nextId s - first e)) by lia.
  exact Hperm.
Qed.

Lemma pool_end_states_witness :
  (shouldStop two_ids_end = true
   /\ exists k,
       should_stop (criteria two_ids) (firstn k (results two_ids_end)) = true)
  \/ (exists m, bound two_ids = Some m /\ m <> 0
      /\ Permutation (map id (results two_ids_end))
           (id_range (first two_ids) (Z.to_nat (m + 1 - first two_ids)))).
Proof.
  apply (pool_end_states two_ids 50 two_ids_end).
  - apply (handed_reachable two_ids 50 _ _ two_ids_handed).
  - reflexivity.
  - simpl. lia.
Defined.

(** scrape, after the stop flag (lines 740-745 and 803-812).  Once
    [shouldStop] is set it stays set and no worker claims another ID:
    every later step of the pool leaves [nextId] as it is, and a fetch
    that settles moves its ID from the fetches in flight to the log. *)
Theorem stop_is_final {R : Type} (e : Env) (s s' : Pool.State R) :
  step e s s' -> shouldStop s = true ->
  shouldStop s' = true
  /\ nextId s' = nextId s
  /\ Permutation (claimed s') (claimed s).
Proof.
  intros Hstep Hstop.
  destruct Hstep as [s s1 pre post currentId o w Hws Haf | s ev Hev];
    [|repeat split; auto].
  destruct (after_fetch_claims e currentId o s) as (Hc & Hres & _).
  destruct (after_fetch_frame e currentId o s) as (_ & _ & Hst).
  rewrite Haf in Hc, Hres, Hst. simpl in Hc, Hres, Hst.
  pose proof (fetch_claimed e s s1 pre post currentId o w Hws Hres) as Hp.
  specialize (Hst Hstop).
  destruct Hc as [s1 H1 H2 | s1 H1 H2 H3]; [|congruence].
  cbn [set_workers shouldStop nextId]. auto.
Qed.

Lemma stop_is_final_witness :
  shouldStop (resume two_ids 1 NotFound (set_shouldStop (start (R := Z) two_ids 50)))
  = true
  /\ nextId (resume two_ids 1 NotFound (set_shouldStop (start (R := Z) two_ids 50)))
     = nextId (set_shouldStop (start (R := Z) two_ids 50))
  /\ Permutation
       (claimed (resume two_ids 1 NotFound
                   (set_shouldStop (start (R := Z) two_ids 50))))
       (claimed (set_shouldStop (start (R := Z) two_ids 50))).
Proof.
  apply (stop_is_final two_ids).
  - apply (step_fetch two_ids (set_shouldStop (start two_ids 50))
             (fst (after_fetch two_ids 1 NotFound
                     (set_shouldStop (start two_ids 50))))
             [] [] 1 NotFound
             (snd (after_fetch two_ids 1 NotFound
                     (set_shouldStop (start two_ids 50)))));
      reflexivity.
  - reflexivity.
Defined.

(** scrape --dry-run (lines 725-731, 760-762 and 833-841).  In a dry run
    the batch buffer is never given a record: in every state the pool can
    reach nothing is buffered or in flight, no persistence call has been
    made and nothing was written; and no final progress row is written. *)
Theorem dry_run_writes_nothing {R : Type} (e : Env) (B : nat) (s : Pool.State R) :
  reachable e B s -> dry e = true ->
  Buffer.buffer (batchBuffer s) = []
  /\ Buffer.flushPromise (batchBuffer s) = None
  /\ Buffer.saveCalls (batchBuffer s) = []
  /\ Buffer.stored (batchBuffer s) = []
  /\ final_progress e s = None.
Proof.
  intros Hr Hd. destruct (reachable_untouched e B s Hr Hd) as (H1 & H2 & H3 & H4).
  repeat split; try assumption. unfold final_progress. now rewrite Hd.
Qed.

Lemma dry_run_writes_nothing_witness :
  Buffer.buffer (batchBuffer (start (R := Z)
                   {| criteria := scrape_criteria; bound := None;
                      dry := true; first := 1; size := 10 |} 50)) = []
  /\ Buffer.flushPromise (batchBuffer (start (R := Z)
                   {| criteria := scrape_criteria; bound := None;
                      dry := true; first := 1; size := 10 |} 50)) = None
  /\ Buffer.saveCalls (batchBuffer (start (R := Z)
                   {| criteria := scrape_criteria; bound := None;
                      dry := true; first := 1; size := 10 |} 50)) = []
  /\ Buffer.stored (batchBuffer (start (R := Z)
                   {| criteria := scrape_criteria; bound := None;
                      dry := true; first := 1; size := 10 |} 50)) = []
  /\ final_progress {| criteria := scrape_criteria; bound := None;
                       dry := true; first := 1; size := 10 |}
       (start (R := Z)
          {| criteria := scrape_criteria; bound := None;
             dry := true; first := 1; size := 10 |} 50) = None.
Proof.
  apply (dry_run_writes_nothing
           {| criteria := scrape_criteria; bound := None;
              dry := true; first := 1; size := 10 |} 50).
  - apply reach_start.
  - reflexivity.
Defined.

(** scrape, from the workers to the persistence layer (lines 748-762 and
    833-839).  Outside a dry run, the records the workers scraped, in the
    order in which their fetches completed, are exactly the records passed
    to saveWhiskyDataBatch by the time the final flushAll has returned,
    each in one batch, whatever the timer and the persistence calls did in
    between.  Every reachable state has such a history. *)
Theorem scraped_records_reach_persistence {R : Type} (e : Env) (B : nat)
    (h : list R) (s : Pool.State R) (fs : list Buffer.Fault) (fuel : nat) :
  handed e B h s -> (1 <= fuel)%nat ->
  reachable e B s
  /\ exists b',
      Buffer.flushAll fuel fs (batchBuffer s) = Some b'
      /\ Buffer.buffer b' = []
      /\ concat (Buffer.saveCalls b') = h.
Proof.
  intros Hh Hfuel. split; [eapply handed_reachable; eassumption|].
  pose proof (handed_consistent e B h s Hh) as Hc.
  destruct (flushAll_consistent fuel fs h (batchBuffer s) Hfuel Hc)
    as (b' & H1 & H2 & _ & H3 & _).
  exists b'. auto.
Qed.

Lemma scraped_records_reach_persistence_witness :
  reachable two_ids 50 two_ids_end
  /\ exists b',
      Buffer.flushAll 1 [] (batchBuffer two_ids_end) = Some b'
      /\ Buffer.buffer b' = []
      /\ concat (Buffer.saveCalls b') = ([] ++ [7]) ++ [].
Proof.
  apply (scraped_records_reach_persistence two_ids 50 _ two_ids_end [] 1).
  - exact two_ids_handed.
  - lia.
Defined.



End ScanExtras.

(** ** WhiskyScraper: properties *)

Section ScraperFacts.
Import Scraper.

Lemma index_loop_none (needle hay : list N) (i : nat) :
  index_loop needle hay i = None <-> includes needle hay = false.
Proof.
  unfold includes. revert i. induction hay as [|c hay IH]; intros i; simpl.
  - destruct (starts_with needle []); simpl; split; congruence.
  - destruct (starts_with needle (c :: hay)); simpl; [split; congruence|].
    apply IH.
Qed.

Lemma indexOf_none (needle hay : list N) :
  indexOf needle hay 0 = None <-> includes needle hay = false.
Proof. unfold indexOf. simpl. apply index_loop_none. Qed.

Lemma is404Page_no_attr (html : list N) :
  is404Page html = true ->
  includes whisky_attr html = false /\ includes bottle_attr html = false.
Proof.
  unfold is404Page.
  destruct (includes whisky_attr html), (includes bottle_attr html);
    simpl; try discriminate. auto.
Qed.

Lemma fetch_keeps (i : Z) (w : World) :
  writable (snd (fetchWhiskyPage i w)) = writable w
  /\ site (snd (fetchWhiskyPage i w)) = site w.
Proof.
  unfold fetchWhiskyPage, saveRawData, request.
  destruct (disk w i) as [html|].
  - destruct (is404Page html); auto.
  - destruct (site w i) as [r|]; [|auto]. simpl.
    destruct (writable w) eqn:Hw;
      destruct (status r =? 404); [auto | | auto |];
      destruct (negb (ok r)); simpl; auto.
Qed.

(** Every ID requested so far has its page on disk. *)
Lemma fetch_cached (i : Z) (w : World) :
  writable w = true -> (forall j, site w j <> None) ->
  NoDup (requests w) ->
  (forall j, In j (requests w) -> disk w j <> None) ->
  let w' := snd (fetchWhiskyPage i w) in
  NoDup (requests w')
  /\ (forall j, In j (requests w') -> disk w' j <> None)
  /\ (forall j, In j (requests w') -> In j (requests w) \/ j = i /\ disk w i = None)
  /\ (forall j, disk w j <> None -> disk w' j <> None).
Proof.
  intros Hw Hsite Hnd Hinv. unfold fetchWhiskyPage.
  destruct (disk w i) as [html|] eqn:Hd.
  - destruct (is404Page html); simpl; auto.
  - destruct (site w i) as [r|] eqn:Hs; [|now destruct (Hsite i)].
    assert (Hw2 : snd (if status r =? 404
                       then (NOT_FOUND, saveRawData i (body r) (request i w))
                       else if negb (ok r)
                            then (HttpError (status r),
                                  saveRawData i (body r) (request i w))
                            else (Page (body r),
                                  saveRawData i (body r) (request i w)))
                  = saveRawData i (body r) (request i w)).
    { destruct (status r =? 404); [reflexivity|]. now destruct (negb (ok r)). }
    cbv zeta. rewrite Hw2. unfold saveRawData, request. simpl. rewrite Hw. simpl.
    repeat split.
    + apply NoDup_app; [exact Hnd | repeat constructor; intros [] |].
      intros j Hj [<- | []]. apply (Hinv _ Hj). exact Hd.
    + intros j Hj. destruct (Z.eqb_spec j i); [discriminate|].
      apply in_app_or in Hj. destruct Hj as [Hj | [<- | []]]; [auto | congruence].
    + intros j Hj. apply in_app_or in Hj.
      destruct Hj as [Hj | [<- | []]]; auto.
    + intros j Hj. destruct (Z.eqb_spec j i); [discriminate | exact Hj].
Qed.

Lemma fetch_each_cached (ids : list Z) :
  forall w : World,
    writable w = true -> (forall j, site w j <> None) ->
    NoDup (requests w) ->
    (forall j, In j (requests w) -> disk w j <> None) ->
    NoDup (requests (snd (fetch_each ids w)))
    /\ (forall j, In j (requests (snd (fetch_each ids w))) ->
                  In j (requests w) \/ In j ids /\ disk w j = None).
Proof.
  induction ids as [|i ids IH]; intros w Hw Hsite Hnd Hinv; simpl; [auto|].
  destruct (fetch_cached i w Hw Hsite Hnd Hinv) as (H1 & H2 & H3 & H4).
  destruct (fetch_keeps i w) as [K1 K2].
  destruct (fetchWhiskyPage i w) as [o w1]. simpl in *.
  destruct (IH w1) as [I1 I2]; try assumption; try congruence.
  destruct (fetch_each ids w1) as [os w2]. simpl in *.
  split; [exact I1|]. intros j Hj.
  destruct (I2 j Hj) as [Hj' | [Hj' Hd]].
  - destruct (H3 j Hj') as [? | [-> ?]]; auto.
  - right. split; [auto|].
    destruct (disk w j) eqn:E; [|reflexivity].
    exfalso. apply (H4 j); congruence.
Qed.

(** *** The chain of replacements against the escaping *)

Lemma replace_loop_skip (pat rep u rest : list N) :
  replace_loop pat rep (length u) (u ++ rest) = replace_loop pat rep 0 rest.
Proof.
  induction u as [|c u IH]; simpl; [|exact IH].
  destruct rest; reflexivity.
Qed.

Lemma replace_loop_amp_free (p rep r rest : list N) :
  Forall (fun y => y <> 38%N) r ->
  replace_loop (38%N :: p) rep 0 (r ++ rest)
  = r ++ replace_loop (38%N :: p) rep 0 rest.
Proof.
  induction 1 as [|y r Hy _ IH]; [reflexivity|].
  cbn [app replace_loop starts_with].
  destruct (N.eqb_spec 38 y) as [E | _]; [congruence|].
  cbn [andb]. now rewrite IH.
Qed.

Lemma starts_with_app (u rest : list N) : starts_with u (u ++ rest) = true.
Proof.
  induction u as [|c u IH]; [reflexivity|]. simpl. now rewrite N.eqb_refl.
Qed.

Lemma replace_tokens (p rep : list N) (f g : N -> list N) :
  (forall c, f c = 38%N :: p /\ g c = rep
             \/ g c = f c /\ inert (38%N :: p) (f c)) ->
  forall s, replace_all (38%N :: p) rep (flat_map f s) = flat_map g s.
Proof.
  intros Htok. unfold replace_all.
  induction s as [|c s IH]; [reflexivity|].
  cbn [flat_map]. destruct (Htok c) as [[Hf Hg] | [Hg Hin]].
  - rewrite Hf, Hg.
    pose proof (starts_with_app (38%N :: p) (flat_map f s)) as Hs.
    change ((38%N :: p) ++ flat_map f s) with (38%N :: (p ++ flat_map f s)) in *.
    cbn [replace_loop]. rewrite Hs.
    replace (length (38%N :: p) - 1)%nat with (length p) by (simpl; lia).
    now rewrite replace_loop_skip, IH.
  - rewrite Hg. unfold inert in Hin.
    destruct (f c) as [|x r]; [contradiction|]. destruct Hin as [Hr Hno].
    change ((x :: r) ++ flat_map f s) with (x :: (r ++ flat_map f s)).
    cbn [replace_loop]. rewrite Hno.
    rewrite replace_loop_amp_free by exact Hr. now rewrite IH.
Qed.

Ltac special c :=
  destruct (N.eqb_spec c 38) as [->|?];
  [|destruct (N.eqb_spec c 34) as [->|?];
    [|destruct (N.eqb_spec c 39) as [->|?];
      [|destruct (N.eqb_spec c 60) as [->|?];
        [|destruct (N.eqb_spec c 62) as [->|?]]]]].

Lemma partly_plain (done : list N) (c : N) :
  c <> 38%N -> c <> 34%N -> c <> 39%N -> c <> 60%N -> c <> 62%N ->
  partly done c = [c].
Proof.
  intros H1 H2 H3 H4 H5. unfold partly, escape_char.
  destruct (existsb (N.eqb c) done); [reflexivity|].
  rewrite (proj2 (N.eqb_neq c 38) H1), (proj2 (N.eqb_neq c 34) H2),
    (proj2 (N.eqb_neq c 39) H3), (proj2 (N.eqb_neq c 60) H4),
    (proj2 (N.eqb_neq c 62) H5).
  reflexivity.
Qed.

Lemma inert_plain (p : list N) (c : N) : c <> 38%N -> inert (38%N :: p) [c].
Proof.
  intros Hc. split; [constructor|]. intros rest. cbn [app starts_with].
  destruct (N.eqb_spec 38 c); [congruence | reflexivity].
Qed.

Ltac token :=
  first
    [ left; split; reflexivity
    | right; split; [reflexivity|];
      split; [repeat constructor; discriminate | intros rest; reflexivity] ].

Lemma pass_tokens (p rep done : list N) (x : N) :
  forall (Hx : escape_char x = 38%N :: p) (Hrep : rep = [x]),
    (forall c, c = 38%N \/ c = 34%N \/ c = 39%N \/ c = 60%N \/ c = 62%N ->
               partly done c = 38%N :: p /\ partly (x :: done) c = rep
               \/ partly (x :: done) c = partly done c
                  /\ inert (38%N :: p) (partly done c)) ->
    forall s,
      replace_all (38%N :: p) rep (flat_map (partly done) s)
      = flat_map (partly (x :: done)) s.
Proof.
  intros Hx Hrep Hsp. apply replace_tokens. intros c.
  special c; try (apply Hsp; tauto).
  right. rewrite !partly_plain by assumption.
  split; [reflexivity | now apply inert_plain].
Qed.

Lemma unescape_escape_tokens (s : list N) :
  unescape (escape s) = flat_map (partly [38; 62; 60; 39; 34]%N) s.
Proof.
  unfold unescape, escape.
  change (flat_map escape_char s) with (flat_map (partly []) s).
  rewrite (pass_tokens [113; 117; 111; 116; 59]%N [34%N] [] 34%N eq_refl eq_refl)
    by (intros c [->|[->|[->|[->| ->]]]]; token).
  rewrite (pass_tokens [35; 48; 51; 57; 59]%N [39%N] [34%N] 39%N eq_refl eq_refl)
    by (intros c [->|[->|[->|[->| ->]]]]; token).
  rewrite (pass_tokens [108; 116; 59]%N [60%N] [39; 34]%N 60%N eq_refl eq_refl)
    by (intros c [->|[->|[->|[->| ->]]]]; token).
  rewrite (pass_tokens [103; 116; 59]%N [62%N] [60; 39; 34]%N 62%N eq_refl eq_refl)
    by (intros c [->|[->|[->|[->| ->]]]]; token).
  rewrite (pass_tokens [97; 109; 112; 59]%N [38%N] [62; 60; 39; 34]%N 38%N
             eq_refl eq_refl)
    by (intros c [->|[->|[->|[->| ->]]]]; token).
  reflexivity.
Qed.

Lemma partly_all (c : N) : partly [38; 62; 60; 39; 34]%N c = [c].
Proof.
  special c; try reflexivity. now apply partly_plain.
Qed.

End ScraperFacts.

Section ExtractFacts.
Import Scraper.

Lemma starts_with_nth (pat s : list N) :
  starts_with pat s = true ->
  forall k c, nth_error pat k = Some c -> nth_error s k = Some c.
Proof.
  revert s. induction pat as [|p pat IH]; intros s H k c Hk.
  - destruct k; discriminate.
  - destruct s as [|x s]; [discriminate|]. simpl in H.
    apply andb_true_iff in H. destruct H as [E H]. apply N.eqb_eq in E. subst x.
    destruct k as [|k]; simpl in *; [exact Hk | eapply IH; eassumption].
Qed.

Lemma index_loop_skip (needle a b : list N) (i : nat) :
  (forall j, (j < length a)%nat -> starts_with needle (skipn j (a ++ b)) = false) ->
  index_loop needle (a ++ b) i = index_loop needle b (i + length a).
Proof.
  revert i. induction a as [|x a IH]; intros i H; simpl.
  - now rewrite Nat.add_0_r.
  - pose proof (H 0%nat) as H0. simpl in H0. rewrite H0 by lia.
    rewrite IH; [f_equal; lia|].
    intros j Hj. apply (H (S j)). simpl. lia.
Qed.

Lemma index_loop_ge (needle s : list N) (i k : nat) :
  index_loop needle s i = Some k -> (i <= k)%nat.
Proof.
  revert i. induction s as [|x s IH]; intros i; simpl.
  - destruct (starts_with needle []); [intros [= <-]; lia | discriminate].
  - destruct (starts_with needle (x :: s)); [intros [= <-]; lia|].
    intros H. apply IH in H. lia.
Qed.

Lemma index_loop_here (needle s : list N) (i : nat) :
  starts_with needle s = true -> index_loop needle s i = Some i.
Proof. intros H. destruct s; simpl; now rewrite H. Qed.

Lemma skipn_past (a b : list N) (n : nat) :
  n = length a -> skipn n (a ++ b) = b.
Proof.
  intros ->. rewrite skipn_app, skipn_all, Nat.sub_diag. reflexivity.
Qed.

(** Inside the value and at its closing quote no [>] begins. *)
Lemma no_gt_inside (v0 rest : list N) (j : nat) :
  Forall (fun c => c <> QUOTE /\ c <> 62%N) v0 ->
  (j < length (v0 ++ [125%N; QUOTE]))%nat ->
  starts_with (code ">") (skipn j ((v0 ++ [125%N; QUOTE]) ++ rest)) = false.
Proof.
  intros Hv Hj.
  assert (Hall : Forall (fun c => c <> 62%N) (v0 ++ [125%N; QUOTE])).
  { apply Forall_app. split.
    - eapply Forall_impl; [|exact Hv]. now intros c [_ H].
    - repeat constructor; discriminate. }
  rewrite skipn_app.
  destruct (skipn j (v0 ++ [125%N; QUOTE])) as [|c u] eqn:E.
  - apply (f_equal (@length N)) in E. rewrite length_skipn in E. simpl in E. lia.
  - assert (Hc : c <> 62%N).
    { assert (Hin : In c (skipn j (v0 ++ [125%N; QUOTE]))) by (rewrite E; now left).
      rewrite Forall_forall in Hall.
      apply Hall. rewrite <- (firstn_skipn j (v0 ++ [125%N; QUOTE])).
      apply in_or_app. now right. }
    change (code ">") with [62%N]. cbn [app starts_with].
    destruct (N.eqb_spec 62 c); [congruence | reflexivity].
Qed.

(** Nor does the next attribute: its own quote would have to lie inside
    the value, or the closing brace inside its name. *)
Lemma no_attr_before_brace (x rest : list N) :
  Forall (fun c => c <> QUOTE /\ c <> 62%N) x ->
  starts_with current_attr (x ++ 125%N :: QUOTE :: rest) = false.
Proof.
  intros Hx.
  destruct (starts_with current_attr (x ++ 125%N :: QUOTE :: rest)) eqn:E;
    [|reflexivity].
  exfalso. pose proof (starts_with_nth _ _ E) as Hn.
  destruct (Nat.lt_ge_cases (length x) 10) as [Hlt | Hge].
  - assert (Hp : exists c, nth_error current_attr (length x) = Some c /\ c <> 125%N).
    { do 10 (destruct x as [|? x]; [eexists; split; [reflexivity | discriminate]|]).
      simpl in Hlt. lia. }
    destruct Hp as (c & Hc & Hne). specialize (Hn _ _ Hc).
    rewrite nth_error_app2, Nat.sub_diag in Hn by lia. simpl in Hn. congruence.
  - specialize (Hn 9%nat QUOTE eq_refl).
    rewrite nth_error_app1 in Hn by lia.
    apply nth_error_In in Hn. rewrite Forall_forall in Hx.
    destruct (Hx _ Hn) as [H _]. now apply H.
Qed.

Lemma no_attr_inside (v0 rest : list N) (j : nat) :
  Forall (fun c => c <> QUOTE /\ c <> 62%N) v0 ->
  (j < length (v0 ++ [125%N; QUOTE]))%nat ->
  starts_with current_attr (skipn j ((v0 ++ [125%N; QUOTE]) ++ rest)) = false.
Proof.
  intros Hv Hj. rewrite <- app_assoc. rewrite length_app in Hj. simpl in Hj.
  destruct (Nat.le_gt_cases j (length v0)) as [Hle | Hgt].
  - rewrite skipn_app.
    replace (j - length v0)%nat with 0%nat by lia. cbn [skipn app].
    apply no_attr_before_brace.
    rewrite <- (firstn_skipn j v0) in Hv. apply Forall_app in Hv. apply Hv.
  - rewrite skipn_app, skipn_all2 by lia.
    replace (j - length v0)%nat with 1%nat by lia. reflexivity.
Qed.

Lemma searchEnd_value (pre attr v0 rest : list N) :
  length attr = 9%nat ->
  Forall (fun c => c <> QUOTE /\ c <> 62%N) v0 ->
  starts_with (code ">") rest = true \/ starts_with current_attr rest = true ->
  searchEnd (pre ++ attr ++ (v0 ++ [125%N; QUOTE]) ++ rest) (length pre + 9)
  = (length pre + 9 + length v0 + 2)%nat.
Proof.
  intros Hattr Hv Hrest. unfold searchEnd, indexOf.
  rewrite app_assoc, skipn_past by (rewrite length_app; lia).
  rewrite !index_loop_skip
    by (intros j Hj; (now apply no_gt_inside) || (now apply no_attr_inside)).
  rewrite length_app. cbn [length].
  replace (length pre + 9 + (length v0 + 2))%nat
    with (length pre + 9 + length v0 + 2)%nat by lia.
  set (q := (length pre + 9 + length v0 + 2)%nat).
  destruct Hrest as [Hgt | Hat].
  - rewrite (index_loop_here _ _ q Hgt).
    destruct (index_loop current_attr rest q) as [a|] eqn:Ea; [|reflexivity].
    apply index_loop_ge in Ea. lia.
  - rewrite (index_loop_here _ _ q Hat).
    destruct (index_loop (code ">") rest q) as [g|] eqn:Eg; [|reflexivity].
    apply index_loop_ge in Eg. lia.
Qed.

Lemma literal_quote_after_brace (prefix rest : list N) :
  (5 <= length prefix)%nat ->
  literal_quote (prefix ++ 125%N :: QUOTE :: rest) (length prefix + 1) = true.
Proof.
  intros Hlen. unfold literal_quote, char_is.
  rewrite nth_error_app2 by lia.
  replace (length prefix + 1 - length prefix)%nat with 1%nat by lia.
  cbn [nth_error]. rewrite N.eqb_refl. cbn [andb].
  assert (Hb : exists b0 b1 b2 b3 b4,
             Js.slice (length prefix + 1 - 6) (length prefix + 1)
               (prefix ++ 125%N :: QUOTE :: rest)
             = [b0; b1; b2; b3; b4; 125%N]).
  { unfold Js.slice.
    replace (length prefix + 1 - (length prefix + 1 - 6))%nat with 6%nat by lia.
    rewrite skipn_app.
    replace (length prefix + 1 - 6 - length prefix)%nat with 0%nat by lia.
    cbn [skipn].
    pose proof (length_skipn (length prefix + 1 - 6) prefix) as Hl.
    destruct (skipn (length prefix + 1 - 6) prefix)
      as [|b0 [|b1 [|b2 [|b3 [|b4 [|b5 t]]]]]]; simpl in Hl; try lia.
    exists b0, b1, b2, b3, b4. reflexivity. }
  destruct Hb as (b0 & b1 & b2 & b3 & b4 & ->).
  assert (E1 : str_eqb [b0; b1; b2; b3; b4; 125%N] (code "&quot;") = false).
  { change (code "&quot;") with [38; 113; 117; 111; 116; 59]%N.
    cbn [str_eqb]. change (125 =? 59)%N with false.
    now rewrite !andb_false_r. }
  rewrite E1. reflexivity.
Qed.

Lemma valueEnd_value (prefix rest : list N) (valueStart : nat) :
  (5 <= length prefix)%nat -> (valueStart + 1 <= length prefix + 1)%nat ->
  valueEnd (prefix ++ 125%N :: QUOTE :: rest) valueStart (length prefix + 2)
  = Some (length prefix + 1)%nat.
Proof.
  intros Hlen Hvs. unfold valueEnd.
  replace (length prefix + 2)%nat with (S (length prefix + 1)) by lia.
  cbn [last_below].
  replace (valueStart + 1 <=? length prefix + 1)%nat with true
    by (symmetry; apply Nat.leb_le; lia).
  rewrite literal_quote_after_brace by exact Hlen.
  replace (0 <? length prefix + 1)%nat with true
    by (symmetry; apply Nat.ltb_lt; lia).
  unfold char_is.
  replace (length prefix + 1 - 1)%nat with (length prefix) by lia.
  rewrite nth_error_app2, Nat.sub_diag by lia. reflexivity.
Qed.

End ExtractFacts.

Section ScraperExtras.
Import Scraper ScraperExamples.

(** fetchWhiskyPage, the disk cache (lines 172-223 and 925-934 of
    unnamed/part_002).  Over any sequence of calls, as long as the raw-data
    directory is writable and every request is answered, each ID is
    requested from the site at most once, and only if its page was not on
    disk at the start: every later call for it is served from disk. *)
Theorem each_id_requested_once (ids : list Z) (w : World) :
  writable w = true -> (forall j, site w j <> None) -> requests w = [] ->
  NoDup (requests (snd (fetch_each ids w)))
  /\ forall j, In j (requests (snd (fetch_each ids w))) ->
               In j ids /\ disk w j = None.
Proof.
  intros Hw Hsite Hreq.
  destruct (fetch_each_cached ids w Hw Hsite) as [H1 H2].
  - rewrite Hreq. constructor.
  - rewrite Hreq. intros j [].
  - split; [exact H1|]. intros j Hj.
    destruct (H2 j Hj) as [Hin | H]; [|exact H].
    rewrite Hreq in Hin. destruct Hin.
Qed.

Lemma each_id_requested_once_witness :
  NoDup (requests (snd (fetch_each [5; 6; 5; 6; 5] down)))
  /\ forall j, In j (requests (snd (fetch_each [5; 6; 5; 6; 5] down))) ->
               In j [5; 6; 5; 6; 5] /\ disk down j = None.
Proof.
  apply (each_id_requested_once [5; 6; 5; 6; 5] down).
  - reflexivity.
  - intros j. discriminate.
  - reflexivity.
Defined.

(** fetchWhiskyPage, first call and later calls (lines 172-223).  For a
    page that is not on disk, the first call decides by the HTTP status
    (404: NOT_FOUND; another status outside 200-299: an HTTP error; else
    the page) and stores the body whatever the status.  Every later call
    decides by the stored body alone, without a request: NOT_FOUND if
    is404Page holds of it, else the body as the page.  So an HTTP error is
    reported once, and a 200 page that looks like a 404 page is returned
    once and is NOT_FOUND from then on. *)
Theorem fetch_by_status_then_by_content (whiskyId : Z) (w : World) (r : Response) :
  disk w whiskyId = None -> site w whiskyId = Some r -> writable w = true ->
  fst (fetchWhiskyPage whiskyId w)
  = (if status r =? 404 then NOT_FOUND
     else if ok r then Page (body r) else HttpError (status r))
  /\ requests (snd (fetchWhiskyPage whiskyId w)) = requests w ++ [whiskyId]
  /\ forall w2,
      disk w2 whiskyId = disk (snd (fetchWhiskyPage whiskyId w)) whiskyId ->
      fetchWhiskyPage whiskyId w2
      = (if is404Page (body r) then NOT_FOUND else Page (body r), w2).
Proof.
  intros Hd Hs Hw. unfold fetchWhiskyPage at 1 2 3. rewrite Hd, Hs. cbv zeta.
  assert (Hsave : disk (saveRawData whiskyId (body r) (request whiskyId w)) whiskyId
                  = Some (body r)
                  /\ requests (saveRawData whiskyId (body r) (request whiskyId w))
                     = requests w ++ [whiskyId]).
  { unfold saveRawData, request. simpl. rewrite Hw. simpl.
    now rewrite Z.eqb_refl. }
  destruct Hsave as [Hdisk Hreq].
  destruct (status r =? 404); [|destruct (ok r)]; simpl;
    (split; [reflexivity|]); (split; [exact Hreq|]);
    intros w2 H2; unfold fetchWhiskyPage; rewrite H2, Hdisk;
    now destruct (is404Page (body r)).
Qed.

Lemma fetch_by_status_then_by_content_witness :
  fst (fetchWhiskyPage 7 down) = HttpError 500
  /\ requests (snd (fetchWhiskyPage 7 down)) = [7]
  /\ forall w2,
      disk w2 7 = disk (snd (fetchWhiskyPage 7 down)) 7 ->
      fetchWhiskyPage 7 w2 = (Page (code "WB1 try again later"), w2).
Proof.
  apply (fetch_by_status_then_by_content 7 down
           {| status := 500; body := code "WB1 try again later" |});
    reflexivity.
Defined.

(** scrapeWhisky, when it signals NOT_FOUND (lines 172-260 and 939-952).
    The worker logs an ID as a 404 exactly when: the page is on disk and
    is404Page holds of it; or it is not on disk, the site answers, and
    either the status is 404 or the status is in 200-299 and is404Page
    holds of the body.  A page that carries a [:whisky=] or [:bottle=]
    attribute is never a 404, whatever JSON.parse makes of it. *)
Theorem scrapeWhisky_not_found_iff {J P : Type} (parse : list N -> option J)
    (fields : J -> list N -> Z -> option P) (whiskyId : Z) (w : World) :
  fst (scrapeWhisky parse fields whiskyId w) = Pool.NotFound
  <-> match disk w whiskyId with
      | Some html => is404Page html = true
      | None =>
          exists r, site w whiskyId = Some r
                    /\ (status r = 404
                        \/ ok r = true /\ is404Page (body r) = true)
      end.
Proof.
  assert (Hparse : forall html,
             parseWhiskyPage parse fields html whiskyId = Pool.NotFound
             <-> is404Page html = true).
  { intros html. unfold parseWhiskyPage. split.
    - destruct (extractJsonData parse html) as [j|].
      + destruct (fields j html whiskyId); discriminate.
      + destruct (is404Page html); [reflexivity | discriminate].
    - intros H. destruct (is404Page_no_attr html H) as [H1 H2].
      unfold extractJsonData, attrStart.
      rewrite (proj2 (indexOf_none _ _) H1), (proj2 (indexOf_none _ _) H2).
      now rewrite H. }
  unfold scrapeWhisky, fetchWhiskyPage.
  destruct (disk w whiskyId) as [html|].
  - destruct (is404Page html) eqn:E; simpl; [tauto|].
    rewrite Hparse, E. tauto.
  - destruct (site w whiskyId) as [r|]; simpl.
    + destruct (Z.eqb_spec (status r) 404) as [E404 | E404]; simpl.
      * split; [|reflexivity]. intros _. exists r. auto.
      * destruct (ok r) eqn:Eok; simpl.
        -- rewrite Hparse. split.
           ++ intros H. exists r. auto.
           ++ intros (r' & [= <-] & [H | [_ H]]); [contradiction | exact H].
        -- split; [discriminate|].
           intros (r' & [= <-] & [H | [H _]]); [contradiction | congruence].
    + split; [discriminate|]. intros (r & H & _). discriminate.
Qed.

(** extractJsonData, the entity decoding (lines 577-582).  The chain of
    replacements undoes exactly one level of HTML escaping: for every text
    [s], decoding the text in which [&], the double quote, the single
    quote, [<] and [>] were replaced by [&amp;], [&quot;], [&#039;],
    [&lt;] and [&gt;] gives [s] back; [&amp;] is decoded last, so an
    escaped [&quot;] in the JSON stays an entity. *)
Theorem unescape_escape (s : list N) : unescape (escape s) = s.
Proof.
  rewrite unescape_escape_tokens.
  induction s as [|c s IH]; [reflexivity|].
  cbn [flat_map]. rewrite partly_all, IH. reflexivity.
Qed.

(** extractJsonData, the intended path (lines 510-588).  When the
    attribute ([:whisky=] or [:bottle=]) starts at the end of [pre], its
    value holds no double quote and no [>] and ends with a closing brace,
    and the closing quote is followed by [>] or by [ current=], the
    function returns what JSON.parse makes of the value with its entities
    decoded. *)
Theorem extractJsonData_value {J : Type} (parse : list N -> option J)
    (pre attr v0 rest : list N) :
  attr = whisky_attr \/ attr = bottle_attr ->
  attrStart (pre ++ attr ++ (v0 ++ [125%N; QUOTE]) ++ rest) = Some (length pre) ->
  Forall (fun c => c <> QUOTE /\ c <> 62%N) v0 ->
  starts_with (code ">") rest = true \/ starts_with current_attr rest = true ->
  extractJsonData parse (pre ++ attr ++ (v0 ++ [125%N; QUOTE]) ++ rest)
  = parse (unescape (v0 ++ [125%N])).
Proof.
  intros Hattr Hstart Hv Hrest.
  assert (Hlen : length attr = 9%nat) by (destruct Hattr; subst; reflexivity).
  unfold extractJsonData. rewrite Hstart.
  rewrite (searchEnd_value pre attr v0 rest Hlen Hv Hrest).
  assert (Hhtml : pre ++ attr ++ (v0 ++ [125%N; QUOTE]) ++ rest
                  = (pre ++ attr ++ v0) ++ 125%N :: QUOTE :: rest).
  { now rewrite <- !app_assoc. }
  assert (Hpl : length (pre ++ attr ++ v0) = (length pre + 9 + length v0)%nat).
  { rewrite !length_app. lia. }
  rewrite Hhtml.
  replace (length pre + 9 + length v0 + 2)%nat
    with (length (pre ++ attr ++ v0) + 2)%nat by lia.
  rewrite valueEnd_value by lia.
  unfold Js.slice.
  replace (length (pre ++ attr ++ v0) + 1 - (length pre + 9))%nat
    with (length (v0 ++ [125%N])) by (rewrite length_app; simpl; lia).
  replace ((pre ++ attr ++ v0) ++ 125%N :: QUOTE :: rest)
    with ((pre ++ attr) ++ (v0 ++ [125%N]) ++ QUOTE :: rest)
    by (now rewrite <- !app_assoc).
  rewrite skipn_past by (rewrite length_app; lia).
  rewrite firstn_app, firstn_all, Nat.sub_diag. cbn [firstn]. rewrite app_nil_r.
  destruct v0; reflexivity.
Qed.

Lemma extractJsonData_value_witness :
  extractJsonData Some
    (code "<div " ++ whisky_attr
     ++ (code "{&quot;id&quot;:1" ++ [125%N; QUOTE]) ++ code ">x")
  = Some (unescape (code "{&quot;id&quot;:1" ++ [125%N])).
Proof.
  apply (extractJsonData_value Some (code "<div ") whisky_attr
           (code "{&quot;id&quot;:1") (code ">x")).
  - left. reflexivity.
  - reflexivity.
  - vm_compute. repeat constructor; discriminate.
  - left. reflexivity.
Defined.

End ScraperExtras.

(** ** The stopping condition of the pool: further properties *)

Section DetectorExtras.
Import Detector Pool Scan.

Lemma reach_resume {R : Type} (e : Env) (B : nat) (s : Pool.State R)
    (currentId : Z) (o : Pool.Scraped R) :
  reachable e B s -> workers s = [Fetching currentId] ->
  reachable e B (resume e currentId o s).
Proof.
  intros Hr Hws. eapply reach_step; [exact Hr|]. unfold resume.
  eapply (step_fetch e s _ [] [] currentId o _ Hws).
  apply surjective_pairing.
Qed.

Lemma leading404s_le (l : list Result) :
  (leading404s l <= length (filter is404 l))%nat.
Proof.
  induction l as [|r l IH]; simpl; [lia|].
  destruct (is404 r); simpl; lia.
Qed.

Lemma filter_perm_length (l1 l2 : list Result) :
  Permutation l1 l2 ->
  length (filter is404 l1) = length (filter is404 l2).
Proof.
  induction 1 as [|x l l' Hp IH|x y l|l l' l'' Hp1 IH1 Hp2 IH2]; simpl.
  - reflexivity.
  - destruct (is404 x); simpl; lia.
  - destruct (is404 x), (is404 y); simpl; lia.
  - lia.
Qed.

Lemma filter_app_length (a b : list Result) :
  length (filter is404 (a ++ b))
  = (length (filter is404 a) + length (filter is404 b))%nat.
Proof. now rewrite filter_app, length_app. Qed.

Lemma should_stop_counts (c : Criteria) (results : list Result) :
  should_stop c results = true ->
  (windowSize c <= length results)%nat
  /\ (minConsecutive404s c <= length (filter is404 results))%nat.
Proof.
  intros H. apply should_stop_spec in H. destruct H as (Hw & Hc & _).
  split; [exact Hw|].
  unfold consecutive404s, recentResults in Hc.
  destruct (slice_last_split (windowSize c) (sort results)) as [d Hd].
  pose proof (leading404s_le (rev (Js.slice_last (windowSize c) (sort results)))) as H1.
  rewrite (filter_perm_length _ _ (Permutation_sym (Permutation_rev _))) in H1.
  pose proof (filter_perm_length _ _ (sort_perm results)) as H2.
  rewrite Hd, filter_app_length in H2. lia.
Qed.

Lemma sorted_last_max (l : list Result) (r : Result) :
  In r l ->
  (forall r', In r' l -> id r' < id r \/ r' = r) ->
  exists a, sort l = a ++ [r].
Proof.
  intros Hin Hmax.
  pose proof (sort_sorted l) as Hs. pose proof (sort_perm l) as Hp.
  assert (Hne : sort l <> []).
  { intros E. rewrite E in Hp. apply Permutation_sym, Permutation_nil in Hp.
    subst. destruct Hin. }
  destruct (exists_last Hne) as (a & x & E). rewrite E in *.
  exists a. f_equal. f_equal.
  assert (Hx : In x l).
  { eapply Permutation_in; [apply Permutation_sym, Hp|].
    apply in_or_app. right. now left. }
  assert (Hr : In r (a ++ [x])) by (eapply Permutation_in; eassumption).
  apply in_app_or in Hr. destruct Hr as [Hr | [Hr | []]]; [|exact Hr].
  pose proof (sorted_app_le a [x] Hs r x Hr (or_introl eq_refl)) as Hle.
  destruct (Hmax x Hx) as [Hlt | Heq]; [lia | exact Heq].
Qed.

Lemma slice_last_snoc (n : nat) (a : list Result) (r : Result) :
  exists b, Js.slice_last n (a ++ [r]) = b ++ [r].
Proof.
  destruct n as [|n]; [exists a; reflexivity|].
  unfold Js.slice_last. rewrite length_app. simpl.
  exists (skipn (length a + 1 - S n) a).
  rewrite skipn_app.
  replace (length a + 1 - S n - length a)%nat with 0%nat by lia.
  reflexivity.
Qed.

(** The stopping condition (lines 786-813).  It cannot hold while the
    outcome with the highest ID in the log is not a 404 (for
    [minConsecutive404s >= 1]), however many 404s the log holds: the
    consecutive 404s are counted down from the highest ID. *)
Theorem should_stop_needs_404_on_top (c : Criteria) (results : list Result)
    (r : Result) :
  (1 <= minConsecutive404s c)%nat ->
  In r results -> is404 r = false ->
  (forall r', In r' results -> id r' < id r \/ r' = r) ->
  should_stop c results = false.
Proof.
  intros Hmin Hin H404 Hmax.
  unfold should_stop.
  destruct (windowSize c <=? length results)%nat; [|reflexivity].
  unfold criteria_met, consecutive404s, recentResults.
  destruct (sorted_last_max results r Hin Hmax) as [a Ha]. rewrite Ha.
  destruct (slice_last_snoc (windowSize c) a r) as [b Hb]. rewrite Hb.
  rewrite rev_app_distr. simpl. rewrite H404.
  destruct (Nat.leb_spec (minConsecutive404s c) 0); [lia | reflexivity].
Qed.

Lemma should_stop_needs_404_on_top_witness :
  should_stop example_criteria
    [ {| id := 1; is404 := true |}; {| id := 2; is404 := true |};
      {| id := 3; is404 := true |}; {| id := 4; is404 := true |};
      {| id := 6; is404 := false |}; {| id := 5; is404 := true |} ] = false.
Proof.
  apply (should_stop_needs_404_on_top example_criteria _
           {| id := 6; is404 := false |}).
  - simpl. lia.
  - simpl. tauto.
  - reflexivity.
  - intros r' [<-|[<-|[<-|[<-|[<-|[<-|[]]]]]]]; simpl; (left; lia) || (right; reflexivity).
Defined.

(** scrape, when the pool may stop (lines 786-813).  In every state the
    pool can reach with the stop flag set, at least [windowSize] outcomes
    have been logged and at least [minConsecutive404s] of them are 404s:
    with the constants of the source, no scan stops on the 404 criteria
    before 4500 IDs were processed, 3000 of them 404s. *)
Theorem pool_stops_late {R : Type} (e : Env) (B : nat) (s : Pool.State R) :
  reachable e B s -> shouldStop s = true ->
  (windowSize (criteria e) <= length (results s))%nat
  /\ (minConsecutive404s (criteria e) <= length (filter is404 (results s)))%nat.
Proof.
  intros Hr Hstop.
  destruct (reachable_tidy e B s Hr) as (_ & _ & _ & _ & T5).
  destruct (T5 Hstop) as [k Hk].
  destruct (should_stop_counts _ _ Hk) as [H1 H2].
  pose proof (firstn_skipn k (results s)) as E.
  pose proof (filter_app_length (firstn k (results s)) (skipn k (results s))) as F.
  pose proof (length_app (firstn k (results s)) (skipn k (results s))) as L.
  rewrite E in F, L. lia.
Qed.

Lemma pool_stops_late_witness :
  (windowSize (criteria stopping) <= length (results stopping_end))%nat
  /\ (minConsecutive404s (criteria stopping)
      <= length (filter is404 (results stopping_end)))%nat.
Proof.
  apply (pool_stops_late stopping 50 stopping_end).
  - unfold stopping_end.
    repeat (apply reach_resume; [|reflexivity]). apply reach_start.
  - reflexivity.
Defined.

End DetectorExtras.

(** ** scrape fed by scrapeWhisky *)

Section RunFacts.
Import Detector Pool Scan Scraper Run.
Context {J P : Type}.
Variable parse : list N -> option J.
Variable fields : J -> list N -> Z -> option P.




End RunFacts.

Section RunExtras.
Import Detector Pool Scan Scraper Run.




End RunExtras.

(** ** saveWhiskyDataBatch: the pricing and rating tables *)

Section PersistFacts.
Import Persist.
Context {D X : Type}.
Variable key : D -> Z.
Variable part : D -> option X.
Variable merge : X -> X -> X.

Lemma has_in (ids : list Z) (i : Z) : has ids i = true <-> In i ids.
Proof.
  unfold has. rewrite existsb_exists. split.
  - intros (j & Hj & E). apply Z.eqb_eq in E. now subst.
  - intros H. exists i. split; [exact H | apply Z.eqb_refl].
Qed.

Lemma update_row_keys (row : Z * X) (t : list (Z * X)) :
  map fst (update_row merge row t) = map fst t.
Proof.
  unfold update_row. rewrite map_map. apply map_ext_in. intros r _.
  now destruct (Z.eqb_spec (fst r) (fst row)).
Qed.

Lemma update_row_in (k : Z) (old x : X) (t : list (Z * X)) :
  In (k, old) t -> In (k, merge old x) (update_row merge (k, x) t).
Proof.
  intros H. unfold update_row. apply in_map_iff. exists (k, old).
  split; [|exact H]. simpl. now rewrite Z.eqb_refl.
Qed.

Lemma update_row_other (row r : Z * X) (t : list (Z * X)) :
  fst r <> fst row -> In r t -> In r (update_row merge row t).
Proof.
  intros Hne Hr. unfold update_row. apply in_map_iff. exists r.
  split; [|exact Hr]. destruct (Z.eqb_spec (fst r) (fst row)); congruence.
Qed.

Lemma fold_updates (us : list (Z * X)) :
  forall t : list (Z * X),
    NoDup (map fst us) ->
    map fst (fold_left (fun t row => update_row merge row t) us t) = map fst t
    /\ (forall k x old, In (k, x) us -> In (k, old) t ->
           In (k, merge old x)
              (fold_left (fun t row => update_row merge row t) us t))
    /\ (forall r, (forall u, In u us -> fst u <> fst r) -> In r t ->
                  In r (fold_left (fun t row => update_row merge row t) us t)).
Proof.
  induction us as [|u0 us IH]; intros t Hnd; simpl.
  - repeat split; auto. intros k x old [].
  - simpl in Hnd. inversion Hnd as [|? ? Hnot Hnd']; subst.
    destruct (IH (update_row merge u0 t) Hnd') as (K & U & O).
    rewrite K, update_row_keys. repeat split.
    + intros k x old [-> | Hu] Hold.
      * apply O.
        -- intros u Hu E. apply Hnot. simpl in E. simpl. rewrite <- E.
           now apply in_map.
        -- now apply update_row_in.
      * apply U; [exact Hu|]. apply update_row_other; [|exact Hold].
        simpl. intros E. apply Hnot. rewrite <- E.
        change k with (fst (k, x)). now apply in_map.
    + intros r Hr Hrt. apply O.
      * intros u Hu. apply Hr. now right.
      * apply update_row_other; [|exact Hrt].
        intros E. apply (Hr u0); [now left | congruence].
Qed.

Lemma split_update_in (existingIds : list Z) (batch : list D) (k : Z) (x : X) :
  In (k, x) (fst (split key part existingIds batch)) <->
  In k existingIds /\ exists d, In d batch /\ key d = k /\ part d = Some x.
Proof.
  induction batch as [|d rest IH]; simpl.
  - split; [intros [] | intros (_ & d & [] & _)].
  - destruct (split key part existingIds rest) as [toUpdate toInsert].
    simpl in IH.
    destruct (part d) as [x0|] eqn:Hp.
    + destruct (has existingIds (key d)) eqn:Hh; simpl.
      * apply has_in in Hh. split.
        -- intros [E | H]; [injection E as <- <-; eauto 6|].
           apply IH in H. destruct H as (H1 & d0 & H2 & H3). eauto 6.
        -- intros (Hk & d0 & [<- | Hd0] & E & Hx).
           ++ left. congruence.
           ++ right. apply IH. eauto.
      * assert (Hn : ~ In (key d) existingIds).
        { intros H. apply has_in in H. congruence. }
        rewrite IH. split.
        -- intros (H1 & d0 & H2 & H3). eauto 6.
        -- intros (Hk & d0 & [<- | Hd0] & E & Hx); [subst; contradiction|].
           eauto.
    + simpl. rewrite IH. split.
      * intros (H1 & d0 & H2 & H3). eauto 6.
      * intros (Hk & d0 & [<- | Hd0] & E & Hx); [congruence|]. eauto.
Qed.

Lemma split_insert_in (existingIds : list Z) (batch : list D) (k : Z) (x : X) :
  In (k, x) (snd (split key part existingIds batch)) <->
  ~ In k existingIds /\ exists d, In d batch /\ key d = k /\ part d = Some x.
Proof.
  induction batch as [|d rest IH]; simpl.
  - split; [intros [] | intros (_ & d & [] & _)].
  - destruct (split key part existingIds rest) as [toUpdate toInsert].
    simpl in IH.
    destruct (part d) as [x0|] eqn:Hp.
    + destruct (has existingIds (key d)) eqn:Hh; simpl.
      * apply has_in in Hh. rewrite IH. split.
        -- intros (H1 & d0 & H2 & H3). eauto 6.
        -- intros (Hk & d0 & [<- | Hd0] & E & Hx); [subst; contradiction|].
           eauto.
      * assert (Hn : ~ In (key d) existingIds).
        { intros H. apply has_in in H. congruence. }
        split.
        -- intros [E | H]; [injection E as <- <-; eauto 6|].
           apply IH in H. destruct H as (H1 & d0 & H2 & H3). eauto 6.
        -- intros (Hk & d0 & [<- | Hd0] & E & Hx).
           ++ left. congruence.
           ++ right. apply IH. eauto.
    + simpl. rewrite IH. split.
      * intros (H1 & d0 & H2 & H3). eauto 6.
      * intros (Hk & d0 & [<- | Hd0] & E & Hx); [congruence|]. eauto.
Qed.

Lemma split_keys (existingIds : list Z) (batch : list D) :
  incl (map fst (fst (split key part existingIds batch))) (map key batch)
  /\ incl (map fst (snd (split key part existingIds batch))) (map key batch).
Proof.
  induction batch as [|d rest IH]; simpl.
  - split; intros k [].
  - destruct (split key part existingIds rest) as [toUpdate toInsert].
    simpl in IH. destruct IH as [SU SI].
    destruct (part d) as [x0|]; [destruct (has existingIds (key d))|]; simpl;
      split; intros k Hk; simpl in Hk;
      try (destruct Hk as [<- | Hk]; [now left|]); right; auto.
Qed.

Lemma split_nodup (existingIds : list Z) (batch : list D) :
  NoDup (map key batch) ->
  NoDup (map fst (fst (split key part existingIds batch)))
  /\ NoDup (map fst (snd (split key part existingIds batch))).
Proof.
  induction batch as [|d rest IH]; simpl; intros Hnd.
  - split; constructor.
  - inversion Hnd as [|? ? Hnot Hnd']; subst.
    destruct (split_keys existingIds rest) as [SU SI].
    destruct (split key part existingIds rest) as [toUpdate toInsert].
    simpl in *. destruct (IH Hnd') as [NU NI].
    destruct (part d) as [x0|]; [destruct (has existingIds (key d))|]; simpl;
      split; try assumption; constructor; try assumption;
      intros Hin; apply Hnot; auto.
Qed.

Lemma select_in_keys (whiskyIds : list Z) (t : list (Z * X)) (k : Z) :
  In k (map fst (select_in whiskyIds t)) <-> In k (map fst t) /\ In k whiskyIds.
Proof.
  unfold select_in. rewrite !in_map_iff. split.
  - intros (r & E & Hr). apply filter_In in Hr. destruct Hr as [Hr Hh].
    apply has_in in Hh. subst. split; [exists r; auto | exact Hh].
  - intros ((r & E & Hr) & Hk). exists r. split; [exact E|].
    apply filter_In. split; [exact Hr|]. apply has_in. now rewrite E.
Qed.

End PersistFacts.

Section PersistExtras.
Import Persist.

(** saveWhiskyDataBatch, pricing and rating rows (lines 286-378).  On a
    table with at most one row per whisky and a batch in which no whisky
    occurs twice, when every statement succeeds: the table still has at
    most one row per whisky; a record of the batch that carries pricing
    (rating) has its row updated if the table had one for the whisky, and
    its new row inserted otherwise; no row is removed, and the rows of
    all other whiskies are the same as before. *)
Theorem save_part_one_row_per_whisky {D X : Type} (key : D -> Z)
    (part : D -> option X) (merge : X -> X -> X) (batch : list D)
    (t : list (Z * X)) :
  NoDup (map fst t) -> NoDup (map key batch) ->
  NoDup (map fst (save_part key part merge batch t))
  /\ (forall d x, In d batch -> part d = Some x ->
        (forall old, In (key d, old) t ->
                     In (key d, merge old x) (save_part key part merge batch t))
        /\ (~ In (key d) (map fst t) ->
            In (key d, x) (save_part key part merge batch t)))
  /\ incl (map fst t) (map fst (save_part key part merge batch t))
  /\ (forall r, In r t ->
                (forall d, In d batch -> key d = fst r -> part d = None) ->
                In r (save_part key part merge batch t)).
Proof.
  intros Ht Hb. unfold save_part.
  set (existingIds := map fst (select_in (map key batch) t)).
  pose proof (split_update_in key part existingIds batch) as IU.
  pose proof (split_insert_in key part existingIds batch) as II.
  destruct (split_nodup key part existingIds batch Hb) as [NU NI].
  destruct (split key part existingIds batch) as [toUpdate toInsert].
  simpl in *.
  assert (Hex : forall k, In k existingIds <-> In k (map fst t) /\ In k (map key batch)).
  { intros k. apply select_in_keys. }
  destruct (fold_updates merge toUpdate t NU) as (K & U & O).
  repeat split.
  - rewrite map_app, K. apply NoDup_app; [exact Ht | exact NI|].
    intros k Hk Hk'. apply in_map_iff in Hk'. destruct Hk' as ([k' x] & E & Hr).
    simpl in E. subst k'. apply II in Hr. destruct Hr as [Hn (d & Hd & E & _)].
    apply Hn, Hex. split; [exact Hk|]. rewrite <- E. now apply in_map.
  - intros old Hold. apply in_or_app. left. apply U; [|exact Hold].
    apply IU. split; [|eauto]. apply Hex. split; [|now apply in_map].
    change (key d) with (fst (key d, old)). now apply in_map.
  - intros Hnew. apply in_or_app. right. apply II. split; [|eauto].
    intros Hin. apply Hex in Hin. now apply Hnew.
  - intros k Hk. rewrite map_app, K. apply in_or_app. now left.
  - intros r Hr Hnone. apply in_or_app. left. apply O; [|exact Hr].
    intros [k x] Hu E. simpl in E. apply IU in Hu.
    destruct Hu as [_ (d & Hd & Ek & Hp)].
    rewrite (Hnone d Hd) in Hp; [discriminate | congruence].
Qed.

Lemma save_part_one_row_per_whisky_witness :
  NoDup (map fst (save_part fst snd Z.max
                    [(1, Some 10); (2, None); (3, Some 30)] [(3, 29); (4, 40)]))
  /\ (forall d x, In d [(1, Some 10); (2, None); (3, Some 30)] -> snd d = Some x ->
        (forall old, In (fst d, old) [(3, 29); (4, 40)] ->
                     In (fst d, Z.max old x)
                        (save_part fst snd Z.max
                           [(1, Some 10); (2, None); (3, Some 30)]
                           [(3, 29); (4, 40)]))
        /\ (~ In (fst d) (map fst [(3, 29); (4, 40)]) ->
            In (fst d, x)
               (save_part fst snd Z.max
                  [(1, Some 10); (2, None); (3, Some 30)] [(3, 29); (4, 40)])))
  /\ incl (map fst [(3, 29); (4, 40)])
          (map fst (save_part fst snd Z.max
                      [(1, Some 10); (2, None); (3, Some 30)] [(3, 29); (4, 40)]))
  /\ (forall r, In r [(3, 29); (4, 40)] ->
                (forall d, In d [(1, Some 10); (2, None); (3, Some 30)] ->
                           fst d = fst r -> snd d = None) ->
                In r (save_part fst snd Z.max
                        [(1, Some 10); (2, None); (3, Some 30)]
                        [(3, 29); (4, 40)])).
Proof.
  apply (save_part_one_row_per_whisky fst snd Z.max
           [(1, Some 10); (2, None); (3, Some 30)] [(3, 29); (4, 40)]).
  - simpl. repeat constructor; simpl; intuition discriminate.
  - simpl. repeat constructor; simpl; intuition discriminate.
Defined.

End PersistExtras.

(** ** The command line *)

Section CliExtras.
Import Cli.

Lemma loop_items (parseInt : string -> Num) (items : list Item) :
  Forall well_formed items ->
  forall o, loop parseInt false (flat_map words items) o
            = fold_left (apply_item parseInt) items o.
Proof.
  induction 1 as [|it items Hwf _ IH]; intros o; [reflexivity|].
  cbn [flat_map fold_left]. destruct it as [v|v| |w]; cbn [words app].
  - cbn [loop]. rewrite String.eqb_refl. cbn [hd_error truthy andb].
    destruct v as [|a v]; [now destruct Hwf|].
    cbn [truthy]. cbn [loop option_map]. apply IH.
  - cbn [loop].
    replace ("--max-id" =? "--start-id")%string with false by reflexivity.
    cbn [andb]. rewrite String.eqb_refl. cbn [hd_error truthy andb].
    destruct v as [|a v]; [now destruct Hwf|].
    cbn [truthy]. cbn [loop option_map]. apply IH.
  - cbn [loop].
    replace ("--dry-run" =? "--start-id")%string with false by reflexivity.
    replace ("--dry-run" =? "--max-id")%string with false by reflexivity.
    cbn [andb]. rewrite String.eqb_refl. apply IH.
  - cbn [loop]. destruct Hwf as (H1 & H2 & H3).
    rewrite (proj2 (String.eqb_neq _ _) H1), (proj2 (String.eqb_neq _ _) H2),
      (proj2 (String.eqb_neq _ _) H3).
    cbn [andb]. apply IH.
Qed.

(** The command line (lines 880-901).  For a command line made of
    [--start-id v], [--max-id v] (v not empty), [--dry-run] and other
    words, in any order: the options are those of the last [--start-id]
    and the last [--max-id], each passed through parseInt, and dryRun is
    set exactly if [--dry-run] occurs as a word of its own; other words
    are ignored.  A value is never read as a flag: in [--start-id
    --dry-run] the second word is the value. *)
Theorem parse_args_items (parseInt : string -> Num) (items : list Item) :
  Forall well_formed items ->
  parse_args parseInt (flat_map words items)
  = fold_left (apply_item parseInt) items no_options
  /\ (dryRun (parse_args parseInt (flat_map words items)) = true
      <-> In DryRun items).
Proof.
  intros Hwf. unfold parse_args. rewrite (loop_items parseInt items Hwf).
  split; [reflexivity|].
  assert (H : forall o, dryRun (fold_left (apply_item parseInt) items o) = true
                        <-> dryRun o = true \/ In DryRun items).
  { clear Hwf. induction items as [|it items IH]; intros o; simpl; [tauto|].
    rewrite IH. destruct it; simpl; intuition discriminate. }
  rewrite H. simpl. split; [intros [H' | H']; [discriminate | exact H'] | auto].
Qed.

Lemma parse_args_items_witness :
  parse_args (fun _ => NaN)
    (flat_map words [StartId "--dry-run"; Other "x"; MaxId "0"; StartId "7"])
  = fold_left (apply_item (fun _ => NaN))
      [StartId "--dry-run"; Other "x"; MaxId "0"; StartId "7"] no_options
  /\ (dryRun (parse_args (fun _ => NaN)
                (flat_map words
                   [StartId "--dry-run"; Other "x"; MaxId "0"; StartId "7"])) = true
      <-> In DryRun [StartId "--dry-run"; Other "x"; MaxId "0"; StartId "7"]).
Proof.
  apply (parse_args_items (fun _ => NaN)
           [StartId "--dry-run"; Other "x"; MaxId "0"; StartId "7"]).
  repeat constructor; discriminate.
Defined.

End CliExtras.
